(** * ShellSpawn (linuxshell.c): a shallow embedding and its properties

    The development follows the POSIX implementation of [shellspawn()]:
    C strings and the text holders, the output workers, the command parser,
    the PATH search, the wait loops and finally [shellspawn] itself, run
    against an explicit description of what the operating system answers.
    Definitions come first; the lemmas and the theorems C1 ... C10 follow. *)

From stdpp Require Import base option list strings gmap.
From Stdlib Require Import ZArith Ascii Lia.

Local Open Scope Z_scope.
Local Open Scope list_scope.

(* ===================================================================== *)
(** ** C strings                                                          *)
(* ===================================================================== *)

Module CStr.

(** A region of [char] memory read from some pointer onwards. *)
Abbreviation mem := (list ascii).

Definition NUL : ascii := Ascii.zero.
Definition NL : ascii := "010"%char.
Definition SPACE : ascii := " "%char.
Definition DQUOTE : ascii := "034"%char.
Definition SQUOTE : ascii := "039"%char.
Definition SLASH : ascii := "/"%char.
Definition COLON : ascii := ":"%char.

Definition is_nul (c : ascii) : bool := Ascii.eqb c NUL.

(** Literals for examples. *)
Definition bytes (s : string) : mem := String.list_ascii_of_string s.

(** [p[i]]; reading past the modelled region yields the terminator. *)
Definition at_ (p : mem) (i : nat) : ascii := default NUL (p !! i).

(** The C string that starts at [p]: everything before the first NUL. *)
Fixpoint cstr (p : mem) : list ascii :=
  match p with
  | [] => []
  | c :: p' => if is_nul c then [] else c :: cstr p'
  end.

(** [strlen(p)] *)
Definition strlen (p : mem) : nat := length (cstr p).

(** [strrchr(p, ch)]: offset of the last [ch] of the C string at [p]. *)
Fixpoint strrchr (p : mem) (ch : ascii) : option nat :=
  match p with
  | [] => None
  | c :: p' =>
      if is_nul c then None
      else match strrchr p' ch with
           | Some k => Some (S k)
           | None => if Ascii.eqb c ch then Some 0%nat else None
           end
  end.

Definition nul_free (s : list ascii) : Prop := Forall (λ c, c ≠ NUL) s.

End CStr.
Import CStr.

(* ===================================================================== *)
(** ** Text holders: [setTextOutput], [appendTextOutput], [appendTextArray] *)
(* ===================================================================== *)

(** A [char*] owned by a holder: [None] is the NULL pointer, [Some s] a
    malloc'ed C string with contents [s]. *)
Abbreviation text := (option (list ascii)).

(** A [STRINGARRAY*]: [None] is NULL, [Some a] a NULL-terminated array of
    owned strings. *)
Abbreviation textarray := (option (list (list ascii))).

Definition setTextOutput (outputText : text) (inputText : mem) : text :=
  Some (cstr inputText).

Definition appendTextOutput (outputText : text) (inputText : mem) : text :=
  match outputText with
  | Some s => Some (s ++ cstr inputText)      (* realloc + strcat *)
  | None => Some (cstr inputText)             (* malloc + strcpy *)
  end.

(** [inputText] is a non-NULL owned string (every caller passes the result
    of [appendTextOutput]), so the scan for the terminating NULL pointer
    stops at the end of the array. *)
Definition appendTextArray (outputArray : textarray) (inputText : list ascii)
  : textarray :=
  match outputArray with
  | Some a => Some (a ++ [inputText])
  | None => Some [inputText]
  end.

(* ===================================================================== *)
(** ** Output workers                                                    *)
(* ===================================================================== *)

(** What one [read(hRead, lpBuffer, 256)] returns.  The end of the list of
    results stands for end of file ([read] returns 0). *)
Inductive ReadResult :=
| RdData (chunk : list ascii)     (* [length chunk] bytes were read *)
| RdError.                        (* -1 *)

(** [read] stores the bytes at the start of the buffer and leaves the rest
    of the buffer as it was. *)
Definition read_into (lpBuffer : mem) (chunk : list ascii) : mem :=
  chunk ++ drop (length chunk) lpBuffer.

(** Every [read] that returns data returns between 1 and 256 bytes. *)
Definition well_chunked (chunks : list (list ascii)) : Prop :=
  Forall (λ c, (0 < length c ≤ 256)%nat) chunks.

Module OutputWorker.

(** *** [HandleOutputToString] *)

Record SResult := {
  s_out : text;         (* [*sOut] afterwards *)
  s_error : bool;       (* [*error] was set *)
  s_buffer : mem;       (* [lpBuffer] afterwards *)
}.

(** One pass through the body of the [while (reading)] loop, after a
    successful [read] of [chunk] (empty at end of file). *)
Definition string_body (have_sOut : bool) (chunk : list ascii)
    (lpBuffer : mem) (sOut : text) : mem * text :=
  let lpBuffer := read_into lpBuffer chunk in
  if have_sOut then
    let lpBuffer := <[length chunk := NUL]> lpBuffer in
    (lpBuffer, appendTextOutput sOut lpBuffer)
  else (lpBuffer, sOut).

Fixpoint HandleOutputToString (reads : list ReadResult) (have_sOut : bool)
    (lpBuffer : mem) (sOut : text) : SResult :=
  match reads with
  | [] =>
      let '(b, o) := string_body have_sOut [] lpBuffer sOut in
      {| s_out := o; s_error := false; s_buffer := b |}
  | RdError :: _ =>
      {| s_out := sOut; s_error := true; s_buffer := lpBuffer |}
  | RdData chunk :: reads' =>
      let '(b, o) := string_body have_sOut chunk lpBuffer sOut in
      match chunk with
      | [] => {| s_out := o; s_error := false; s_buffer := b |}
      | _ :: _ => HandleOutputToString reads' have_sOut b o
      end
  end.

(** *** [HandleOutputToVector] *)

Record VState := {
  v_lpBuffer : mem;
  v_start : nat;
  v_buffer : text;          (* the line being accumulated *)
  v_aOut : textarray;       (* [*aOut] *)
}.

(** Body of [for (i = 0; i < nBytesRead; i++)]. *)
Definition vector_step (i : nat) (st : VState) : VState :=
  if Ascii.eqb (at_ (v_lpBuffer st) i) NL then
    let lpBuffer := <[i := NUL]> (v_lpBuffer st) in
    let buffer := appendTextOutput (v_buffer st) (drop (v_start st) lpBuffer) in
    {| v_lpBuffer := lpBuffer;
       v_start := S i;
       v_buffer := None;
       v_aOut := appendTextArray (v_aOut st) (default [] buffer) |}
  else st.

(** The [for] loop with [k] iterations left, the next one at index [i]. *)
Fixpoint vector_for (k i : nat) (st : VState) : VState :=
  match k with
  | O => st
  | S k' => vector_for k' (S i) (vector_step i st)
  end.

(** Body of the [while (reading)] loop after a successful [read]. *)
Definition vector_body (chunk : list ascii) (lpBuffer : mem)
    (buffer : text) (aOut : textarray) : VState :=
  let n := length chunk in
  let st := vector_for n 0
              {| v_lpBuffer := read_into lpBuffer chunk; v_start := 0;
                 v_buffer := buffer; v_aOut := aOut |} in
  if (v_start st <? n)%nat then
    let lpBuffer := <[n := NUL]> (v_lpBuffer st) in
    {| v_lpBuffer := lpBuffer;
       v_start := v_start st;
       v_buffer := appendTextOutput (v_buffer st) (drop (v_start st) lpBuffer);
       v_aOut := v_aOut st |}
  else st.

Record VResult := {
  r_aOut : textarray;       (* [*aOut] afterwards *)
  r_error : bool;
}.

(** After the loop: "Add the last line if need be". *)
Definition vector_finish (st : VState) : VResult :=
  match v_buffer st with
  | Some line => {| r_aOut := appendTextArray (v_aOut st) line; r_error := false |}
  | None => {| r_aOut := v_aOut st; r_error := false |}
  end.

Fixpoint vector_loop (reads : list ReadResult) (lpBuffer : mem)
    (buffer : text) (aOut : textarray) : VResult :=
  match reads with
  | [] => vector_finish (vector_body [] lpBuffer buffer aOut)
  | RdError :: _ => {| r_aOut := aOut; r_error := true |}
  | RdData chunk :: reads' =>
      let st := vector_body chunk lpBuffer buffer aOut in
      match chunk with
      | [] => vector_finish st
      | _ :: _ => vector_loop reads' (v_lpBuffer st) (v_buffer st) (v_aOut st)
      end
  end.

Definition HandleOutputToVector (reads : list ReadResult) (lpBuffer : mem)
    (aOut : textarray) : VResult :=
  vector_loop reads lpBuffer None aOut.

End OutputWorker.

(** The contents of a line array, NULL standing for "no lines". *)
Definition lines_of (a : textarray) : list (list ascii) := default [] a.

(** An uninitialised 257-byte stack buffer, for examples. *)
Definition stack_buffer : mem := replicate 257 "x"%char.

(* ===================================================================== *)
(** ** Splitting into lines, as the specification words it               *)
(* ===================================================================== *)

(** [B] split on [sep]: the segments between separators, separators
    removed; a sequence that ends in [sep] has an empty last segment. *)
Fixpoint split_on (sep : ascii) (B : list ascii) : list (list ascii) :=
  match B with
  | [] => [[]]
  | c :: B' =>
      if Ascii.eqb c sep then [] :: split_on sep B'
      else match split_on sep B' with
           | seg :: segs => (c :: seg) :: segs
           | [] => [[c]]
           end
  end.

(** The split without its last segment when that segment is empty. *)
Definition lines_spec (B : list ascii) : list (list ascii) :=
  let parts := split_on NL B in
  match last parts with
  | Some [] => removelast parts
  | _ => parts
  end.

(** The same split read from left to right: completed lines and the
    fragment after the last newline. *)
Definition feed1 (st : list (list ascii) * list ascii) (c : ascii)
  : list (list ascii) * list ascii :=
  if Ascii.eqb c NL then (st.1 ++ [st.2], []) else (st.1, st.2 ++ [c]).

Definition feed (st : list (list ascii) * list ascii) (B : list ascii)
  : list (list ascii) * list ascii :=
  foldl feed1 st B.

(* ===================================================================== *)
(** ** [ParseCommand]                                                     *)
(* ===================================================================== *)

Module Parser.

(** How far [for (; p[0]; p++) if (stop p[0]) break;] advances [p]. *)
Fixpoint advance (stop : ascii → bool) (p : mem) : nat :=
  match p with
  | [] => 0%nat
  | c :: p' =>
      if is_nul c then 0%nat
      else if stop c then 0%nat
      else S (advance stop p')
  end.

(** The value of [l] after [for (; cmd[l]; l++) if (stop cmd[l]) break;]. *)
Definition scan (stop : ascii → bool) (cmd : mem) (l : nat) : nat :=
  (l + advance stop (drop l cmd))%nat.

Definition not_space (c : ascii) : bool := negb (Ascii.eqb c SPACE).
Definition is_char (q c : ascii) : bool := Ascii.eqb c q.

(** "Skip Leading Spaces" / "Skip Trailing Spaces". *)
Definition skip_spaces (cmd : mem) (l : nat) : nat := scan not_space cmd l.

(** The cursor and the buffer after
    [for (l++; cmd[l]; l++) if (cmd[l] == q) { (cmd[l] = 0;) l++; break; }];
    [terminate] says whether the loop body stores the NUL. *)
Definition token_loop (terminate : bool) (q : ascii) (cmd : mem) (l : nat)
  : mem * nat :=
  let p := scan (is_char q) cmd (S l) in
  if is_nul (at_ cmd p) then (cmd, p)
  else ((if terminate then <[p := NUL]> cmd else cmd), S p).

(** "Count Arguments": the [while (cmd[l])] loop over the buffer [cmd = *command].  Every round
    moves [l] forward, so [length cmd] rounds are always enough; [None]
    means the rounds ran out. *)
Fixpoint count_args (fuel : nat) (cmd : mem) (l : nat) (args : Z) : option Z :=
  if is_nul (at_ cmd l) then Some args
  else match fuel with
       | O => None
       | S fuel' =>
           let c := at_ cmd l in
           let l1 :=
             if Ascii.eqb c DQUOTE then (token_loop false DQUOTE cmd l).2
             else if Ascii.eqb c SQUOTE then (token_loop false SQUOTE cmd l).2
             else (token_loop false SPACE cmd l).2 in
           count_args fuel' cmd (skip_spaces cmd l1) (args + 1)
       end.

(** One slot of the malloc'ed pointer array [*argv]. *)
Inductive slot :=
| Uninit                (* never written since malloc *)
| Ptr (off : nat).      (* [*command + off] *)

(** A store made through [argv[a]] with [a > 0], that is through the word
    that follows the caller's [char **] variable, not into the array. *)
Record stray := { stray_index : nat; stray_value : nat }.

Record fill_state := {
  f_cmd : mem;
  f_argv : list slot;
  f_stray : list stray;
}.

(** "Process Arguments".  The quoted cases store with [*argv[a] = ...],
    the default case with [( *argv)[a] = ...]. *)
Fixpoint fill_args (fuel : nat) (st : fill_state) (l a : nat) : option fill_state :=
  let cmd := f_cmd st in
  if is_nul (at_ cmd l) then Some st
  else match fuel with
       | O => None
       | S fuel' =>
           let c := at_ cmd l in
           let '(st1, l1) :=
             if Ascii.eqb c DQUOTE then
               let '(cmd', l') := token_loop true DQUOTE cmd l in
               ({| f_cmd := cmd'; f_argv := f_argv st;
                   f_stray := f_stray st ++ [{| stray_index := a; stray_value := S l |}] |}, l')
             else if Ascii.eqb c SQUOTE then
               let '(cmd', l') := token_loop true SQUOTE cmd l in
               ({| f_cmd := cmd'; f_argv := f_argv st;
                   f_stray := f_stray st ++ [{| stray_index := a; stray_value := S l |}] |}, l')
             else
               let '(cmd', l') := token_loop true SPACE cmd l in
               ({| f_cmd := cmd'; f_argv := <[a := Ptr l]> (f_argv st);
                   f_stray := f_stray st |}, l') in
           fill_args fuel' st1 (skip_spaces (f_cmd st1) l1) (S a)
       end.

(** What a successful [ParseCommand] leaves behind. *)
Record parsed := {
  p_command : mem;           (* the buffer [*command] *)
  p_file : nat;              (* [*file], as an offset into [*command] *)
  p_argv : list slot;        (* slots 0 .. args-1 of the array; slot args is NULL *)
  p_stray : list stray;
}.

Inductive parse_result :=
| ParseFail                  (* return -1 *)
| ParseOk (p : parsed).      (* return 0 *)

(** A pointer into [*command], or NULL. *)
Definition pointer := option nat.
Definition is_null (p : pointer) : bool :=
  match p with None => true | Some _ => false end.

(** [malloc1], [malloc2]: whether the two [malloc] calls succeed. *)
Definition ParseCommand (malloc1 malloc2 : bool) (command_string : mem)
  : option parse_result :=
  if negb malloc1 then Some ParseFail else
  let cmd := cstr command_string ++ [NUL] in                   (* strcpy *)
  let fuel := length cmd in
  let l := skip_spaces cmd 0 in
  (* [*file = *command + l] *)
  let file : pointer := Some l in
  let file_off := l in
  let l := scan (is_char SPACE) cmd l in
  let '(cmd, l) :=
    if negb (is_nul (at_ cmd l)) then (<[l := NUL]> cmd, S l) else (cmd, l) in
  (* [if (!file[0])]: [file] is the [char **] parameter, [file[0]] the
     pointer stored just above *)
  if is_null file then Some ParseFail else
  let l := skip_spaces cmd l in
  let arg_start := l in
  match (if negb (is_nul (at_ cmd l)) then count_args fuel cmd l 1 else Some 1) with
  | None => None
  | Some args =>
      if negb malloc2 then Some ParseFail else
      let argv := replicate (Z.to_nat args) Uninit in
      let argv0 :=
        match strrchr (drop file_off cmd) SLASH with
        | Some k => Ptr (S (file_off + k))
        | None => Ptr file_off
        end in
      let st := {| f_cmd := cmd; f_argv := <[0%nat := argv0]> argv; f_stray := [] |} in
      match (if 1 <? args then fill_args fuel st arg_start 1 else Some st) with
      | None => None
      | Some st =>
          Some (ParseOk {| p_command := f_cmd st; p_file := file_off;
                           p_argv := f_argv st; p_stray := f_stray st |})
      end
  end.

(** The string a slot points to, when it was ever set. *)
Definition slot_string (cmd : mem) (s : slot) : option (list ascii) :=
  match s with
  | Uninit => None
  | Ptr off => Some (cstr (drop off cmd))
  end.

(** [base_name] as [shellspawn] reads it. *)
Definition file_string (p : parsed) : list ascii :=
  cstr (drop (p_file p) (p_command p)).

(** The argument vector handed to [execv]. *)
Definition argv_strings (p : parsed) : list (option (list ascii)) :=
  slot_string (p_command p) <$> p_argv p.

End Parser.

(* ===================================================================== *)
(** ** The operating system, as [shellspawn] sees it                      *)
(* ===================================================================== *)

(** The places where a system or library call can fail, named by the tag
    of the message the source attaches to the failure (U5 ... U84).
    [M18a] and [M18b] are the two [malloc] calls of [ParseCommand], which
    [shellspawn] reports under U18. *)
Inductive site :=
| U5 | U6 | U7 | U8 | U9 | U10 | U11 | U12 | U13 | U14 | U15 | U16 | U17
| M18a | M18b | U18 | U19 | U22 | U23 | U24 | U25 | U27 | U28 | U29 | U30
| U31 | U32 | U33 | U34 | U35 | U36 | U37 | U38 | U39 | U40 | U41 | U42
| U43 | U44 | U45 | U46 | U47 | U48 | U49 | U50 | U51 | U52 | U53 | U54
| U55 | U56 | U57 | UIn | U71 | UHandoff
| TooManyInText | TooManyOutText | TooManyErrText.

(** [struct stat], the fields [ExeFound] reads. *)
Record file_stat := { st_mode : Z; st_uid : Z; st_gid : Z }.

(** What one [waitpid(pid, &status, WUNTRACED | WCONTINUED)] returns. *)
Inductive wait_result :=
| WaitError                    (* -1 *)
| WaitStatus (status : Z).

Record world := {
  (** whether the call at a site fails *)
  fails : site → bool;
  (** the entries [stat()] finds; a probe that fails or is interrupted by
      the one-second alarm is an absent entry *)
  fs : gmap string file_stat;
  geteuid : Z;
  getegid : Z;
  (** [getenv("PATH")] *)
  env_PATH : option mem;
  (** successive results of [waitpid] on the child program, in the process
      that forked it *)
  child_waits : list wait_result;
  (** for each SIGTTIN stop the proxy sees: whether handing the terminal to
      the child and back failed (any of U72 ... U84) *)
  handoff_fails : list bool;
  (** successive results of [read] on the parent's end of the child's
      stdout and stderr *)
  out_reads : list ReadResult;
  err_reads : list ReadResult;
  (** initial contents of the workers' stack buffers *)
  out_stack : mem;
  err_stack : mem;
  (** whether the input worker records an error (U58 ... U70) *)
  in_thread_fails : bool;
  (** the [callbackType] values the caller's thread finds each time it is
      woken by a worker *)
  callbacks : list Z;
}.

(** *** [<sys/stat.h>] and [<sys/wait.h>] on Linux

    The repository uses these macros and does not define them; they are
    given here with the values and definitions of the GNU C library. *)
Module Sys.

Definition S_IFMT : Z := 61440.      (* 0170000 *)
Definition S_IFREG : Z := 32768.     (* 0100000 *)
Definition S_IXUSR : Z := 64.        (* 0100 *)
Definition S_IXGRP : Z := 8.         (* 010 *)
Definition S_IXOTH : Z := 1.         (* 01 *)
Definition S_ISREG (mode : Z) : bool := Z.land mode S_IFMT =? S_IFREG.

Definition SIGTTIN : Z := 21.

(** Conversion to [signed char]. *)
Definition signed_char (x : Z) : Z :=
  let b := Z.land x 255 in if 128 <=? b then b - 256 else b.

Definition WEXITSTATUS (status : Z) : Z := Z.shiftr (Z.land status 65280) 8.
Definition WTERMSIG (status : Z) : Z := Z.land status 127.
Definition WSTOPSIG (status : Z) : Z := WEXITSTATUS status.
Definition WIFEXITED (status : Z) : bool := WTERMSIG status =? 0.
Definition WIFSIGNALED (status : Z) : bool :=
  0 <? Z.shiftr (signed_char (Z.land status 127 + 1)) 1.
Definition WIFSTOPPED (status : Z) : bool := Z.land status 255 =? 127.

(** The status [waitpid] reports for a process that called [exit(ret)]
    ([sig = 0]) or was terminated by signal [sig] ([ret = 0]). *)
Definition W_EXITCODE (ret sig : Z) : Z := Z.lor (Z.shiftl ret 8) sig.
Definition WCOREFLAG : Z := 128.

(** Status of a child that called [exit(code)]: only the low eight bits
    of [code] reach the parent. *)
Definition exited (code : Z) : Z := W_EXITCODE (Z.land code 255) 0.

(** Status of a child terminated by signal [sig], with or without a core
    dump. *)
Definition signaled (sig : Z) (core : bool) : Z :=
  Z.lor (W_EXITCODE 0 sig) (if core then WCOREFLAG else 0).

End Sys.

(* ===================================================================== *)
(** ** Command resolution: [ExeFound] and the PATH search                 *)
(* ===================================================================== *)

Module Resolver.

(** [stat_try(path, &s, 1)]: [None] when it returns non-zero. *)
Definition stat_try (w : world) (path : mem) : option file_stat :=
  fs w !! String.string_of_list_ascii (cstr path).

Definition bit_set (mode mask : Z) : bool := negb (Z.land mode mask =? 0).

Definition ExeFound (w : world) (exe : mem) : bool :=
  match stat_try w exe with
  | None => false
  | Some stat_p =>
      if negb (Sys.S_ISREG (st_mode stat_p)) then false          (* Not a regular file *)
      else if negb ((bit_set (st_mode stat_p) Sys.S_IXUSR && (st_uid stat_p =? geteuid w))
                    || (bit_set (st_mode stat_p) Sys.S_IXGRP && (st_gid stat_p =? getegid w))
                    || bit_set (st_mode stat_p) Sys.S_IXOTH)
      then false                                                 (* no exec permission *)
      else true
  end.

(** The [for] loop that copies one PATH component:
    [for (i = 0; (file_path[i] = env[0]); i++, env++)
       if (env[0] == ':') { file_path[i] = 0; break; }]
    Result: the string left in [file_path] and where [env] points. *)
Fixpoint copy_component (env : mem) : list ascii * mem :=
  match env with
  | [] => ([], [])
  | c :: env' =>
      if is_nul c then ([], env)
      else if Ascii.eqb c COLON then ([], env)
      else let '(fp, e) := copy_component env' in (c :: fp, e)
  end.

(** What the search loop can end with. *)
Inductive search_result :=
| Found (file_path : list ascii)
| NotFound.

(** [while (env && env[0] != ':') { ... }] with [env] not NULL.  [None]: the
    loop is still running after [fuel] rounds. *)
Fixpoint path_search (fuel : nat) (w : world) (env : mem) (base_name : list ascii)
  : option search_result :=
  if Ascii.eqb (at_ env 0) COLON then Some NotFound
  else match fuel with
       | O => None
       | S fuel' =>
           let '(fp, env') := copy_component env in
           let file_path := fp ++ [SLASH] ++ base_name in         (* two strcat *)
           if ExeFound w file_path then Some (Found file_path)
           else path_search fuel' w env' base_name
       end.

(** Lines 412-436 of [shellspawn]. *)
Definition resolve (fuel : nat) (w : world) (base_name : list ascii)
  : option search_result :=
  if ExeFound w base_name then Some (Found base_name)
  else if negb (Ascii.eqb (at_ base_name 0) SLASH) then
    match env_PATH w with
    | Some env => path_search fuel w env base_name
    | None => Some NotFound
    end
  else Some NotFound.

End Resolver.

(* ===================================================================== *)
(** ** Waiting for the child: [WaitForProcess] loop and [ProxyWorker]     *)
(* ===================================================================== *)

Module Waiting.

(** How a [do { waitpid } while (!WIFEXITED && !WIFSIGNALED)] loop ends. *)
Inductive wait_end :=
| WaitFailed                   (* [waitpid] returned -1 *)
| WaitDone (status : Z)        (* the loop condition became false *)
| WaitBlocked.                 (* no further status ever arrives *)

(** The loop at the head of [WaitForProcess]. *)
Fixpoint wait_loop (waits : list wait_result) : wait_end :=
  match waits with
  | [] => WaitBlocked
  | WaitError :: _ => WaitFailed
  | WaitStatus status :: waits' =>
      if negb (Sys.WIFEXITED status) && negb (Sys.WIFSIGNALED status)
      then wait_loop waits'
      else WaitDone status
  end.

(** [ProxyWorker]: its return value, [None] when it never returns. *)
Fixpoint ProxyWorker (waits : list wait_result) (handoffs : list bool) : option Z :=
  match waits with
  | [] => None
  | WaitError :: _ => Some (-1)                      (* U71 *)
  | WaitStatus status :: waits' =>
      let stopped_ttin :=
        Sys.WIFSTOPPED status && (Sys.WSTOPSIG status =? Sys.SIGTTIN) in
      if stopped_ttin && default false (head handoffs) then Some (-1)
      else
        let handoffs' := if stopped_ttin then tail handoffs else handoffs in
        if negb (Sys.WIFEXITED status) && negb (Sys.WIFSIGNALED status)
        then ProxyWorker waits' handoffs'
        else Some (Sys.WEXITSTATUS status)           (* return the child RC *)
  end.

(** Whether the proxy gets as far as sending the child's pid. *)
Definition proxy_setup_ok (w : world) : bool :=
  negb (fails w U23 || fails w U24 || fails w U25 || fails w U27
        || fails w U28 || fails w U29 || fails w U30 || fails w U31).

(** The argument of the proxy's [exit()]. *)
Definition proxy_exit_code (w : world) : option Z :=
  if proxy_setup_ok w then ProxyWorker (child_waits w) (handoff_fails w)
  else Some (-1).

(** What [waitpid] on the proxy reports to [shellspawn]. *)
Definition proxy_waits (w : world) : list wait_result :=
  match proxy_exit_code w with
  | Some code => [WaitStatus (Sys.exited code)]
  | None => []
  end.

End Waiting.

(* ===================================================================== *)
(** ** [shellspawn]                                                       *)
(* ===================================================================== *)

Definition SHELLSPAWN_OK : Z := 0.
Definition SHELLSPAWN_TOOMANYIN : Z := 1.
Definition SHELLSPAWN_TOOMANYOUT : Z := 2.
Definition SHELLSPAWN_TOOMANYERR : Z := 3.
Definition SHELLSPAWN_NOFOUND : Z := 4.
Definition SHELLSPAWN_FAILURE : Z := 5.

(** The arguments that select the bindings: for each pointer argument,
    whether it is non-NULL.  What the output pointers point to lives in
    [caller]. *)
Record args := {
  command : mem;
  aIn : bool; sIn : bool; fIn : bool; pIn : bool;
  aOut : bool; sOut : bool; fOut : bool; pOut : bool;
  aErr : bool; sErr : bool; fErr : bool; pErr : bool;
}.

(** The caller's variables that [shellspawn] can reach through its pointer
    arguments.  A message is kept as the tags of the sites that wrote it. *)
Record caller := {
  c_aOut : textarray;            (* [*aOut] *)
  c_sOut : text;                 (* [*sOut] *)
  c_aErr : textarray;            (* [*aErr] *)
  c_sErr : text;                 (* [*sErr] *)
  c_rc : Z;                      (* [*rc] *)
  c_errorText : option (list site);   (* [*errorText] *)
}.

Definition with_aOut (v : textarray) (c : caller) : caller :=
  {| c_aOut := v; c_sOut := c_sOut c; c_aErr := c_aErr c; c_sErr := c_sErr c;
     c_rc := c_rc c; c_errorText := c_errorText c |}.
Definition with_sOut (v : text) (c : caller) : caller :=
  {| c_aOut := c_aOut c; c_sOut := v; c_aErr := c_aErr c; c_sErr := c_sErr c;
     c_rc := c_rc c; c_errorText := c_errorText c |}.
Definition with_aErr (v : textarray) (c : caller) : caller :=
  {| c_aOut := c_aOut c; c_sOut := c_sOut c; c_aErr := v; c_sErr := c_sErr c;
     c_rc := c_rc c; c_errorText := c_errorText c |}.
Definition with_sErr (v : text) (c : caller) : caller :=
  {| c_aOut := c_aOut c; c_sOut := c_sOut c; c_aErr := c_aErr c; c_sErr := v;
     c_rc := c_rc c; c_errorText := c_errorText c |}.
Definition with_rc (v : Z) (c : caller) : caller :=
  {| c_aOut := c_aOut c; c_sOut := c_sOut c; c_aErr := c_aErr c; c_sErr := c_sErr c;
     c_rc := v; c_errorText := c_errorText c |}.
Definition with_errorText (v : option (list site)) (c : caller) : caller :=
  {| c_aOut := c_aOut c; c_sOut := c_sOut c; c_aErr := c_aErr c; c_sErr := c_sErr c;
     c_rc := c_rc c; c_errorText := v |}.

(** [Error(context, errorText)] and [setTextOutput(errorText, ...)] both
    replace the message. *)
Definition Error (s : site) (c : caller) : caller := with_errorText (Some [s]) c.

(** [appendTextOutput(errorText, threadErrorText)] *)
Definition appendError (s : site) (c : caller) : caller :=
  with_errorText (Some (default [] (c_errorText c) ++ [s])) c.

(** What [shellspawn] creates, in order, and [CleanUp]. *)
Inductive event :=
| EvSync (s : site)        (* condition variable or mutex initialised *)
| EvPipe (s : site)
| EvPty
| EvFork (s : site)        (* a child or proxy process exists *)
| EvThread (s : site)
| EvCleanUp.

Record result := {
  status : Z;                (* the value returned *)
  after : caller;            (* the caller's variables afterwards *)
  trace : list event;
}.

(** One fallible call: whether it fails, the site, what it creates. *)
Record step := { failed : bool; at_site : site; creates : option event }.

Definition call (w : world) (s : site) (e : option event) : step :=
  {| failed := fails w s; at_site := s; creates := e |}.

(** Runs the calls in order up to the first failure. *)
Fixpoint run_steps (steps : list step) (created : list event)
  : (site * list event) + list event :=
  match steps with
  | [] => inr created
  | st :: steps' =>
      if failed st then inl (at_site st, created)
      else run_steps steps' (created ++ option_list (creates st))
  end.

Definition count (p : bool) : Z := if p then 1 else 0.      (* [(p ? 1 : 0)] *)

Definition any_callback (a : args) : bool :=
  0 <? count (fIn a) + count (fOut a) + count (fErr a).

(** "Clear any output strings" *)
Definition clear_outputs (a : args) (c : caller) : caller :=
  let c := if aOut a && bool_decide (is_Some (c_aOut c)) then with_aOut None c else c in
  let c := if aErr a && bool_decide (is_Some (c_aErr c)) then with_aErr None c else c in
  let c := if sOut a && bool_decide (is_Some (c_sOut c)) then with_sOut None c else c in
  let c := if sErr a && bool_decide (is_Some (c_sErr c)) then with_sErr None c else c in
  c.

(** Event handlers, pipes and the pseudo-terminal (lines 268-400). *)
Definition allocate_steps (w : world) (a : args) : list step :=
  (if any_callback a then
     [call w U5 (Some (EvSync U5)); call w U6 (Some (EvSync U6));
      call w U7 (Some (EvSync U7)); call w U8 (Some (EvSync U8));
      call w U9 (Some (EvSync U9))]
   else [])
  ++ (if pOut a then [] else [call w U10 (Some (EvPipe U10))])
  ++ (if pErr a then [] else [call w U11 (Some (EvPipe U11))])
  ++ (if pIn a then []
      else if fIn a then
        [call w U12 (Some EvPty); call w U13 None; call w U14 None;
         call w U15 (Some (EvPipe U15)); call w U16 (Some (EvPipe U16))]
      else [call w U17 (Some (EvPipe U17))]).

(** Fork and worker threads (lines 444-659).  With an input callback the
    parent then reads the child's pid from the proxy, which fails when the
    proxy died before sending it. *)
Definition launch_steps (w : world) (a : args) : list step :=
  (if fIn a then
     [call w U22 (Some (EvFork U22));
      {| failed := fails w U32 || negb (Waiting.proxy_setup_ok w);
         at_site := U32; creates := None |}]
   else [call w U33 (Some (EvFork U33))])
  ++ (if pOut a then [] else [call w U34 (Some (EvThread U34))])
  ++ (if pErr a then [] else [call w U35 (Some (EvThread U35))])
  ++ (if pIn a then [] else [call w U36 (Some (EvThread U36))])
  ++ (if any_callback a then [call w U37 (Some (EvThread U37))] else []).

(** The first of [sites] that fails. *)
Definition first_failing (w : world) (sites : list site) : option site :=
  snd <$> list_find (λ s, fails w s = true) sites.

(** [HandleOutputToCallback]: the error it records, if any.  Each
    non-empty chunk is handed to the caller's thread through the mutexes
    and condition variables of sites U50 ... U57. *)
Fixpoint HandleOutputToCallback (w : world) (reads : list ReadResult) : option site :=
  match reads with
  | [] => None
  | RdError :: _ => Some U49
  | RdData [] :: _ => None
  | RdData (_ :: _) :: reads' =>
      match first_failing w [U50; U51; U52; U53; U54; U55; U56; U57] with
      | Some s => Some s
      | None => HandleOutputToCallback w reads'
      end
  end.

(** The fields of [SHELLDATA] that decide the result.  A thread's return
    code and its error text are set together: [Some s] stands for a return
    code of 1 with the text of site [s]. *)
Record SHELLDATA := {
  inThread : option site;        (* [inThreadRC], [inThreadErrorText] *)
  outThread : option site;
  errThread : option site;
  waitThread : option site;
  ChildProcessRC : Z;
}.

Definition error_if (b : bool) (s : site) : option site :=
  if b then Some s else None.

(** [HandleOutputThread]: the caller's holders afterwards and the error. *)
Definition HandleOutputThread (w : world) (a : args) (c : caller)
  : caller * option site :=
  if aOut a then
    let r := OutputWorker.HandleOutputToVector (out_reads w) (out_stack w) (c_aOut c) in
    (with_aOut (OutputWorker.r_aOut r) c, error_if (OutputWorker.r_error r) U47)
  else if sOut a then
    let r := OutputWorker.HandleOutputToString (out_reads w) true (out_stack w) (c_sOut c) in
    (with_sOut (OutputWorker.s_out r) c, error_if (OutputWorker.s_error r) U48)
  else if fOut a then (c, HandleOutputToCallback w (out_reads w))
  else
    let r := OutputWorker.HandleOutputToString (out_reads w) false (out_stack w) None in
    (c, error_if (OutputWorker.s_error r) U48).

(** [HandleErrorThread] *)
Definition HandleErrorThread (w : world) (a : args) (c : caller)
  : caller * option site :=
  if aErr a then
    let r := OutputWorker.HandleOutputToVector (err_reads w) (err_stack w) (c_aErr c) in
    (with_aErr (OutputWorker.r_aOut r) c, error_if (OutputWorker.r_error r) U47)
  else if sErr a then
    let r := OutputWorker.HandleOutputToString (err_reads w) true (err_stack w) (c_sErr c) in
    (with_sErr (OutputWorker.s_out r) c, error_if (OutputWorker.s_error r) U48)
  else if fErr a then (c, HandleOutputToCallback w (err_reads w))
  else
    let r := OutputWorker.HandleOutputToString (err_reads w) false (err_stack w) None in
    (c, error_if (OutputWorker.s_error r) U48).

(** [WaitForProcess].  A worker's writes are accounted for where it is
    joined.  On the returns that come before a worker is joined (U43 ...
    U46) that worker is still running: what it has stored in the caller's
    holders by then depends on the scheduling and is not described, the
    holders are shown as they were when the workers started.  [None]: the
    wait never ends. *)
Definition WaitForProcess (w : world) (a : args) (c : caller)
  : option (caller * SHELLDATA) :=
  (* We get the child exit/status via the proxy status *)
  let waits := if fIn a then Waiting.proxy_waits w else child_waits w in
  let data rc i o e wt :=
    {| inThread := i; outThread := o; errThread := e; waitThread := wt;
       ChildProcessRC := rc |} in
  match Waiting.wait_loop waits with
  | Waiting.WaitBlocked => None
  | Waiting.WaitFailed => Some (c, data 0 None None None (Some U43))
  | Waiting.WaitDone status =>
      let rc := Sys.WEXITSTATUS status in                  (* Get Return Code *)
      if negb (pOut a) && fails w U44 then Some (c, data rc None None None (Some U44))
      else
        let '(c, o) := if pOut a then (c, None) else HandleOutputThread w a c in
        if negb (pErr a) && fails w U45 then Some (c, data rc None o None (Some U45))
        else
          let '(c, e) := if pErr a then (c, None) else HandleErrorThread w a c in
          if negb (pIn a) && fails w U46 then Some (c, data rc None o e (Some U46))
          else
            let i := if pIn a then None else error_if (in_thread_fails w) UIn in
            Some (c, data rc i o e None)
  end.

(** [HandleCallback] for a request of type [t]: the failure, if any. *)
Definition HandleCallback (w : world) (t : Z) : option site :=
  if (t =? 1) || (t =? 2) then first_failing w [U40; U41; U42]
  else Some U39.

(** The caller-thread loop over the requests that arrive before the wait
    thread posts -1. *)
Fixpoint callback_loop (w : world) (requests : list Z) : option site :=
  match requests with
  | [] => None
  | t :: requests' =>
      if t =? -1 then None
      else match HandleCallback w t with
           | Some s => Some s
           | None => callback_loop w requests'
           end
  end.

Definition returned (st : Z) (c : caller) (evs : list event) : option result :=
  Some {| status := st; after := c; trace := evs |}.

(** Lines 690-758: thread errors, then [*rc]. *)
Definition finish (c : caller) (d : SHELLDATA) (evs : list event) : option result :=
  match waitThread d with
  | Some s => returned SHELLSPAWN_FAILURE (appendError s c) (evs ++ [EvCleanUp])
  | None =>
      match inThread d with
      | Some s => returned SHELLSPAWN_FAILURE (appendError s c) evs
      | None =>
          match outThread d with
          | Some s => returned SHELLSPAWN_FAILURE (appendError s c) evs
          | None =>
              match errThread d with
              | Some s => returned SHELLSPAWN_FAILURE (appendError s c) evs
              | None => returned SHELLSPAWN_OK (with_rc (ChildProcessRC d) c) evs
              end
          end
      end
  end.

(** Lines 648-758: the child runs; the caller's thread serves callback
    requests or just waits, then the thread errors are examined. *)
Definition lifecycle (w : world) (a : args) (c : caller) (evs : list event)
  : option result :=
  if any_callback a then
    match callback_loop w (callbacks w) with
    | Some s => returned SHELLSPAWN_FAILURE (Error s c) (evs ++ [EvCleanUp])
    | None =>
        match WaitForProcess w a c with
        | None => None
        | Some (c, d) =>
            if fails w U38 then
              returned SHELLSPAWN_FAILURE (Error U38 c) (evs ++ [EvCleanUp])
            else finish c d evs
        end
    end
  else
    match WaitForProcess w a c with
    | None => None
    | Some (c, d) => finish c d evs
    end.

(** Lines 402-646: parse the command, find the program, fork, start the
    workers. *)
Definition resolve_and_launch (w : world) (fuel : nat) (a : args) (c : caller)
    (evs : list event) : option result :=
  match Parser.ParseCommand (negb (fails w M18a)) (negb (fails w M18b)) (command a) with
  | None => None
  | Some Parser.ParseFail =>
      returned SHELLSPAWN_NOFOUND (Error U18 c) (evs ++ [EvCleanUp])
  | Some (Parser.ParseOk p) =>
      match Parser.p_stray p with
      | _ :: _ =>
          (* [ParseCommand] was called with [&data.argv], the last member
             of [data]: a store through [argv[a]], [a > 0], goes through
             whatever word lies behind [data] on the stack.  The
             behaviour is undefined (in practice the process is killed
             inside [ParseCommand]); the call has no result. *)
          None
      | [] =>
          match Resolver.resolve fuel w (Parser.file_string p) with
          | None => None
          | Some Resolver.NotFound =>
              returned SHELLSPAWN_NOFOUND (Error U19 c) (evs ++ [EvCleanUp])
          | Some (Resolver.Found file_path) =>
              match run_steps (launch_steps w a) evs with
              | inl (s, evs) =>
                  returned SHELLSPAWN_FAILURE (Error s c) (evs ++ [EvCleanUp])
              | inr evs => lifecycle w a c evs
              end
          end
      end
  end.

(** [shellspawn].  [fuel] bounds the rounds of the PATH search; [None]
    means the call has not returned: the search is still running, the
    wait for the child never ends, or [ParseCommand] has stored outside
    the argument array. *)
Definition shellspawn (w : world) (fuel : nat) (a : args) (c : caller)
  : option result :=
  (* Validate inputs *)
  if 1 <? count (aIn a) + count (sIn a) + count (fIn a) + count (pIn a) then
    returned SHELLSPAWN_TOOMANYIN (Error TooManyInText c) []
  else if 1 <? count (aOut a) + count (sOut a) + count (fOut a) + count (pOut a) then
    returned SHELLSPAWN_TOOMANYOUT (Error TooManyOutText c) []
  else if 1 <? count (aErr a) + count (sErr a) + count (fErr a) + count (pErr a) then
    returned SHELLSPAWN_TOOMANYERR (Error TooManyErrText c) []
  else
    (* Clear any output strings *)
    let c := clear_outputs a c in
    (* event handlers, pipes, pseudo-terminal *)
    match run_steps (allocate_steps w a) [] with
    | inl (s, evs) => returned SHELLSPAWN_FAILURE (Error s c) (evs ++ [EvCleanUp])
    | inr evs => resolve_and_launch w fuel a c evs
    end.

(* ===================================================================== *)
(** ** The resolver and the argument grammar, as the specification words them *)
(* ===================================================================== *)

Module Spec.

(** "joins each PATH component in order with '/' and the program name and
    tries the candidates until one satisfies the executability predicate;
    NotFound only if no PATH component yields an executable candidate; a
    missing PATH yields NotFound". *)
Definition resolve_spec (w : world) (name : list ascii) : Resolver.search_result :=
  if Resolver.ExeFound w name then Resolver.Found name
  else if Ascii.eqb (at_ name 0) SLASH then Resolver.NotFound
  else match env_PATH w with
       | None => Resolver.NotFound
       | Some env =>
           match list_find
                   (λ comp, Resolver.ExeFound w (comp ++ [SLASH] ++ name) = true)
                   (split_on COLON env) with
           | Some (_, comp) => Resolver.Found (comp ++ [SLASH] ++ name)
           | None => Resolver.NotFound
           end
       end.

(** "whitespace-separated tokens; a double- or single-quoted span yields
    one token containing the inner text verbatim without the quotes; a
    trailing unterminated quote consumes to the end of the string". *)
Inductive mode :=
| Between                      (* between tokens *)
| InWord                       (* inside an unquoted token *)
| InQuote (q : ascii).         (* inside a span opened by [q] *)

Fixpoint tokens (m : mode) (cur : list ascii) (s : list ascii) : list (list ascii) :=
  match s with
  | [] => match m with Between => [] | _ => [cur] end
  | c :: s' =>
      match m with
      | Between =>
          if Ascii.eqb c SPACE then tokens Between [] s'
          else if Ascii.eqb c DQUOTE || Ascii.eqb c SQUOTE then tokens (InQuote c) [] s'
          else tokens InWord [c] s'
      | InWord =>
          if Ascii.eqb c SPACE then cur :: tokens Between [] s'
          else tokens InWord (cur ++ [c]) s'
      | InQuote q =>
          if Ascii.eqb c q then cur :: tokens Between [] s'
          else tokens (InQuote q) (cur ++ [c]) s'
      end
  end.

(** "the text after the last '/', or the whole token if it has none" *)
Definition basename (token : list ascii) : list ascii :=
  match strrchr token SLASH with
  | Some k => drop (S k) token
  | None => token
  end.

(** The program token is whitespace-delimited; the arguments follow the
    grammar above. *)
Definition argv_spec (command : list ascii) : list (list ascii) :=
  let rest := drop (Parser.advance Parser.not_space command) command in
  let n := Parser.advance (Parser.is_char SPACE) rest in
  basename (take n rest) :: tokens Between [] (drop n rest).

End Spec.

(* ===================================================================== *)
(** ** Sample environments                                               *)
(* ===================================================================== *)

Module Sample.

(** Output with a zero byte in it: [a NUL b] and [a NUL b \n]. *)
Definition nul_inside : list ascii := ["a"%char; NUL; "b"%char].
Definition nul_line : list ascii := ["a"%char; NUL; "b"%char; NL].

(** A command with a quoted argument. *)
Definition quoted_command : mem := bytes "/bin/echo 'a b' x".

(** A regular file with mode 0755 and a directory with mode 0755, both
    owned by root. *)
Definition exe_stat : file_stat := {| st_mode := 33261; st_uid := 0; st_gid := 0 |}.
Definition dir_stat : file_stat := {| st_mode := 16877; st_uid := 0; st_gid := 0 |}.

(** A system in which no call fails, the child writes nothing and no
    callback request arrives. *)
Definition quiet_world (files : gmap string file_stat) (path : option mem)
    (waits : list wait_result) : world :=
  {| fails := λ _, false;
     fs := files;
     geteuid := 1000; getegid := 1000;
     env_PATH := path;
     child_waits := waits;
     handoff_fails := [];
     out_reads := []; err_reads := [];
     out_stack := stack_buffer; err_stack := stack_buffer;
     in_thread_fails := false;
     callbacks := [] |}.

(** All three streams discarded. *)
Definition discard_all (cmd : mem) : args :=
  {| command := cmd;
     aIn := false; sIn := false; fIn := false; pIn := false;
     aOut := false; sOut := false; fOut := false; pOut := false;
     aErr := false; sErr := false; fErr := false; pErr := false |}.

(** stdout bound to a Buffer, the rest discarded. *)
Definition buffer_out (cmd : mem) : args :=
  {| command := cmd;
     aIn := false; sIn := false; fIn := false; pIn := false;
     aOut := false; sOut := true; fOut := false; pOut := false;
     aErr := false; sErr := false; fErr := false; pErr := false |}.

(** Two bindings for stdin and two for stdout. *)
Definition conflict_in_out : args :=
  {| command := bytes "/bin/echo hello";
     aIn := true; sIn := true; fIn := false; pIn := false;
     aOut := true; sOut := true; fOut := false; pOut := false;
     aErr := false; sErr := false; fErr := false; pErr := false |}.

(** The caller's variables before a call: holders still filled by an
    earlier call, [rc] holding 77. *)
Definition used_caller : caller :=
  {| c_aOut := Some [bytes "old line"]; c_sOut := Some (bytes "old text");
     c_aErr := Some [bytes "old error"]; c_sErr := None;
     c_rc := 77; c_errorText := None |}.

Definition bin_files : gmap string file_stat :=
  {[ "/bin/echo"%string := exe_stat; "/bin"%string := dir_stat;
     "/"%string := dir_stat; "/usr/bin"%string := dir_stat;
     "/usr/bin/"%string := dir_stat ]}.

(** Only [/b/ls] is executable; PATH is [/a:/b]. *)
Definition two_dirs : world :=
  quiet_world {[ "/b/ls"%string := exe_stat; "/a"%string := dir_stat;
                 "/b"%string := dir_stat ]}
              (Some (bytes "/a:/b")) [WaitStatus (Sys.exited 0)].

(** PATH is the single directory [/usr/bin]. *)
Definition one_dir : world :=
  quiet_world bin_files (Some (bytes "/usr/bin")) [WaitStatus (Sys.exited 0)].

(** The usual three-directory PATH. *)
Definition usual : list wait_result → world :=
  quiet_world bin_files (Some (bytes "/usr/local/bin:/usr/bin:/bin")).

End Sample.

(* ===================================================================== *)
(** ** Vocabulary for the statements about [shellspawn]                   *)
(* ===================================================================== *)

Inductive stream := StdIn | StdOut | StdErr.

(** How many bindings the caller supplied for a stream. *)
Definition bindings (a : args) (s : stream) : Z :=
  match s with
  | StdIn => count (aIn a) + count (sIn a) + count (fIn a) + count (pIn a)
  | StdOut => count (aOut a) + count (sOut a) + count (fOut a) + count (pOut a)
  | StdErr => count (aErr a) + count (sErr a) + count (fErr a) + count (pErr a)
  end.

Definition too_many (s : stream) : Z :=
  match s with
  | StdIn => SHELLSPAWN_TOOMANYIN
  | StdOut => SHELLSPAWN_TOOMANYOUT
  | StdErr => SHELLSPAWN_TOOMANYERR
  end.

(** [earlier s' s]: stream [s'] is validated before stream [s]. *)
Definition earlier (s' s : stream) : bool :=
  match s', s with
  | StdIn, StdOut | StdIn, StdErr | StdOut, StdErr => true
  | _, _ => false
  end.

(** The four output holders. *)
Definition holders (c : caller)
  : textarray * text * textarray * text :=
  (c_aOut c, c_sOut c, c_aErr c, c_sErr c).

Definition is_fork (e : event) : bool :=
  match e with EvFork _ => true | _ => false end.

(** A run in which nothing goes wrong around the child: no call fails, no
    read fails, the input worker records no error and only input and
    output requests reach the caller's thread. *)
Record quiet (w : world) : Prop := {
  quiet_calls : ∀ s, fails w s = false;
  quiet_handoffs : Forall (λ b, b = false) (handoff_fails w);
  quiet_out : Forall (λ r, r ≠ RdError) (out_reads w);
  quiet_err : Forall (λ r, r ≠ RdError) (err_reads w);
  quiet_in : in_thread_fails w = false;
  quiet_callbacks : Forall (λ t, t = 1 ∨ t = 2) (callbacks w);
}.

(** The caller's variables once the output workers have been joined. *)
Definition joined (w : world) (a : args) (c : caller) : caller :=
  let c := if pOut a then c else (HandleOutputThread w a c).1 in
  if pErr a then c else (HandleErrorThread w a c).1.

(** The child is stopped or continued through the statuses [before] and
    then ends with status [last]. *)
Definition child_ends_with (w : world) (before : list Z) (last : Z) : Prop :=
  (∃ rest, child_waits w = (WaitStatus <$> before) ++ WaitStatus last :: rest)
  ∧ Forall (λ s, Sys.WIFEXITED s = false ∧ Sys.WIFSIGNALED s = false) before
  ∧ (Sys.WIFEXITED last = true ∨ Sys.WIFSIGNALED last = true).

(** The command parses, without a store outside the argument array (it
    has no quoted argument), and the search finds an executable. *)
Definition resolves (w : world) (fuel : nat) (a : args) : Prop :=
  ∃ p file_path,
    Parser.ParseCommand true true (command a) = Some (Parser.ParseOk p)
    ∧ Parser.p_stray p = []
    ∧ Resolver.resolve fuel w (Parser.file_string p) = Some (Resolver.Found file_path).

(** The state of the line splitter that a worker's variables stand for:
    the line being accumulated is either absent or not empty. *)
Definition pending_ok (buffer : text) : Prop := buffer ≠ Some [].

(** What the array holds once the loop has finished. *)
Definition finished (st : list (list ascii) * list ascii) : list (list ascii) :=
  match st.2 with
  | [] => st.1
  | _ :: _ => st.1 ++ [st.2]
  end.

(* ===================================================================== *)
(** ** Tactics for concrete inputs                                        *)
(* ===================================================================== *)

(** No byte of a literal is NUL (or a colon). *)
Ltac nul_free_tac :=
  repeat first [ apply Forall_nil_2 | apply Forall_cons_2; [discriminate|] ].
(** Every chunk has between 1 and 256 bytes. *)
Ltac chunked_tac :=
  repeat first [ apply Forall_nil_2 | apply Forall_cons_2; [simpl; lia|] ].
Ltac all_nul_free_tac :=
  repeat first [ apply Forall_nil_2 | apply Forall_cons_2; [nul_free_tac|] ].

(** A sample world is quiet. *)
Ltac quiet_sample :=
  split; simpl;
  [ reflexivity
  | repeat constructor
  | repeat (constructor; [discriminate|]); constructor
  | repeat (constructor; [discriminate|]); constructor
  | reflexivity
  | repeat constructor ].

Ltac well_bound_sample := intros []; vm_compute; discriminate.

Ltac resolves_sample :=
  eexists; eexists; split; [|split]; vm_compute; reflexivity.

(* ===================================================================== *)
(** ** Further vocabulary                                                 *)
(* ===================================================================== *)

Definition is_thread (e : event) : bool :=
  match e with EvThread _ => true | _ => false end.

(** The lines that are complete: the split without its last segment. *)
Definition complete_lines (B : list ascii) : list (list ascii) :=
  removelast (split_on NL B).

(** How a return value and the error text go together: OK and the text
    as it was, or one of the five other codes and a text. *)
Definition text_matches_status (c : caller) (r : result) : Prop :=
  (status r = SHELLSPAWN_OK ∧ c_errorText (after r) = c_errorText c)
  ∨ (1 ≤ status r ≤ 5 ∧ c_errorText (after r) ≠ None).

(** The command was parsed and the search found [file_path], which passes
    [ExeFound]. *)
Definition resolved_to (w : world) (fuel : nat) (a : args) (file_path : list ascii)
  : Prop :=
  ∃ p,
    Parser.ParseCommand (negb (fails w M18a)) (negb (fails w M18b)) (command a)
      = Some (Parser.ParseOk p)
    ∧ Resolver.resolve fuel w (Parser.file_string p) = Some (Resolver.Found file_path)
    ∧ Resolver.ExeFound w file_path = true.

(** The statuses [before] neither exited nor signaled. *)
Definition still_running (before : list Z) : Prop :=
  Forall (λ s, Sys.WIFEXITED s = false ∧ Sys.WIFSIGNALED s = false) before.

Module Sample2.

(** What the search for a missing program returns. *)
Definition not_found : result :=
  {| status := SHELLSPAWN_NOFOUND;
     after := Error U19 (clear_outputs (Sample.buffer_out (bytes "no_such_program_xyz"))
                           Sample.used_caller);
     trace := [EvPipe U10; EvPipe U11; EvPipe U17; EvCleanUp] |}.

(** stdin bound to an input callback, the rest discarded. *)
Definition callback_in (cmd : mem) : args :=
  {| command := cmd;
     aIn := false; sIn := false; fIn := true; pIn := false;
     aOut := false; sOut := false; fOut := false; pOut := false;
     aErr := false; sErr := false; fErr := false; pErr := false |}.

(** stdout bound to a line array, the rest discarded. *)
Definition lines_out (cmd : mem) : args :=
  {| command := cmd;
     aIn := false; sIn := false; fIn := false; pIn := false;
     aOut := true; sOut := false; fOut := false; pOut := false;
     aErr := false; sErr := false; fErr := false; pErr := false |}.

(** The usual system with a child that writes the given chunks. *)
Definition writing (chunks : list (list ascii)) (waits : list wait_result) : world :=
  {| fails := λ _, false; fs := Sample.bin_files;
     geteuid := 1000; getegid := 1000;
     env_PATH := Some (bytes "/usr/local/bin:/usr/bin:/bin");
     child_waits := waits;
     handoff_fails := [];
     out_reads := RdData <$> chunks; err_reads := [];
     out_stack := stack_buffer; err_stack := stack_buffer;
     in_thread_fails := false; callbacks := [] |}.

End Sample2.

(* ===================================================================== *)
(** ** The input worker: [WriteToStdin], [HandleStdinFromVector],
       [HandleInputThread]                                               *)
(* ===================================================================== *)

Module InputWorker.

(** What one [write(hInputWrite, p, count)] returns. *)
Inductive WriteResult :=
| Wrote (n : nat)        (* [n] bytes were taken *)
| WrBrokenPipe           (* -1 with errno EPIPE *)
| WrFailed.              (* -1 with another errno *)

(** The input worker's view: what the child's stdin has received, the
    results of the [write] calls still to come, [inThreadRC] with its
    error text, and whether [hInputWrite] has been closed. *)
Record in_state := {
  i_pipe : list ascii;
  i_writes : list WriteResult;
  i_error : option site;
  i_closed : bool;
}.

Definition with_pipe (p : list ascii) (ws : list WriteResult) (st : in_state) : in_state :=
  {| i_pipe := p; i_writes := ws; i_error := i_error st; i_closed := i_closed st |}.
Definition with_error (s : site) (st : in_state) : in_state :=
  {| i_pipe := i_pipe st; i_writes := i_writes st; i_error := Some s;
     i_closed := i_closed st |}.
Definition close_input (st : in_state) : in_state :=
  {| i_pipe := i_pipe st; i_writes := i_writes st; i_error := i_error st;
     i_closed := true |}.

(** [while (nTotalWrote < nBytes)] over the [nBytes] bytes [line].
    Result: the return code (0, 1 for a closed pipe, -1), what the pipe
    holds and the results left; [None] when a [write] never returns. *)
Fixpoint write_loop (writes : list WriteResult) (line : list ascii)
    (nTotalWrote : nat) (pipe : list ascii)
  : option (Z * list ascii * list WriteResult) :=
  if (nTotalWrote <? length line)%nat then
    match writes with
    | [] => None
    | Wrote n :: writes' =>
        write_loop writes' line (nTotalWrote + n)
          (pipe ++ take n (drop nTotalWrote line))
    | WrBrokenPipe :: writes' => Some (1, pipe, writes')
    | WrFailed :: writes' => Some (-1, pipe, writes')
    end
  else Some (0, pipe, writes).

(** [WriteToStdin(line, data)]; [sigmask_ok]: whether [pthread_sigmask]
    succeeds.  The error text is kept as the tag of [UIn], the site that
    stands for the input worker in [world]. *)
Definition WriteToStdin (sigmask_ok : bool) (line : mem) (st : in_state)
  : option (Z * in_state) :=
  if negb sigmask_ok then Some (-1, with_error UIn st)
  else
    match write_loop (i_writes st) (cstr line) 0 (i_pipe st) with
    | None => None
    | Some (rc, pipe, writes) =>
        let st := with_pipe pipe writes st in
        Some (rc, if rc =? -1 then with_error UIn st else st)
    end.

(** [HandleStdinFromVector]: each line, then "\n", until a write does not
    return 0. *)
Fixpoint HandleStdinFromVector (sigmask_ok : bool) (aInput : list mem)
    (st : in_state) : option in_state :=
  match aInput with
  | [] => Some st
  | line :: aInput' =>
      match WriteToStdin sigmask_ok line st with
      | None => None
      | Some (rc, st) =>
          if negb (rc =? 0) then Some st
          else match WriteToStdin sigmask_ok [NL] st with
               | None => None
               | Some (rc, st) =>
                   if negb (rc =? 0) then Some st
                   else HandleStdinFromVector sigmask_ok aInput' st
               end
      end
  end.

(** [HandleInputThread] for the bindings that need no callback: a line
    array, a string, or nothing; then the write end is closed. *)
Definition HandleInputThread (sigmask_ok : bool) (aInput : option (list mem))
    (sInput : option mem) (st : in_state) : option in_state :=
  match aInput with
  | Some lines => close_input <$> HandleStdinFromVector sigmask_ok lines st
  | None =>
      match sInput with
      | Some s => (λ r, close_input r.2) <$> WriteToStdin sigmask_ok s st
      | None => Some (close_input st)
      end
  end.

(** What a Lines input binding is meant to deliver. *)
Definition lines_text (aInput : list mem) : list ascii :=
  concat ((λ line, cstr line ++ [NL]) <$> aInput).

(** Every [write] takes at least one byte. *)
Definition all_progress (writes : list WriteResult) : Prop :=
  Forall (λ r, ∃ n, r = Wrote (S n)) writes.

Definition fresh (writes : list WriteResult) : in_state :=
  {| i_pipe := []; i_writes := writes; i_error := None; i_closed := false |}.

End InputWorker.


(* ===================================================================== *)
(** ** Commands without quotes                                           *)
(* ===================================================================== *)

Definition no_quotes (s : list ascii) : Prop :=
  Forall (λ c, c ≠ DQUOTE ∧ c ≠ SQUOTE) s.

(** The program token: what follows the leading spaces, up to the next
    space. *)
Definition program_token (command : list ascii) : list ascii :=
  let rest := drop (Parser.advance Parser.not_space command) command in
  take (Parser.advance (Parser.is_char SPACE) rest) rest.

(** A scan stops at the end of the region, at a NUL, or at a byte of the
    kind it looks for. *)
Definition stops (stop : ascii → bool) (r : mem) : Prop :=
  match r with
  | [] => True
  | c :: _ => is_nul c = true ∨ stop c = true
  end.

(** The bytes a scan steps over. *)
Definition passes (stop : ascii → bool) (t : list ascii) : Prop :=
  Forall (λ c, is_nul c = false ∧ stop c = false) t.

Definition clean (body : list ascii) : Prop := nul_free body ∧ no_quotes body.

Ltac len := repeat (rewrite length_app || (progress cbn [length])); lia.

Ltac reassoc :=
  repeat (rewrite <- app_assoc || rewrite <- app_comm_cons); try reflexivity.

(* ===================================================================== *)
(** ** Callbacks: the buffer the workers share with the caller's thread   *)
(* ===================================================================== *)

Module Marshal.
Import InputWorker.

(** A worker holds [criticalsection] from before it posts a request until
    the caller's thread has served it, so requests are served one at a
    time; the order in which the workers get the lock is given.  The
    [pthread] calls are taken to succeed. *)
Inductive request :=
| ReqOutput (err : bool) (chunk : list ascii)
    (* [HandleOutputToCallback], for stderr or stdout, has read [chunk] *)
| ReqInput (answer : text) (rc : Z) (sigmask_ok proxy_ok : bool).
    (* the proxy asks for input; the INHANDLER will store [answer] through
       its first argument (nothing, if [None]) and return [rc]; whether
       [pthread_sigmask] and the [write(proxySend)] that follows succeed *)

Record m_state := {
  callbackBuffer : text;                 (* [data->callbackBuffer] *)
  calls : list (bool * text);            (* the OUTHANDLER calls so far *)
  out_lp : mem;                          (* [lpBuffer] of the stdout worker *)
  err_lp : mem;                          (* [lpBuffer] of the stderr worker *)
  m_in : in_state;                       (* the child's stdin *)
  in_returned : bool;                    (* [HandleInputThread] is over *)
}.

(** One round of [HandleOutputToCallback] after a [read] of [chunk],
    with [HandleCallback], case 2, in the middle. *)
Definition serve_output (err : bool) (chunk : list ascii) (st : m_state) : m_state :=
  let lp := if err then err_lp st else out_lp st in
  (* lpBuffer[nBytesRead] = 0; appendTextOutput(&callbackBuffer, lpBuffer) *)
  let '(lp, buffer) := OutputWorker.string_body true chunk lp (callbackBuffer st) in
  (* the caller's thread: outFunc(callbackBuffer, context); free *)
  {| callbackBuffer := None;
     calls := calls st ++ [(err, buffer)];
     out_lp := if err then out_lp st else lp;
     err_lp := if err then lp else err_lp st;
     m_in := m_in st;
     in_returned := in_returned st |}.

(** [HandleInputThread] ends: the write end is closed. *)
Definition input_over (buffer : text) (i : in_state) (st : m_state) : m_state :=
  {| callbackBuffer := buffer; calls := calls st;
     out_lp := out_lp st; err_lp := err_lp st;
     m_in := close_input i; in_returned := true |}.

(** One round of [HandleStdinFromCallback], with [HandleCallback], case
    1, in the middle.  [None]: no result, because a [write] never returns
    or because [strlen] is applied to NULL. *)
Definition serve_input (answer : text) (rc : Z) (sigmask_ok proxy_ok : bool)
    (st : m_state) : option m_state :=
  if in_returned st then Some st         (* nobody is left to ask *)
  else
    (* the caller's thread: free(callbackBuffer);
       callbackRC = inFunc(&callbackBuffer, context) *)
    let buffer := answer in
    if negb (rc =? 0) then
      (* 'C' to the proxy, then return; the buffer stays *)
      Some (input_over buffer
              (if proxy_ok then m_in st else with_error UIn (m_in st)) st)
    else
      match buffer with
      | None => None
      | Some line =>
          match WriteToStdin sigmask_ok line (m_in st) with
          | None => None
          | Some (wrc, i) =>
              (* free(callbackBuffer) on both paths *)
              if negb (wrc =? 0) then Some (input_over None i st)
              else if proxy_ok then                     (* 'X' to the proxy *)
                Some {| callbackBuffer := None; calls := calls st;
                        out_lp := out_lp st; err_lp := err_lp st;
                        m_in := i; in_returned := false |}
              else Some (input_over None (with_error UIn i) st)
          end
      end.

Definition serve (r : request) (st : m_state) : option m_state :=
  match r with
  | ReqOutput err chunk => Some (serve_output err chunk st)
  | ReqInput answer rc sigmask_ok proxy_ok =>
      serve_input answer rc sigmask_ok proxy_ok st
  end.

Fixpoint serve_all (requests : list request) (st : m_state) : option m_state :=
  match requests with
  | [] => Some st
  | r :: requests' =>
      match serve r st with
      | None => None
      | Some st => serve_all requests' st
      end
  end.

(** The chunks handed to the output handlers, in order. *)
Definition output_chunks (requests : list request) : list (bool * text) :=
  omap (λ r, match r with
             | ReqOutput err chunk => Some (err, Some (cstr chunk))
             | ReqInput _ _ _ _ => None
             end) requests.

(** The input handler closes the input and leaves a string behind. *)
Definition closes_with_text (r : request) : Prop :=
  match r with
  | ReqInput (Some _) rc _ _ => rc ≠ 0
  | _ => False
  end.

(** Reads of 1 to 256 bytes. *)
Definition sized (r : request) : Prop :=
  match r with
  | ReqOutput _ chunk => (0 < length chunk ≤ 256)%nat
  | ReqInput _ _ _ _ => True
  end.

(** The stack buffers hold their 257 bytes. *)
Definition roomy (st : m_state) : Prop :=
  (256 < length (out_lp st))%nat ∧ (256 < length (err_lp st))%nat.

Definition start (writes : list WriteResult) : m_state :=
  {| callbackBuffer := None; calls := [];
     out_lp := stack_buffer; err_lp := stack_buffer;
     m_in := fresh writes; in_returned := false |}.

End Marshal.

(* ===================================================================== *)
(** ** The test programs: [readline] and [InHandle2] (shelltest.c)        *)
(* ===================================================================== *)

Module Harness.

(** [size_t] is 64 bits wide. *)
Definition wrap (z : Z) : Z := z mod 2 ^ 64.

Inductive rl_result :=
| RlNull                  (* NULL: [malloc] or [realloc] failed *)
| RlFault                 (* a store outside the allocation *)
| RlLine (line : list ascii) (lenmax : Z) (rest : list ascii).
    (* [linep]: [line] and a NUL at the start of [lenmax] allocated bytes;
       what is left of stdin *)

(** [*line = '\0'; return linep;] *)
Definition terminate (stored : list ascii) (lenmax : Z) (rest : list ascii)
  : rl_result :=
  if Z.of_nat (length stored) <? lenmax then RlLine stored lenmax rest
  else RlFault.

(** The [for(;;)] loop; the end of [stdin] is EOF.  [stored] are the
    bytes between [linep] and [line]. *)
Fixpoint readline_loop (realloc_ok : Z → bool) (stdin : list ascii)
    (stored : list ascii) (len lenmax : Z) : rl_result :=
  match stdin with
  | [] => terminate stored lenmax []
  | c :: stdin' =>
      let '(len, lenmax, ok) :=
        if wrap (len - 1) =? 0
        then (wrap (lenmax - 2), wrap (lenmax * 2), realloc_ok (wrap (lenmax * 2)))
        else (wrap (len - 1), lenmax, true) in
      if negb ok then RlNull
      else if Ascii.eqb c NL then terminate stored lenmax stdin'
      else if Z.of_nat (length stored) <? lenmax
           then readline_loop realloc_ok stdin' (stored ++ [c]) len lenmax
           else RlFault
  end.

Definition readline (malloc_ok : bool) (realloc_ok : Z → bool)
    (stdin : list ascii) : rl_result :=
  if negb malloc_ok then RlNull
  else readline_loop realloc_ok stdin [] (wrap (100 - 2)) 100.

(** What the loop maintains: [len] counts down to the next [realloc],
    and the allocation has room for the bytes stored, the NUL and one
    byte more. *)
Definition rl_inv (stored : list ascii) (len lenmax : Z) : Prop :=
  let n := Z.of_nat (length stored) in
  1 ≤ len ∧ n + len + 2 ≤ lenmax ∧ lenmax ≤ 3 * n + len + 2 ∧ len ≤ 3 * n + 98.

(** [InHandle2]: what it stores in [*data], what it returns, and what is
    left of stdin; [None] when [strcmp] gets NULL or [strcat] writes
    outside the allocation. *)
Definition InHandle2 (malloc_ok : bool) (realloc_ok : Z → bool)
    (stdin : list ascii) : option (text * Z * list ascii) :=
  match readline malloc_ok realloc_ok stdin with
  | RlNull | RlFault => None
  | RlLine line lenmax rest =>
      if bool_decide (cstr line = bytes "quit") then Some (Some (cstr line), 1, rest)
      else if Z.of_nat (length (cstr line)) + 2 <=? lenmax
           then Some (Some (cstr line ++ [NL]), 0, rest)
           else None
  end.

End Harness.

(* ===================================================================== *)
(** ** [buffer_size] (scratch.c)                                          *)
(* ===================================================================== *)

Module Scratch.

(** [for (i = ...; i < sizeof(size_t); i *= 2) value |= value >> i;]
    with [sizeof(size_t)] = 8; at most [rounds] rounds. *)
Fixpoint smear (rounds : nat) (i value : Z) : Z :=
  match rounds with
  | O => value
  | S rounds' =>
      if i <? 8 then smear rounds' (Harness.wrap (i * 2)) (Z.lor value (Z.shiftr value i))
      else value
  end.

Definition buffer_size (value : Z) : Z :=
  if value <=? 32 then 32
  else
    let value := Harness.wrap (value - 1) in
    let value := smear 8 1 value in
    Harness.wrap (value + 1).

End Scratch.

Module Sample3.

(** PATH is the single directory [/usr/bin]; [ls] is in the root
    directory only. *)
Definition ls_in_root : world :=
  Sample.quiet_world {[ "/ls"%string := Sample.exe_stat;
                        "/usr/bin"%string := Sample.dir_stat;
                        "/"%string := Sample.dir_stat ]}
                     (Some (bytes "/usr/bin")) [WaitStatus (Sys.exited 0)].

(** A session with output, a line of input, and output again. *)
Definition session : list Marshal.request :=
  [Marshal.ReqOutput false (bytes "What is your name?" ++ [NL]);
   Marshal.ReqInput (Some (bytes "Bob" ++ [NL])) 0 true true;
   Marshal.ReqOutput true (bytes "warning");
   Marshal.ReqOutput false Sample.nul_inside;
   Marshal.ReqInput None 1 true true].

(** Two hundred bytes, a newline, and more. *)
Definition long_line : list ascii :=
  replicate 200 "a"%char ++ NL :: bytes "next".

End Sample3.

(** Two callers that differ at most in what the holders bound for this
    call hold. *)
Definition agree_outside (a : args) (c c' : caller) : Prop :=
  c_rc c = c_rc c' ∧ c_errorText c = c_errorText c'
  ∧ (aOut a = false → c_aOut c = c_aOut c')
  ∧ (sOut a = false → c_sOut c = c_sOut c')
  ∧ (aErr a = false → c_aErr c = c_aErr c')
  ∧ (sErr a = false → c_sErr c = c_sErr c').

(* ===================================================================== *)
(** ** The workers on small inputs                                        *)
(* ===================================================================== *)

Example string_worker_hello :
  OutputWorker.s_out
    (OutputWorker.HandleOutputToString
       [RdData (bytes "hel"); RdData (bytes "lo")] true stack_buffer None)
  = Some (bytes "hello").
Proof. reflexivity. Qed.

Example vector_worker_lines :
  lines_of (OutputWorker.r_aOut
    (OutputWorker.HandleOutputToVector
       [RdData [ "o"; "n"; NL; "t" ]%char; RdData [ "w"; "o"; NL; NL ]%char;
        RdData (bytes "x")]
       stack_buffer None))
  = [bytes "on"; bytes "two"; []; bytes "x"].
Proof. reflexivity. Qed.

(* ===================================================================== *)
(** ** Splitting into lines                                               *)
(* ===================================================================== *)

Section SplitFacts.

Lemma split_on_nonempty sep B : split_on sep B ≠ [].
Proof.
  destruct B as [|c B]; simpl; [done|].
  destruct (Ascii.eqb c sep); [done|].
  destruct (split_on sep B); done.
Qed.

Lemma feed_app st B1 B2 : feed st (B1 ++ B2) = feed (feed st B1) B2.
Proof. unfold feed. apply foldl_app. Qed.

Lemma feed_cons st c B : feed st (c :: B) = feed (feed1 st c) B.
Proof. reflexivity. Qed.

Lemma feed_split B : ∀ d cur,
  (feed (d, cur) B).1 ++ [(feed (d, cur) B).2]
  = d ++ match split_on NL B with
         | seg :: segs => (cur ++ seg) :: segs
         | [] => [cur]
         end.
Proof.
  induction B as [|c B IH]; intros d cur.
  - simpl. by rewrite app_nil_r.
  - rewrite feed_cons. unfold feed1. cbn [split_on fst snd].
    pose proof (split_on_nonempty NL B) as Hne.
    destruct (Ascii.eqb c NL) eqn:E; rewrite IH.
    + rewrite <- app_assoc. simpl.
      destruct (split_on NL B); [done|]. by rewrite app_nil_r.
    + destruct (split_on NL B); [done|].
      by rewrite <- app_assoc.
Qed.

Lemma split_on_feed B :
  split_on NL B = (feed ([], []) B).1 ++ [(feed ([], []) B).2].
Proof.
  rewrite feed_split. simpl.
  pose proof (split_on_nonempty NL B). destruct (split_on NL B); done.
Qed.

Lemma removelast_snoc {A} (l : list A) x : removelast (l ++ [x]) = l.
Proof. rewrite removelast_app by done. simpl. apply app_nil_r. Qed.

Lemma lines_spec_feed B :
  lines_spec B =
    match (feed ([], []) B).2 with
    | [] => (feed ([], []) B).1
    | _ :: _ => (feed ([], []) B).1 ++ [(feed ([], []) B).2]
    end.
Proof.
  unfold lines_spec. rewrite split_on_feed.
  rewrite last_snoc.
  destruct (feed ([], []) B).2; [|done].
  apply removelast_snoc.
Qed.

(** Feeding a newline-free fragment only extends the current line. *)
Lemma feed_no_newline seg : ∀ d cur,
  Forall (λ c, c ≠ NL) seg → feed (d, cur) seg = (d, cur ++ seg).
Proof.
  induction seg as [|c seg IH]; intros d cur H.
  - simpl. by rewrite app_nil_r.
  - inversion H; subst. rewrite feed_cons. unfold feed1; cbn [fst snd].
    destruct (Ascii.eqb_spec c NL); [done|].
    rewrite IH by done. by rewrite <- app_assoc.
Qed.

End SplitFacts.


(* ===================================================================== *)
(** ** C strings and the stack buffer                                    *)
(* ===================================================================== *)

Section CStrFacts.

Lemma cstr_terminated (s rest : list ascii) :
  nul_free s → cstr (s ++ NUL :: rest) = s.
Proof.
  induction 1 as [|c s Hc _ IH]; simpl; [done|].
  unfold is_nul. destruct (Ascii.eqb_spec c NUL); [done|]. by rewrite IH.
Qed.

Lemma cstr_nul_free (p : mem) : nul_free (cstr p).
Proof.
  induction p as [|c p IH]; simpl; [constructor|].
  unfold is_nul. destruct (Ascii.eqb_spec c NUL); constructor; done.
Qed.

(** Storing the terminator right behind a chunk that was just read. *)
Lemma terminate_chunk (chunk lpBuffer : mem) :
  (length chunk < length lpBuffer)%nat →
  <[length chunk := NUL]> (read_into lpBuffer chunk)
  = chunk ++ NUL :: drop (S (length chunk)) lpBuffer.
Proof.
  intros Hlen. unfold read_into.
  rewrite insert_app_r_alt by lia. rewrite Nat.sub_diag.
  destruct (drop (length chunk) lpBuffer) as [|x xs] eqn:E.
  - apply (f_equal length) in E. rewrite length_drop in E. simpl in E. lia.
  - simpl. do 2 f_equal.
    change xs with (drop 1 (x :: xs)). rewrite <- E, drop_drop. f_equal. lia.
Qed.

Lemma length_terminate_chunk (chunk lpBuffer : mem) :
  (length chunk < length lpBuffer)%nat →
  length (<[length chunk := NUL]> (read_into lpBuffer chunk)) = length lpBuffer.
Proof.
  intros Hlen. rewrite length_insert. unfold read_into.
  rewrite length_app, length_drop. lia.
Qed.

End CStrFacts.

(* ===================================================================== *)
(** ** [HandleOutputToString]                                            *)
(* ===================================================================== *)

Section StringWorker.

Import OutputWorker.

Lemma string_body_collects (chunk lpBuffer : mem) (sOut : text) :
  (length chunk < length lpBuffer)%nat → nul_free chunk →
  (string_body true chunk lpBuffer sOut).2 = Some (default [] sOut ++ chunk)
  ∧ length (string_body true chunk lpBuffer sOut).1 = length lpBuffer.
Proof.
  intros Hlen Hnf. unfold string_body. cbn [fst snd]. split.
  - rewrite terminate_chunk by done. unfold appendTextOutput.
    rewrite cstr_terminated by done. by destruct sOut.
  - by apply length_terminate_chunk.
Qed.

Lemma HandleOutputToString_collects (chunks : list (list ascii)) :
  ∀ (lpBuffer : mem) (sOut : text),
    length lpBuffer = 257%nat →
    well_chunked chunks →
    Forall nul_free chunks →
    let r := HandleOutputToString (RdData <$> chunks) true lpBuffer sOut in
    s_out r = Some (default [] sOut ++ concat chunks) ∧ s_error r = false.
Proof.
  induction chunks as [|chunk chunks IH]; intros lpBuffer sOut Hlen Hwc Hnf.
  - cbn [fmap list_fmap HandleOutputToString].
    destruct (string_body_collects [] lpBuffer sOut) as [Ho _];
      [simpl; lia | constructor |].
    destruct (string_body true [] lpBuffer sOut) as [b o]. simpl in *.
    by subst o.
  - inversion Hwc as [|? ? Hc Hwc']; inversion Hnf as [|? ? Hn Hnf']; subst.
    cbn [fmap list_fmap HandleOutputToString].
    destruct (string_body_collects chunk lpBuffer sOut) as [Ho Hl];
      [lia | done |].
    destruct (string_body true chunk lpBuffer sOut) as [b o]. simpl in Ho, Hl.
    destruct chunk as [|x chunk]; [simpl in Hc; lia|].
    fold (list_fmap _ _ RdData chunks).
    destruct (IH b o) as [Hs He]; [lia | done | done |].
    split; [|exact He].
    cbn zeta in Hs. rewrite Hs, Ho. simpl. by rewrite <- app_assoc.
Qed.

End StringWorker.

(* ===================================================================== *)
(** ** [HandleOutputToVector]                                            *)
(* ===================================================================== *)

Section VectorWorker.

Import OutputWorker.

Lemma at_middle (pre post : mem) (c : ascii) :
  at_ (pre ++ c :: post) (length pre) = c.
Proof. unfold at_. by rewrite list_lookup_middle. Qed.

Lemma lines_of_append (aOut : textarray) (line : list ascii) :
  lines_of (appendTextArray aOut line) = lines_of aOut ++ [line].
Proof. by destruct aOut. Qed.

Lemma appendTextOutput_terminated (buffer : text) (seg rest : mem) :
  nul_free seg →
  appendTextOutput buffer (seg ++ NUL :: rest) = Some (default [] buffer ++ seg).
Proof.
  intros H. unfold appendTextOutput. rewrite cstr_terminated by done.
  by destruct buffer.
Qed.

(** The [for] loop over the part [post] of the chunk that is still to be
    examined; [pre] has been cut into lines already and [seg] is the part
    of the current line that lies in this chunk. *)
Lemma vector_for_feeds (post : mem) :
  ∀ (pre seg rest lp : mem) (i start : nat) (buffer : text) (aOut : textarray),
    lp = pre ++ seg ++ post ++ rest →
    i = (length pre + length seg)%nat →
    start = length pre →
    nul_free seg → nul_free post →
    Forall (λ c, c ≠ NL) seg →
    ∃ (pre' segf : mem) (bufferf : text) (aOutf : textarray),
      vector_for (length post) i
        {| v_lpBuffer := lp; v_start := start; v_buffer := buffer; v_aOut := aOut |}
      = {| v_lpBuffer := pre' ++ segf ++ rest; v_start := length pre';
           v_buffer := bufferf; v_aOut := aOutf |}
      ∧ (length pre' + length segf = length pre + length seg + length post)%nat
      ∧ nul_free segf
      ∧ (pending_ok buffer → pending_ok bufferf)
      ∧ feed (lines_of aOut, default [] buffer ++ seg) post
        = (lines_of aOutf, default [] bufferf ++ segf).
Proof.
  induction post as [|c post IH];
    intros pre seg rest lp i start buffer aOut -> -> -> Hseg Hpost Hnl.
  - exists pre, seg, buffer, aOut. simpl. rewrite Nat.add_0_r.
    repeat split; done.
  - inversion Hpost as [|? ? Hc Hpost']; subst.
    cbn [length vector_for]. unfold vector_step. cbn [v_lpBuffer v_start v_buffer v_aOut].
    assert (Hat : at_ (pre ++ seg ++ (c :: post) ++ rest) (length pre + length seg) = c).
    { rewrite app_assoc, <- length_app. simpl. apply at_middle. }
    rewrite Hat. rewrite feed_cons. unfold feed1. cbn [fst snd].
    destruct (Ascii.eqb_spec c NL) as [->|Hne].
    + assert (Hins : <[(length pre + length seg)%nat := NUL]> (pre ++ seg ++ (NL :: post) ++ rest)
                     = pre ++ seg ++ NUL :: post ++ rest).
      { rewrite insert_app_r_alt by lia.
        rewrite insert_app_r_alt by lia.
        replace (length pre + length seg - length pre - length seg)%nat with 0%nat by lia.
        done. }
      rewrite Hins. rewrite drop_app_length.
      rewrite appendTextOutput_terminated by done. cbn [default].
      destruct (IH (pre ++ seg ++ [NUL]) [] rest
                  (pre ++ seg ++ NUL :: post ++ rest)
                  (S (length pre + length seg)) (S (length pre + length seg))
                  None (appendTextArray aOut (default [] buffer ++ seg)))
        as (pre' & segf & bufferf & aOutf & Hrun & Hlen & Hnf & Hok & Hfeed).
      { rewrite <- !app_assoc. done. }
      { rewrite !length_app. simpl. lia. }
      { rewrite !length_app. simpl. lia. }
      { constructor. } { done. } { constructor. }
      exists pre', segf, bufferf, aOutf. repeat split.
      * exact Hrun.
      * rewrite Hlen, !length_app. simpl. lia.
      * exact Hnf.
      * intros _. apply Hok. done.
      * rewrite <- Hfeed. by rewrite lines_of_append.
    + destruct (IH pre (seg ++ [c]) rest
                  (pre ++ seg ++ (c :: post) ++ rest)
                  (S (length pre + length seg)) (length pre) buffer aOut)
        as (pre' & segf & bufferf & aOutf & Hrun & Hlen & Hnf & Hok & Hfeed).
      { rewrite <- !app_assoc. done. }
      { rewrite !length_app. simpl. lia. }
      { done. }
      { apply Forall_app; split; [done|]. by constructor. }
      { done. }
      { apply Forall_app; split; [done|]. by constructor. }
      exists pre', segf, bufferf, aOutf. repeat split.
      * exact Hrun.
      * rewrite Hlen, !length_app. simpl. lia.
      * exact Hnf.
      * exact Hok.
      * rewrite <- Hfeed. by rewrite <- app_assoc.
Qed.

(** One pass of the [while] loop over a chunk feeds the chunk to the line
    splitter. *)
Lemma vector_body_feeds (chunk lpBuffer : mem) (buffer : text) (aOut : textarray) :
  (length chunk < length lpBuffer)%nat → nul_free chunk → pending_ok buffer →
  let st := vector_body chunk lpBuffer buffer aOut in
  feed (lines_of aOut, default [] buffer) chunk
    = (lines_of (v_aOut st), default [] (v_buffer st))
  ∧ pending_ok (v_buffer st)
  ∧ length (v_lpBuffer st) = length lpBuffer.
Proof.
  intros Hlen Hnf Hok. unfold vector_body.
  assert (Hrest : ∃ x rest, drop (length chunk) lpBuffer = x :: rest).
  { destruct (drop (length chunk) lpBuffer) as [|x rest] eqn:E; [|eauto].
    apply (f_equal length) in E. rewrite length_drop in E. simpl in E. lia. }
  destruct Hrest as (x & rest & Hrest).
  assert (Hl : length lpBuffer = (length chunk + S (length rest))%nat).
  { apply (f_equal length) in Hrest. rewrite length_drop in Hrest. simpl in Hrest. lia. }
  destruct (vector_for_feeds chunk [] [] (x :: rest) (read_into lpBuffer chunk)
              0 0 buffer aOut)
    as (pre' & segf & bufferf & aOutf & Hrun & Hlen' & Hsegf & Hok' & Hfeed);
    [ unfold read_into; by rewrite Hrest | done | done | constructor | done
    | constructor | ].
  rewrite Hrun. cbn [v_start v_lpBuffer v_buffer v_aOut].
  rewrite app_nil_r in Hfeed. simpl in Hlen'.
  destruct (Nat.ltb_spec (length pre') (length chunk)) as [Hlt|Hge].
  - cbn [v_start v_lpBuffer v_buffer v_aOut].
    assert (Hins : <[length chunk := NUL]> (pre' ++ segf ++ x :: rest)
                   = pre' ++ segf ++ NUL :: rest).
    { rewrite insert_app_r_alt by lia. rewrite insert_app_r_alt by lia.
      replace (length chunk - length pre' - length segf)%nat with 0%nat by lia.
      done. }
    rewrite Hins, drop_app_length.
    rewrite appendTextOutput_terminated by done. cbn [default].
    split; [exact Hfeed|]. split.
    + unfold pending_ok. intros [= Heq].
      apply (f_equal length) in Heq. rewrite length_app in Heq. simpl in Heq. lia.
    + rewrite !length_app. simpl. lia.
  - assert (segf = []) as -> by (destruct segf; [done | simpl in Hlen'; lia]).
    rewrite app_nil_r in Hfeed. cbn [v_start v_lpBuffer v_buffer v_aOut].
    split; [exact Hfeed|]. split; [by apply Hok'|].
    rewrite !length_app. simpl. lia.
Qed.

Lemma vector_finish_lines (st : VState) :
  pending_ok (v_buffer st) →
  lines_of (r_aOut (vector_finish st))
    = finished (lines_of (v_aOut st), default [] (v_buffer st))
  ∧ r_error (vector_finish st) = false.
Proof.
  intros Hok. unfold vector_finish, finished.
  destruct (v_buffer st) as [[|c line]|]; cbn [fst snd default r_aOut r_error].
  - by destruct Hok.
  - by rewrite lines_of_append.
  - done.
Qed.

Lemma vector_loop_lines (chunks : list (list ascii)) :
  ∀ (lpBuffer : mem) (buffer : text) (aOut : textarray),
    length lpBuffer = 257%nat →
    well_chunked chunks →
    Forall nul_free chunks →
    pending_ok buffer →
    let r := vector_loop (RdData <$> chunks) lpBuffer buffer aOut in
    lines_of (r_aOut r)
      = finished (feed (lines_of aOut, default [] buffer) (concat chunks))
    ∧ r_error r = false.
Proof.
  induction chunks as [|chunk chunks IH]; intros lpBuffer buffer aOut Hlen Hwc Hnf Hok.
  - cbn [fmap list_fmap vector_loop concat].
    destruct (vector_body_feeds [] lpBuffer buffer aOut) as (Hf & Hok' & _);
      [simpl; lia | constructor | done |].
    cbn zeta in Hf, Hok'. rewrite Hf.
    by apply vector_finish_lines.
  - inversion Hwc as [|? ? Hc Hwc']; inversion Hnf as [|? ? Hn Hnf']; subst.
    cbn [fmap list_fmap vector_loop concat].
    destruct (vector_body_feeds chunk lpBuffer buffer aOut) as (Hf & Hok' & Hl);
      [lia | done | done |].
    cbn zeta in Hf, Hok', Hl.
    destruct chunk as [|x chunk]; [simpl in Hc; lia|].
    fold (list_fmap _ _ RdData chunks).
    rewrite feed_app, Hf.
    apply IH; [lia | done | done | done].
Qed.

End VectorWorker.

(** The three shapes of [B]: empty, ending in a newline, ending in some
    other byte. *)
Lemma lines_spec_empty : lines_spec [] = [].
Proof. reflexivity. Qed.

Lemma lines_spec_newline_end (B : list ascii) :
  lines_spec (B ++ [NL]) = removelast (split_on NL (B ++ [NL]))
  ∧ last (split_on NL (B ++ [NL])) = Some [].
Proof.
  unfold lines_spec. rewrite split_on_feed, feed_app, last_snoc.
  destruct (feed ([], []) B) as [d cur]. done.
Qed.

Lemma lines_spec_fragment_end (B : list ascii) (c : ascii) :
  c ≠ NL →
  lines_spec (B ++ [c]) = split_on NL (B ++ [c])
  ∧ ∃ fragment, last (split_on NL (B ++ [c])) = Some (fragment ++ [c]).
Proof.
  intros Hc. unfold lines_spec. rewrite split_on_feed, feed_app, last_snoc.
  destruct (feed ([], []) B) as [d cur]. simpl. unfold feed1. simpl.
  destruct (Ascii.eqb_spec c NL); [done|]. simpl.
  split; [|by exists cur].
  by destruct cur.
Qed.

(* ===================================================================== *)
(** ** C3 and C4: what the Buffer and Lines bindings collect              *)
(* ===================================================================== *)

(** C3, as stated, does not hold: a child that writes the three bytes
    'a', NUL, 'b' in one read leaves only "a" in the Buffer holder. *)
Lemma C3_counterexample :
  well_chunked [Sample.nul_inside]
  ∧ OutputWorker.s_out
      (OutputWorker.HandleOutputToString
         [RdData Sample.nul_inside] true stack_buffer None)
    = Some ["a"%char]
  ∧ OutputWorker.s_out
      (OutputWorker.HandleOutputToString
         [RdData Sample.nul_inside] true stack_buffer None)
    ≠ Some Sample.nul_inside.
Proof. split; [chunked_tac | split; [reflexivity | discriminate]]. Qed.

(** C3 (amended): for every byte sequence B without a zero byte written by
    the child to stdout, the Buffer binding collects exactly B, however the
    reads chunk B (chunks of 1 to 256 bytes, then end of file), and the
    worker records no error. *)
Theorem C3_buffer_collects_exactly (chunks : list (list ascii)) (lpBuffer : mem) :
  length lpBuffer = 257%nat →
  well_chunked chunks →
  Forall nul_free chunks →
  OutputWorker.s_out
    (OutputWorker.HandleOutputToString (RdData <$> chunks) true lpBuffer None)
  = Some (concat chunks)
  ∧ OutputWorker.s_error
      (OutputWorker.HandleOutputToString (RdData <$> chunks) true lpBuffer None)
    = false.
Proof.
  intros Hlen Hwc Hnf.
  exact (HandleOutputToString_collects chunks lpBuffer None Hlen Hwc Hnf).
Qed.

Lemma C3_witness :
  OutputWorker.s_out
    (OutputWorker.HandleOutputToString
       (RdData <$> [bytes "hel"; bytes "lo wor"; bytes "ld"]) true stack_buffer None)
  = Some (bytes "hello world").
Proof.
  apply (C3_buffer_collects_exactly [bytes "hel"; bytes "lo wor"; bytes "ld"] stack_buffer).
  - reflexivity.
  - chunked_tac.
  - all_nul_free_tac.
Defined.

(** C4, as stated, does not hold: a child that writes 'a', NUL, 'b', '\n'
    gets the single line "a", not the line of three bytes that splitting
    on '\n' gives. *)
Lemma C4_counterexample :
  well_chunked [Sample.nul_line]
  ∧ lines_spec Sample.nul_line = [["a"%char; NUL; "b"%char]]
  ∧ lines_of (OutputWorker.r_aOut
                (OutputWorker.HandleOutputToVector
                   [RdData Sample.nul_line] stack_buffer None))
    = [["a"%char]]
  ∧ lines_of (OutputWorker.r_aOut
                (OutputWorker.HandleOutputToVector
                   [RdData Sample.nul_line] stack_buffer None))
    ≠ lines_spec Sample.nul_line.
Proof.
  split; [chunked_tac|]. split; [reflexivity|]. split; [reflexivity|]. discriminate.
Qed.

(** C4 (amended): for every byte sequence B without a zero byte written by
    the child to stdout under a Lines binding, the collected array is B
    split on '\n', newlines removed, without the split's last segment when
    that segment is empty; this holds however the reads chunk B, and the
    worker records no error.  ([lines_spec_empty], [lines_spec_newline_end]
    and [lines_spec_fragment_end] spell out the three cases: nothing for an
    empty B, no empty last line when B ends in '\n', and the unterminated
    final fragment as the last line otherwise.) *)
Theorem C4_lines_collects_split (chunks : list (list ascii)) (lpBuffer : mem) :
  length lpBuffer = 257%nat →
  well_chunked chunks →
  Forall nul_free chunks →
  lines_of (OutputWorker.r_aOut
              (OutputWorker.HandleOutputToVector (RdData <$> chunks) lpBuffer None))
  = lines_spec (concat chunks)
  ∧ OutputWorker.r_error
      (OutputWorker.HandleOutputToVector (RdData <$> chunks) lpBuffer None)
    = false.
Proof.
  intros Hlen Hwc Hnf. unfold OutputWorker.HandleOutputToVector.
  destruct (vector_loop_lines chunks lpBuffer None None Hlen Hwc Hnf) as [Hl He];
    [done|].
  split; [|exact He].
  cbn zeta in Hl. rewrite Hl. by rewrite lines_spec_feed.
Qed.

Lemma C4_witness :
  lines_of (OutputWorker.r_aOut
              (OutputWorker.HandleOutputToVector
                 (RdData <$> [bytes "on"; [ "e"%char; NL; "t"%char ]; bytes "wo"; [NL; NL]; bytes "x"])
                 stack_buffer None))
  = [bytes "one"; bytes "two"; []; bytes "x"].
Proof.
  apply (C4_lines_collects_split
           [bytes "on"; [ "e"%char; NL; "t"%char ]; bytes "wo"; [NL; NL]; bytes "x"]
           stack_buffer).
  - reflexivity.
  - chunked_tac.
  - all_nul_free_tac.
Defined.

(* ===================================================================== *)
(** ** The PATH search                                                   *)
(* ===================================================================== *)

Section PathSearch.

Import Resolver.

Variable w : world.
Variable name : list ascii.

Lemma path_search_S (fuel : nat) (env : mem) :
  path_search (S fuel) w env name
  = if Ascii.eqb (at_ env 0) COLON then Some NotFound
    else if ExeFound w ((copy_component env).1 ++ [SLASH] ++ name)
         then Some (Found ((copy_component env).1 ++ [SLASH] ++ name))
         else path_search fuel w (copy_component env).2 name.
Proof. simpl. by destruct (copy_component env). Qed.

Lemma path_search_O (env : mem) :
  path_search 0 w env name
  = if Ascii.eqb (at_ env 0) COLON then Some NotFound else None.
Proof. reflexivity. Qed.

(** Once [env] points at the terminating NUL the loop tries "/name" over
    and over. *)
Lemma path_search_at_end (env : mem) :
  at_ env 0 = NUL →
  ExeFound w ([SLASH] ++ name) = false →
  ∀ fuel, path_search fuel w env name = None.
Proof.
  intros Hend Hroot fuel. induction fuel as [|fuel IH].
  - rewrite path_search_O, Hend. done.
  - rewrite path_search_S, Hend.
    assert (copy_component env = ([], env)) as ->.
    { destruct env as [|c env]; [done|]. unfold at_ in Hend. simpl in Hend.
      subst c. done. }
    cbn [fst snd]. rewrite app_nil_l, Hroot. exact IH.
Qed.

(** A component that is not followed by a colon leaves [env] at the NUL. *)
Lemma copy_component_no_colon (env : mem) :
  Forall (λ c, c ≠ COLON) env →
  (copy_component env).1 = cstr env ∧ at_ (copy_component env).2 0 = NUL.
Proof.
  induction 1 as [|c env Hc _ [IH1 IH2]]; [done|].
  simpl. destruct (is_nul c) eqn:En.
  - split; [done|]. unfold at_. simpl. unfold is_nul in En.
    by apply Ascii.eqb_eq in En.
  - destruct (Ascii.eqb_spec c COLON); [done|].
    destruct (copy_component env) as [fp e]. simpl in *. by rewrite IH1.
Qed.

(** With a PATH of a single directory the search for a program that is
    in neither that directory nor the root directory never ends. *)
Lemma path_search_single_component (env : mem) :
  Forall (λ c, c ≠ COLON) env →
  ExeFound w (cstr env ++ [SLASH] ++ name) = false →
  ExeFound w ([SLASH] ++ name) = false →
  ∀ fuel, path_search fuel w env name = None.
Proof.
  intros Hnc Hfirst Hroot fuel.
  assert (Hhead : Ascii.eqb (at_ env 0) COLON = false).
  { destruct Hnc as [|c env Hc _]; [done|]. unfold at_. simpl.
    by apply Ascii.eqb_neq. }
  destruct fuel as [|fuel].
  - by rewrite path_search_O, Hhead.
  - rewrite path_search_S, Hhead.
    destruct (copy_component_no_colon env Hnc) as [H1 H2].
    rewrite H1, Hfirst. by apply path_search_at_end.
Qed.

(** A component followed by a colon is copied up to the colon, where
    [env] stays. *)
Lemma copy_component_colon (comp rest : mem) :
  nul_free comp → Forall (λ c, c ≠ COLON) comp →
  copy_component (comp ++ COLON :: rest) = (comp, COLON :: rest).
Proof.
  intros Hnf Hnc. induction comp as [|c comp IH]; [done|].
  inversion Hnf; inversion Hnc; subst. simpl.
  unfold is_nul. destruct (Ascii.eqb_spec c NUL); [done|].
  destruct (Ascii.eqb_spec c COLON); [done|].
  by rewrite IH.
Qed.

(** Of a PATH with several directories only the first is ever tried. *)
Lemma path_search_first_component_only (comp rest : mem) (fuel : nat) :
  comp ≠ [] → nul_free comp → Forall (λ c, c ≠ COLON) comp →
  path_search (S fuel) w (comp ++ COLON :: rest) name
  = Some (if ExeFound w (comp ++ [SLASH] ++ name)
          then Found (comp ++ [SLASH] ++ name) else NotFound).
Proof.
  intros Hne Hnf Hnc.
  assert (Hhead : Ascii.eqb (at_ (comp ++ COLON :: rest) 0) COLON = false).
  { destruct comp as [|c comp]; [done|]. inversion Hnc; subst.
    unfold at_. simpl. by apply Ascii.eqb_neq. }
  rewrite path_search_S, Hhead, copy_component_colon by done.
  cbn [fst snd].
  destruct (ExeFound w (comp ++ [SLASH] ++ name)); [done|].
  by destruct fuel.
Qed.

(** When the search gives up: the program is not executable as named
    and either starts with '/', or PATH is unset, or PATH starts with a
    colon, or the first directory of a PATH with several directories does
    not hold it. *)
Lemma resolve_gives_up (fuel : nat) :
  ExeFound w name = false →
  at_ name 0 = SLASH
  ∨ env_PATH w = None
  ∨ (∃ rest, env_PATH w = Some (COLON :: rest))
  ∨ (∃ comp rest,
        env_PATH w = Some (comp ++ COLON :: rest)
        ∧ comp ≠ [] ∧ nul_free comp ∧ Forall (λ c, c ≠ COLON) comp
        ∧ ExeFound w (comp ++ [SLASH] ++ name) = false) →
  resolve (S fuel) w name = Some NotFound.
Proof.
  intros Hexe Hcases. unfold resolve. rewrite Hexe.
  destruct Hcases as [-> | Hcases]; [done|].
  destruct (negb (Ascii.eqb (at_ name 0) SLASH)); [|done].
  destruct Hcases as [-> | [(rest & ->) | (comp & rest & -> & Hne & Hnf & Hnc & Hcand)]];
    [done | done |].
  rewrite path_search_first_component_only by done. by rewrite Hcand.
Qed.

(** When the search never ends: PATH is a single directory and the
    program is neither there nor in the root directory. *)
Lemma resolve_never_returns (env : mem) :
  ExeFound w name = false →
  at_ name 0 ≠ SLASH →
  env_PATH w = Some env →
  Forall (λ c, c ≠ COLON) env →
  ExeFound w (cstr env ++ [SLASH] ++ name) = false →
  ExeFound w ([SLASH] ++ name) = false →
  ∀ fuel, resolve fuel w name = None.
Proof.
  intros Hexe Hslash Henv Hnc H1 H2 fuel. unfold resolve. rewrite Hexe, Henv.
  destruct (Ascii.eqb_spec (at_ name 0) SLASH); [done|]. simpl.
  by apply path_search_single_component.
Qed.

End PathSearch.

(* ===================================================================== *)
(** ** [ParseCommand] on blank commands                                   *)
(* ===================================================================== *)

Section BlankCommand.

Import Parser.

Lemma cstr_spaces (n : nat) : cstr (replicate n SPACE) = replicate n SPACE.
Proof. induction n as [|n IH]; simpl; [done|]. by rewrite IH. Qed.

Lemma advance_spaces (n : nat) (rest : mem) :
  advance not_space (replicate n SPACE ++ NUL :: rest) = n.
Proof. induction n as [|n IH]; simpl; [done|]. by rewrite IH. Qed.

Lemma drop_spaces (n : nat) (rest : mem) :
  drop n (replicate n SPACE ++ rest) = rest.
Proof.
  rewrite <- (length_replicate n SPACE) at 1. apply drop_app_length.
Qed.

Lemma at_spaces_end (n : nat) (c : ascii) (rest : mem) :
  at_ (replicate n SPACE ++ c :: rest) n = c.
Proof.
  rewrite <- (length_replicate n SPACE) at 2. apply at_middle.
Qed.

(** A command of [n] spaces (none included) is accepted: [ParseCommand]
    returns 0 with an empty program name. *)
Lemma ParseCommand_blank (n : nat) :
  ParseCommand true true (replicate n SPACE)
  = Some (ParseOk {| p_command := replicate n SPACE ++ [NUL]; p_file := n;
                     p_argv := [Ptr n]; p_stray := [] |}).
Proof.
  unfold ParseCommand. cbn [negb is_null].
  rewrite cstr_spaces.
  unfold skip_spaces, scan. rewrite drop_0, advance_spaces. cbn [Nat.add].
  rewrite !drop_spaces. cbn [advance is_nul].
  rewrite Nat.add_0_r, at_spaces_end.
  replace (negb (is_nul NUL)) with false by reflexivity. cbv beta iota zeta.
  rewrite !drop_spaces. cbn [advance is_nul].
  replace (Ascii.eqb NUL NUL) with true by reflexivity. cbv beta iota.
  rewrite Nat.add_0_r, at_spaces_end.
  replace (negb (Ascii.eqb NUL NUL)) with false by reflexivity. cbv beta iota.
  reflexivity.
Qed.

Lemma file_string_blank (n : nat) :
  file_string {| p_command := replicate n SPACE ++ [NUL]; p_file := n;
                 p_argv := [Ptr n]; p_stray := [] |} = [].
Proof. unfold file_string. simpl. by rewrite drop_spaces. Qed.

End BlankCommand.

(* ===================================================================== *)
(** ** [ParseCommand] always returns                                      *)
(* ===================================================================== *)

Section ParserTermination.

Import Parser.

Lemma at_nonnul_in_range (cmd : mem) (l : nat) :
  is_nul (at_ cmd l) = false → (l < length cmd)%nat.
Proof.
  unfold at_. intros H. destruct (cmd !! l) eqn:E.
  - by apply lookup_lt_Some in E.
  - done.
Qed.

Lemma scan_ge (stop : ascii → bool) (cmd : mem) (l : nat) : (l ≤ scan stop cmd l)%nat.
Proof. unfold scan. lia. Qed.

Lemma token_loop_advances (t : bool) (q : ascii) (cmd : mem) (l : nat) :
  (S l ≤ (token_loop t q cmd l).2)%nat
  ∧ length (token_loop t q cmd l).1 = length cmd.
Proof.
  unfold token_loop. pose proof (scan_ge (is_char q) cmd (S l)).
  destruct (is_nul _); simpl; [lia|].
  split; [lia|]. destruct t; [apply length_insert | done].
Qed.

Lemma count_args_returns (cmd : mem) (fuel : nat) :
  ∀ l args, (length cmd ≤ l + fuel)%nat → is_Some (count_args fuel cmd l args).
Proof.
  induction fuel as [|fuel IH]; intros l args Hlen; simpl.
  - destruct (is_nul (at_ cmd l)) eqn:E; [eauto|].
    apply at_nonnul_in_range in E. lia.
  - destruct (is_nul (at_ cmd l)) eqn:E; [eauto|].
    apply IH. unfold skip_spaces.
    pose proof (token_loop_advances false DQUOTE cmd l) as [H1 _].
    pose proof (token_loop_advances false SQUOTE cmd l) as [H2 _].
    pose proof (token_loop_advances false SPACE cmd l) as [H3 _].
    repeat match goal with |- context [if ?b then _ else _] => destruct b end;
      match goal with |- context [scan ?s ?c ?x] => pose proof (scan_ge s c x) end;
      lia.
Qed.

Lemma fill_args_returns (fuel : nat) :
  ∀ st l a, (length (f_cmd st) ≤ l + fuel)%nat → is_Some (fill_args fuel st l a).
Proof.
  induction fuel as [|fuel IH]; intros st l a Hlen; simpl.
  - destruct (is_nul (at_ (f_cmd st) l)) eqn:E; [eauto|].
    apply at_nonnul_in_range in E. lia.
  - destruct (is_nul (at_ (f_cmd st) l)) eqn:E; [eauto|].
    pose proof (token_loop_advances true DQUOTE (f_cmd st) l) as [H1 L1].
    pose proof (token_loop_advances true SQUOTE (f_cmd st) l) as [H2 L2].
    pose proof (token_loop_advances true SPACE (f_cmd st) l) as [H3 L3].
    destruct (token_loop true DQUOTE (f_cmd st) l) as [c1 l1].
    destruct (token_loop true SQUOTE (f_cmd st) l) as [c2 l2].
    destruct (token_loop true SPACE (f_cmd st) l) as [c3 l3].
    simpl in *.
    repeat match goal with |- context [if ?b then _ else _] => destruct b end;
      apply IH; simpl; unfold skip_spaces;
      match goal with |- context [scan ?s ?c ?x] => pose proof (scan_ge s c x) end;
      lia.
Qed.

(** The two argument loops never run out of rounds: [ParseCommand]
    returns, for every command string. *)
Lemma ParseCommand_returns (malloc1 malloc2 : bool) (command_string : mem) :
  is_Some (ParseCommand malloc1 malloc2 command_string).
Proof.
  unfold ParseCommand.
  destruct malloc1; simpl negb; cbv iota; [|eauto].
  set (cmd0 := cstr command_string ++ [NUL]).
  set (l0 := scan (is_char SPACE) cmd0 (skip_spaces cmd0 0)).
  set (cl := if negb (is_nul (at_ cmd0 l0)) then (<[l0:=NUL]> cmd0, S l0) else (cmd0, l0)).
  assert (Hlen : length cl.1 = length cmd0).
  { subst cl. destruct (negb _); simpl; [apply length_insert | done]. }
  destruct cl as [cmd l]. simpl in Hlen. simpl is_null. cbv iota.
  set (l1 := skip_spaces cmd l).
  assert (Hcount : is_Some (if negb (is_nul (at_ cmd l1))
                            then count_args (length cmd0) cmd l1 1 else Some 1)).
  { destruct (negb _); [|eauto]. apply count_args_returns. lia. }
  destruct Hcount as [args ->].
  destruct malloc2; simpl negb; cbv iota; [|eauto].
  match goal with
  | |- is_Some (match (if ?b then fill_args ?f ?st ?l ?a else Some ?st) with _ => _ end) =>
      assert (Hfill : is_Some (if b then fill_args f st l a else Some st))
  end.
  { destruct (1 <? args); [|eauto]. apply fill_args_returns. simpl. lia. }
  destruct Hfill as [st ->]. eauto.
Qed.

End ParserTermination.

(* ===================================================================== *)
(** ** Wait statuses                                                     *)
(* ===================================================================== *)

Section WaitStatus.

Import Sys.

(** A property of every byte value, checked value by value. *)
Lemma byte_range_check (P : Z → bool) :
  forallb P (Z.of_nat <$> seq 0 256) = true →
  ∀ y, 0 ≤ y < 256 → P y = true.
Proof.
  intros Hall y Hy. rewrite forallb_forall in Hall. apply Hall.
  apply list_elem_of_In, list_elem_of_fmap. exists (Z.to_nat y). split; [lia|].
  apply elem_of_seq. lia.
Qed.

Lemma WEXITSTATUS_mod (status : Z) : WEXITSTATUS status = (status / 256) mod 256.
Proof.
  unfold WEXITSTATUS. rewrite Z.shiftr_land.
  change (Z.shiftr 65280 8) with (Z.ones 8).
  rewrite Z.land_ones by lia. rewrite Z.shiftr_div_pow2 by lia. done.
Qed.

Lemma WEXITSTATUS_range (status : Z) : 0 ≤ WEXITSTATUS status < 256.
Proof. rewrite WEXITSTATUS_mod. apply Z.mod_pos_bound. lia. Qed.

(** A process that calls [exit(code)] is seen as exited with the low
    eight bits of [code]. *)
Lemma exited_status (code : Z) :
  WIFEXITED (exited code) = true ∧ WEXITSTATUS (exited code) = code mod 256.
Proof.
  unfold exited. change 255 with (Z.ones 8). rewrite Z.land_ones by lia.
  change (2 ^ 8) with 256.
  assert (Hy : 0 ≤ code mod 256 < 256) by (apply Z.mod_pos_bound; lia).
  pose proof (byte_range_check
                (λ y, WIFEXITED (W_EXITCODE y 0) && (WEXITSTATUS (W_EXITCODE y 0) =? y))
                ltac:(vm_compute; reflexivity) _ Hy) as H.
  simpl in H. apply andb_true_iff in H as [H1 H2]. split; [done|lia].
Qed.

Lemma exited_byte (code : Z) :
  0 ≤ code < 256 →
  WIFEXITED (exited code) = true ∧ WEXITSTATUS (exited code) = code.
Proof.
  intros H. destruct (exited_status code) as [H1 H2]. split; [done|].
  rewrite H2. apply Z.mod_small. lia.
Qed.

(** A process killed by a signal is seen as signaled, not as exited, and
    the exit-status byte of its status is zero. *)
Lemma signaled_status (sig : Z) (core : bool) :
  1 ≤ sig ≤ 126 →
  WIFSIGNALED (signaled sig core) = true
  ∧ WIFEXITED (signaled sig core) = false
  ∧ WEXITSTATUS (signaled sig core) = 0.
Proof.
  intros Hsig.
  assert (Hy : 0 ≤ sig < 256) by lia.
  pose proof (byte_range_check
                (λ y, negb ((1 <=? y) && (y <=? 126))
                      || (WIFSIGNALED (signaled y core)
                          && negb (WIFEXITED (signaled y core))
                          && (WEXITSTATUS (signaled y core) =? 0)))
                ltac:(destruct core; vm_compute; reflexivity) _ Hy) as H.
  simpl in H.
  replace ((1 <=? sig) && (sig <=? 126)) with true in H by lia.
  simpl in H. apply andb_true_iff in H as [H12 H3].
  apply andb_true_iff in H12 as [H1 H2]. apply negb_true_iff in H2.
  repeat split; [done | done | lia].
Qed.

End WaitStatus.

Section WaitLoops.

Import Waiting.

Lemma wait_loop_ends (before : list Z) (last : Z) (rest : list wait_result) :
  Forall (λ s, Sys.WIFEXITED s = false ∧ Sys.WIFSIGNALED s = false) before →
  Sys.WIFEXITED last = true ∨ Sys.WIFSIGNALED last = true →
  wait_loop ((WaitStatus <$> before) ++ WaitStatus last :: rest) = WaitDone last.
Proof.
  intros Hb Hl. induction Hb as [|s before [H1 H2] _ IH]; simpl.
  - by destruct Hl as [-> | ->]; destruct (Sys.WIFEXITED last).
  - rewrite H1, H2. simpl. exact IH.
Qed.

Lemma ProxyWorker_ends (before : list Z) (last : Z) (rest : list wait_result) :
  ∀ handoffs,
    Forall (λ b, b = false) handoffs →
    Forall (λ s, Sys.WIFEXITED s = false ∧ Sys.WIFSIGNALED s = false) before →
    Sys.WIFEXITED last = true ∨ Sys.WIFSIGNALED last = true →
    ProxyWorker ((WaitStatus <$> before) ++ WaitStatus last :: rest) handoffs
    = Some (Sys.WEXITSTATUS last).
Proof.
  intros handoffs Hh Hb Hl. revert handoffs Hh.
  assert (Hhead : ∀ handoffs, Forall (λ b, b = false) handoffs →
                              default false (head handoffs) = false).
  { intros ? [|? ? -> _]; done. }
  assert (Htail : ∀ handoffs, Forall (λ b : bool, b = false) handoffs →
                              Forall (λ b, b = false) (tail handoffs)).
  { intros ? [|? ? _ ?]; [constructor | done]. }
  induction Hb as [|s before [H1 H2] _ IH]; intros handoffs Hh; simpl;
    rewrite (Hhead _ Hh), andb_false_r.
  - by destruct Hl as [-> | ->]; destruct (Sys.WIFEXITED last).
  - rewrite H1, H2. simpl. apply IH.
    destruct (Sys.WIFSTOPPED s && (Sys.WSTOPSIG s =? Sys.SIGTTIN)); auto.
Qed.

End WaitLoops.

(* ===================================================================== *)
(** ** [shellspawn]: the phases                                           *)
(* ===================================================================== *)

Section Steps.

(** A run of fallible calls creates only what its steps create. *)
Lemma run_steps_events (P : event → Prop) (steps : list step) :
  ∀ acc,
    Forall P acc →
    Forall (λ st, ∀ e, creates st = Some e → P e) steps →
    match run_steps steps acc with
    | inl (_, evs) => Forall P evs
    | inr evs => Forall P evs
    end.
Proof.
  induction steps as [|st steps IH]; intros acc Hd Hs; simpl; [done|].
  inversion Hs as [|? ? Hst Hs']; subst.
  destruct (failed st); [done|].
  apply IH; [|done]. apply Forall_app; split; [done|].
  destruct (creates st) as [e|]; simpl; [|constructor].
  constructor; [by apply Hst | constructor].
Qed.

Lemma run_steps_succeeds (steps : list step) :
  ∀ acc,
    Forall (λ st, failed st = false) steps →
    ∃ evs, run_steps steps acc = inr evs.
Proof.
  induction steps as [|st steps IH]; intros acc Hs; simpl; [eauto|].
  inversion Hs as [|? ? Hst Hs']; subst. rewrite Hst. by apply IH.
Qed.

Lemma allocate_never_forks (w : world) (a : args) :
  Forall (λ st, ∀ e, creates st = Some e → is_fork e = false) (allocate_steps w a).
Proof.
  unfold allocate_steps.
  destruct (any_callback a), (pOut a), (pErr a), (pIn a), (fIn a); simpl;
    repeat constructor; simpl; intros e [= <-]; done.
Qed.

Lemma allocate_quiet (w : world) (a : args) :
  (∀ s, fails w s = false) →
  ∃ evs, run_steps (allocate_steps w a) [] = inr evs.
Proof.
  intros Hq. apply run_steps_succeeds. unfold allocate_steps, call.
  destruct (any_callback a), (pOut a), (pErr a), (pIn a), (fIn a); simpl;
    repeat constructor; simpl; apply Hq.
Qed.

Lemma launch_quiet (w : world) (a : args) (evs : list event) :
  (∀ s, fails w s = false) →
  ∃ evs', run_steps (launch_steps w a) evs = inr evs'.
Proof.
  intros Hq. apply run_steps_succeeds. unfold launch_steps, call.
  assert (Hp : Waiting.proxy_setup_ok w = true).
  { unfold Waiting.proxy_setup_ok. by rewrite !Hq. }
  destruct (any_callback a), (pOut a), (pErr a), (pIn a), (fIn a); simpl;
    repeat constructor; simpl; rewrite ?Hq, ?Hp; done.
Qed.

End Steps.

Section Workers.

Import OutputWorker.

Lemma vector_loop_no_error (reads : list ReadResult) :
  ∀ lpBuffer buffer aOut,
    Forall (λ r, r ≠ RdError) reads →
    r_error (vector_loop reads lpBuffer buffer aOut) = false.
Proof.
  assert (Hfin : ∀ st, r_error (vector_finish st) = false).
  { intros st. unfold vector_finish. by destruct (v_buffer st). }
  induction reads as [|r reads IH]; intros lpBuffer buffer aOut Hr; simpl; [done|].
  inversion Hr as [|? ? Hne Hr']; subst.
  destruct r as [chunk|]; [|done].
  destruct chunk; [done|]. by apply IH.
Qed.

Lemma string_loop_no_error (reads : list ReadResult) :
  ∀ have lpBuffer sOut,
    Forall (λ r, r ≠ RdError) reads →
    s_error (HandleOutputToString reads have lpBuffer sOut) = false.
Proof.
  induction reads as [|r reads IH]; intros have lpBuffer sOut Hr.
  - simpl. by destruct (string_body have [] lpBuffer sOut).
  - inversion Hr as [|? ? Hne Hr']; subst.
    destruct r as [chunk|]; [|done]. simpl.
    destruct (string_body have chunk lpBuffer sOut).
    destruct chunk; [done|]. by apply IH.
Qed.

Lemma first_failing_quiet (w : world) (sites : list site) :
  (∀ s, fails w s = false) → first_failing w sites = None.
Proof.
  intros Hq. unfold first_failing.
  destruct (list_find _ sites) as [[i s]|] eqn:E; [|done].
  apply list_find_Some in E as (_ & Hs & _). rewrite Hq in Hs. done.
Qed.

Lemma HandleOutputToCallback_quiet (w : world) (reads : list ReadResult) :
  (∀ s, fails w s = false) →
  Forall (λ r, r ≠ RdError) reads →
  HandleOutputToCallback w reads = None.
Proof.
  intros Hq Hr. induction Hr as [|r reads Hne _ IH]; simpl; [done|].
  destruct r as [[|x chunk]|]; [done | | done].
  by rewrite first_failing_quiet.
Qed.

Lemma HandleOutputThread_quiet (w : world) (a : args) (c : caller) :
  quiet w →
  (HandleOutputThread w a c).2 = None
  ∧ c_rc (HandleOutputThread w a c).1 = c_rc c.
Proof.
  intros [Hq _ Ho _ _ _]. unfold HandleOutputThread, HandleOutputToVector.
  destruct (aOut a); [|destruct (sOut a); [|destruct (fOut a)]]; simpl.
  - by rewrite vector_loop_no_error.
  - by rewrite string_loop_no_error.
  - by rewrite HandleOutputToCallback_quiet.
  - by rewrite string_loop_no_error.
Qed.

Lemma HandleErrorThread_quiet (w : world) (a : args) (c : caller) :
  quiet w →
  (HandleErrorThread w a c).2 = None
  ∧ c_rc (HandleErrorThread w a c).1 = c_rc c.
Proof.
  intros [Hq _ _ He _ _]. unfold HandleErrorThread, HandleOutputToVector.
  destruct (aErr a); [|destruct (sErr a); [|destruct (fErr a)]]; simpl.
  - by rewrite vector_loop_no_error.
  - by rewrite string_loop_no_error.
  - by rewrite HandleOutputToCallback_quiet.
  - by rewrite string_loop_no_error.
Qed.

Lemma callback_loop_quiet (w : world) :
  quiet w → callback_loop w (callbacks w) = None.
Proof.
  intros [Hq _ _ _ _ Hc]. induction Hc as [|t ts Ht _ IH]; simpl; [done|].
  unfold HandleCallback.
  destruct Ht as [-> | ->]; simpl; by rewrite first_failing_quiet.
Qed.

End Workers.

Section Lifecycle.

Lemma count_nonneg (p : bool) : 0 ≤ count p.
Proof. destruct p; simpl; lia. Qed.

(** In a quiet run [WaitForProcess] records the exit-status byte of the
    status that ended the wait, and no thread error. *)
Lemma WaitForProcess_quiet (w : world) (a : args) (c : caller)
    (before : list Z) (last : Z) :
  quiet w →
  child_ends_with w before last →
  WaitForProcess w a c
  = Some (joined w a c,
          {| inThread := None; outThread := None; errThread := None;
             waitThread := None;
             ChildProcessRC := Sys.WEXITSTATUS last |}).
Proof.
  intros Hquiet ((rest & Hw) & Hb & Hl).
  pose proof Hquiet as [Hq Hh _ _ Hin _].
  unfold WaitForProcess, joined.
  assert (Hloop : ∃ status,
             Waiting.wait_loop (if fIn a then Waiting.proxy_waits w else child_waits w)
             = Waiting.WaitDone status
             ∧ Sys.WEXITSTATUS status = Sys.WEXITSTATUS last).
  { destruct (fIn a).
    - unfold Waiting.proxy_waits, Waiting.proxy_exit_code, Waiting.proxy_setup_ok.
      rewrite !Hq. simpl. rewrite Hw, ProxyWorker_ends by done.
      destruct (exited_byte (Sys.WEXITSTATUS last) (WEXITSTATUS_range last)) as [H1 H2].
      exists (Sys.exited (Sys.WEXITSTATUS last)). simpl. rewrite H1. done.
    - exists last. rewrite Hw, wait_loop_ends by done. done. }
  destruct Hloop as (status & -> & ->).
  rewrite !Hq, !andb_false_r, Hin.
  destruct (pOut a).
  - destruct (pErr a).
    + by destruct (pIn a).
    + destruct (HandleErrorThread_quiet w a c Hquiet) as [He _].
      destruct (HandleErrorThread w a c) as [c1 e]. simpl in He. subst e.
      by destruct (pIn a).
  - destruct (HandleOutputThread_quiet w a c Hquiet) as [Ho _].
    destruct (HandleOutputThread w a c) as [c1 o]. simpl in Ho. subst o.
    cbn [fst].
    destruct (pErr a).
    + by destruct (pIn a).
    + destruct (HandleErrorThread_quiet w a c1 Hquiet) as [He _].
      destruct (HandleErrorThread w a c1) as [c2 e]. simpl in He. subst e.
      by destruct (pIn a).
Qed.

Lemma lifecycle_quiet (w : world) (a : args) (c : caller) (evs : list event)
    (before : list Z) (last : Z) :
  quiet w →
  child_ends_with w before last →
  lifecycle w a c evs
  = Some {| status := SHELLSPAWN_OK;
            after := with_rc (Sys.WEXITSTATUS last) (joined w a c);
            trace := evs |}.
Proof.
  intros Hquiet Hends. unfold lifecycle.
  rewrite callback_loop_quiet, (WaitForProcess_quiet w a c before last) by done.
  rewrite (quiet_calls w Hquiet U38).
  by destruct (any_callback a).
Qed.

(** Every stream has at most one binding. *)
Lemma validation_passes (w : world) (fuel : nat) (a : args) (c : caller) :
  (∀ s, bindings a s ≤ 1) →
  shellspawn w fuel a c
  = match run_steps (allocate_steps w a) [] with
    | inl (s, evs) =>
        returned SHELLSPAWN_FAILURE (Error s (clear_outputs a c)) (evs ++ [EvCleanUp])
    | inr evs => resolve_and_launch w fuel a (clear_outputs a c) evs
    end.
Proof.
  intros Hb. unfold shellspawn.
  pose proof (Hb StdIn) as H1. pose proof (Hb StdOut) as H2.
  pose proof (Hb StdErr) as H3. simpl in H1, H2, H3.
  destruct (Z.ltb_spec 1 (count (aIn a) + count (sIn a) + count (fIn a) + count (pIn a)));
    [lia|].
  destruct (Z.ltb_spec 1 (count (aOut a) + count (sOut a) + count (fOut a) + count (pOut a)));
    [lia|].
  destruct (Z.ltb_spec 1 (count (aErr a) + count (sErr a) + count (fErr a) + count (pErr a)));
    [lia|].
  done.
Qed.

(** In a quiet run with a resolvable command, [shellspawn] returns OK,
    stores the exit-status byte of the status that ended the wait, and
    leaves in the holders what the workers collected. *)
Lemma shellspawn_quiet (w : world) (fuel : nat) (a : args)
    (c : caller) (before : list Z) (last : Z) :
  quiet w →
  (∀ s, bindings a s ≤ 1) →
  resolves w fuel a →
  child_ends_with w before last →
  ∃ evs, shellspawn w fuel a c
         = Some {| status := SHELLSPAWN_OK;
                   after := with_rc (Sys.WEXITSTATUS last)
                              (joined w a (clear_outputs a c));
                   trace := evs |}.
Proof.
  intros Hquiet Hb (p & file_path & Hparse & Hstray & Hres) Hends.
  pose proof (quiet_calls w Hquiet) as Hq.
  rewrite validation_passes by done.
  destruct (allocate_quiet w a Hq) as (evs & ->).
  unfold resolve_and_launch. rewrite !Hq. simpl negb. rewrite Hparse, Hstray, Hres.
  destruct (launch_quiet w a evs Hq) as (evs' & ->).
  exists evs'. by apply lifecycle_quiet with before.
Qed.

Lemma shellspawn_reports_WEXITSTATUS (w : world) (fuel : nat) (a : args)
    (c : caller) (before : list Z) (last : Z) :
  quiet w →
  (∀ s, bindings a s ≤ 1) →
  resolves w fuel a →
  child_ends_with w before last →
  ∃ r, shellspawn w fuel a c = Some r
       ∧ status r = SHELLSPAWN_OK
       ∧ c_rc (after r) = Sys.WEXITSTATUS last.
Proof.
  intros Hquiet Hb Hres Hends.
  destruct (shellspawn_quiet w fuel a c before last) as (evs & ->); try done.
  eexists. split; [reflexivity|]. done.
Qed.

(** *** The bindings, end to end *)

Lemma HandleErrorThread_out_holders (w : world) (a : args) (c : caller) :
  c_aOut (HandleErrorThread w a c).1 = c_aOut c
  ∧ c_sOut (HandleErrorThread w a c).1 = c_sOut c.
Proof.
  unfold HandleErrorThread. by destruct (aErr a), (sErr a), (fErr a).
Qed.

Lemma joined_out_holders (w : world) (a : args) (c : caller) :
  pOut a = false →
  c_aOut (joined w a c) = c_aOut (HandleOutputThread w a c).1
  ∧ c_sOut (joined w a c) = c_sOut (HandleOutputThread w a c).1.
Proof.
  intros Hp. unfold joined. rewrite Hp.
  destruct (pErr a); [done|]. apply HandleErrorThread_out_holders.
Qed.

Lemma clear_outputs_sOut (a : args) (c : caller) :
  sOut a = true → c_sOut (clear_outputs a c) = None.
Proof.
  intros Hs. unfold clear_outputs. rewrite Hs.
  destruct (aOut a && _), (aErr a && _); simpl;
    destruct (c_sOut c) eqn:E; simpl; rewrite ?E;
    repeat match goal with |- context [if ?b then _ else _] => destruct b end;
    simpl; rewrite ?E; done.
Qed.

Lemma clear_outputs_aOut (a : args) (c : caller) :
  aOut a = true → c_aOut (clear_outputs a c) = None.
Proof.
  intros Hs. unfold clear_outputs. rewrite Hs. simpl.
  destruct (c_aOut c) eqn:E; simpl;
    repeat match goal with |- context [if ?b then _ else _] => destruct b end;
    simpl; rewrite ?E; done.
Qed.

(** A Buffer binding on stdout, through the whole call: what the caller
    finds in [*sOut] is the concatenation of what the reads returned. *)
Lemma shellspawn_buffer_binding (w : world) (fuel : nat) (a : args)
    (c : caller) (before : list Z) (last : Z) (chunks : list (list ascii)) :
  quiet w →
  (∀ s, bindings a s ≤ 1) →
  resolves w fuel a →
  child_ends_with w before last →
  sOut a = true →
  out_reads w = RdData <$> chunks →
  length (out_stack w) = 257%nat →
  well_chunked chunks →
  Forall nul_free chunks →
  ∃ r, shellspawn w fuel a c = Some r
       ∧ status r = SHELLSPAWN_OK
       ∧ c_sOut (after r) = Some (concat chunks).
Proof.
  intros Hquiet Hb Hres Hends Hs Hreads Hlen Hwc Hnf.
  destruct (shellspawn_quiet w fuel a c before last) as (evs & ->); try done.
  eexists. split; [reflexivity|]. split; [done|]. simpl.
  pose proof (Hb StdOut) as Hout. simpl in Hout. rewrite Hs in Hout.
  pose proof (count_nonneg (aOut a)). pose proof (count_nonneg (fOut a)).
  pose proof (count_nonneg (pOut a)).
  assert (aOut a = false) as Ha by (destruct (aOut a); [simpl in *; lia | done]).
  assert (pOut a = false) as Hp by (destruct (pOut a); [simpl in *; lia | done]).
  destruct (joined_out_holders w a (clear_outputs a c) Hp) as [_ ->].
  unfold HandleOutputThread. rewrite Ha, Hs. simpl.
  rewrite clear_outputs_sOut, Hreads by done.
  by apply HandleOutputToString_collects.
Qed.

(** A Lines binding on stdout, through the whole call. *)
Lemma shellspawn_lines_binding (w : world) (fuel : nat) (a : args)
    (c : caller) (before : list Z) (last : Z) (chunks : list (list ascii)) :
  quiet w →
  (∀ s, bindings a s ≤ 1) →
  resolves w fuel a →
  child_ends_with w before last →
  aOut a = true →
  out_reads w = RdData <$> chunks →
  length (out_stack w) = 257%nat →
  well_chunked chunks →
  Forall nul_free chunks →
  ∃ r, shellspawn w fuel a c = Some r
       ∧ status r = SHELLSPAWN_OK
       ∧ lines_of (c_aOut (after r)) = lines_spec (concat chunks).
Proof.
  intros Hquiet Hb Hres Hends Ha Hreads Hlen Hwc Hnf.
  destruct (shellspawn_quiet w fuel a c before last) as (evs & ->); try done.
  eexists. split; [reflexivity|]. split; [done|]. simpl.
  pose proof (Hb StdOut) as Hout. simpl in Hout. rewrite Ha in Hout.
  pose proof (count_nonneg (sOut a)). pose proof (count_nonneg (fOut a)).
  pose proof (count_nonneg (pOut a)).
  assert (pOut a = false) as Hp by (destruct (pOut a); [simpl in *; lia | done]).
  destruct (joined_out_holders w a (clear_outputs a c) Hp) as [-> _].
  unfold HandleOutputThread, OutputWorker.HandleOutputToVector. rewrite Ha. simpl.
  rewrite clear_outputs_aOut, Hreads by done.
  destruct (vector_loop_lines chunks (out_stack w) None None Hlen Hwc Hnf) as [Hl _];
    [done|].
  cbn zeta in Hl. rewrite Hl. by rewrite lines_spec_feed.
Qed.

End Lifecycle.

(* ===================================================================== *)
(** ** What [shellspawn] leaves untouched                                 *)
(* ===================================================================== *)

Section Frame.

Lemma finish_status (c : caller) (d : SHELLDATA) (evs : list event) (r : result) :
  finish c d evs = Some r →
  (status r = SHELLSPAWN_OK ∨ status r = SHELLSPAWN_FAILURE)
  ∧ (status r ≠ SHELLSPAWN_OK → c_rc (after r) = c_rc c).
Proof.
  unfold finish, returned.
  destruct (waitThread d), (inThread d), (outThread d), (errThread d);
    intros [= <-]; simpl; split; auto; done.
Qed.

Lemma HandleOutputThread_rc (w : world) (a : args) (c : caller) :
  c_rc (HandleOutputThread w a c).1 = c_rc c.
Proof.
  unfold HandleOutputThread.
  by destruct (aOut a), (sOut a), (fOut a).
Qed.

Lemma HandleErrorThread_rc (w : world) (a : args) (c : caller) :
  c_rc (HandleErrorThread w a c).1 = c_rc c.
Proof.
  unfold HandleErrorThread.
  by destruct (aErr a), (sErr a), (fErr a).
Qed.

Lemma WaitForProcess_rc (w : world) (a : args) (c c' : caller) (d : SHELLDATA) :
  WaitForProcess w a c = Some (c', d) → c_rc c' = c_rc c.
Proof.
  unfold WaitForProcess.
  destruct (Waiting.wait_loop _); [by intros [= <- _] | | done].
  destruct (negb (pOut a) && fails w U44); [by intros [= <- _]|].
  pose proof (HandleOutputThread_rc w a c) as Ho.
  destruct (HandleOutputThread w a c) as [c1 o]. simpl in Ho.
  set (co := if pOut a then (c, None) else (c1, o)).
  assert (Hco : c_rc co.1 = c_rc c) by (subst co; by destruct (pOut a)).
  destruct co as [c2 o2]. simpl in Hco.
  destruct (negb (pErr a) && fails w U45); [intros [= <- _]; done|].
  pose proof (HandleErrorThread_rc w a c2) as He.
  destruct (HandleErrorThread w a c2) as [c3 e]. simpl in He.
  set (ce := if pErr a then (c2, None) else (c3, e)).
  assert (Hce : c_rc ce.1 = c_rc c) by (subst ce; destruct (pErr a); simpl; congruence).
  destruct ce as [c4 e4]. simpl in Hce.
  destruct (negb (pIn a) && fails w U46); intros [= <- _]; done.
Qed.

Lemma lifecycle_status (w : world) (a : args) (c : caller) (evs : list event)
    (r : result) :
  lifecycle w a c evs = Some r →
  (status r = SHELLSPAWN_OK ∨ status r = SHELLSPAWN_FAILURE)
  ∧ (status r ≠ SHELLSPAWN_OK → c_rc (after r) = c_rc c).
Proof.
  unfold lifecycle, returned.
  destruct (any_callback a).
  - destruct (callback_loop w (callbacks w)); [intros [= <-]; simpl; auto|].
    destruct (WaitForProcess w a c) as [[c' d]|] eqn:Hw; [|done].
    apply WaitForProcess_rc in Hw.
    destruct (fails w U38); [intros [= <-]; simpl; split; auto|].
    intros Hf. apply finish_status in Hf as [H1 H2]. split; [done|].
    intros H. rewrite H2 by done. done.
  - destruct (WaitForProcess w a c) as [[c' d]|] eqn:Hw; [|done].
    apply WaitForProcess_rc in Hw.
    intros Hf. apply finish_status in Hf as [H1 H2]. split; [done|].
    intros H. rewrite H2 by done. done.
Qed.

Lemma resolve_and_launch_status (w : world) (fuel : nat) (a : args) (c : caller)
    (evs : list event) (r : result) :
  resolve_and_launch w fuel a c evs = Some r →
  (status r = SHELLSPAWN_OK ∨ status r = SHELLSPAWN_NOFOUND
   ∨ status r = SHELLSPAWN_FAILURE)
  ∧ (status r ≠ SHELLSPAWN_OK → c_rc (after r) = c_rc c).
Proof.
  unfold resolve_and_launch, returned.
  destruct (Parser.ParseCommand _ _ _) as [[|p]|]; [intros [= <-]; simpl; auto | | done].
  destruct (Parser.p_stray p); [|done].
  destruct (Resolver.resolve _ _ _) as [[fp|]|]; [ | intros [= <-]; simpl; auto | done].
  destruct (run_steps (launch_steps w a) evs) as [[s evs']|evs'];
    [intros [= <-]; simpl; auto|].
  intros Hl. apply lifecycle_status in Hl as [[H|H] H2]; auto.
Qed.

Lemma clear_outputs_rc (a : args) (c : caller) :
  c_rc (clear_outputs a c) = c_rc c.
Proof.
  unfold clear_outputs.
  repeat match goal with |- context [if ?b then _ else _] => destruct b end; done.
Qed.

(** [*rc] is written on the OK return only. *)
Lemma shellspawn_rc_frame (w : world) (fuel : nat) (a : args) (c : caller)
    (r : result) :
  shellspawn w fuel a c = Some r →
  status r ≠ SHELLSPAWN_OK →
  c_rc (after r) = c_rc c.
Proof.
  unfold shellspawn, returned.
  destruct (1 <? _); [by intros [= <-]|].
  destruct (1 <? _); [by intros [= <-]|].
  destruct (1 <? _); [by intros [= <-]|].
  destruct (run_steps (allocate_steps w a) []) as [[s evs]|evs].
  - intros [= <-] _. simpl. apply clear_outputs_rc.
  - intros Hr Hs. apply resolve_and_launch_status in Hr as [_ Hrc].
    rewrite Hrc by done. apply clear_outputs_rc.
Qed.

(** Past the validation no return carries a TooMany code. *)
Lemma shellspawn_status_after_validation (w : world) (fuel : nat) (a : args)
    (c : caller) (r : result) :
  match run_steps (allocate_steps w a) [] with
  | inl (s, evs) => returned SHELLSPAWN_FAILURE (Error s c) (evs ++ [EvCleanUp])
  | inr evs => resolve_and_launch w fuel a c evs
  end = Some r →
  status r = SHELLSPAWN_OK ∨ status r = SHELLSPAWN_NOFOUND
  ∨ status r = SHELLSPAWN_FAILURE.
Proof.
  destruct (run_steps (allocate_steps w a) []) as [[s evs]|evs].
  - intros [= <-]. simpl. auto.
  - intros Hr. by apply resolve_and_launch_status in Hr as [H _].
Qed.

End Frame.

(* ===================================================================== *)
(** ** C1 and C8: the child's exit status                                 *)
(* ===================================================================== *)

(** C1: when the child exits normally with code [code] (and nothing
    around it fails: every stream has at most one binding, the command
    parses without a store outside the argument array and resolves, no
    system call or worker fails), [shellspawn] returns SHELLSPAWN_OK and
    stores [code] in [*rc], whatever [code] is; the statuses of earlier
    stops and continues do not matter. *)
Theorem C1_exit_code_faithful (w : world) (fuel : nat) (a : args) (c : caller)
    (before : list Z) (last code : Z) :
  quiet w →
  (∀ s, bindings a s ≤ 1) →
  resolves w fuel a →
  child_ends_with w before last →
  Sys.WIFEXITED last = true →
  Sys.WEXITSTATUS last = code →
  ∃ r, shellspawn w fuel a c = Some r
       ∧ status r = SHELLSPAWN_OK
       ∧ c_rc (after r) = code.
Proof.
  intros Hq Hb Hres Hends _ <-.
  by apply shellspawn_reports_WEXITSTATUS with before.
Qed.

Lemma C1_witness :
  ∃ r, shellspawn (Sample.usual [WaitStatus 4991; WaitStatus (Sys.exited 3)]) 5
         (Sample.buffer_out (bytes "/bin/echo hello")) Sample.used_caller = Some r
       ∧ status r = SHELLSPAWN_OK
       ∧ c_rc (after r) = 3.
Proof.
  apply (C1_exit_code_faithful
           (Sample.usual [WaitStatus 4991; WaitStatus (Sys.exited 3)]) 5
           (Sample.buffer_out (bytes "/bin/echo hello")) Sample.used_caller
           [4991] (Sys.exited 3) 3).
  - quiet_sample.
  - well_bound_sample.
  - resolves_sample.
  - split; [by exists [] | split; [repeat constructor | by left]].
  - reflexivity.
  - reflexivity.
Defined.

(** C8, as stated, does not hold: a child killed by SIGKILL (status 9:
    signaled, not exited) is reported with exit code 0 and status OK. *)
Lemma C8_counterexample :
  Sys.WIFSIGNALED (Sys.signaled 9 false) = true
  ∧ Sys.WIFEXITED (Sys.signaled 9 false) = false
  ∧ ∃ r, shellspawn (Sample.usual [WaitStatus (Sys.signaled 9 false)]) 5
           (Sample.discard_all (bytes "/bin/echo hello")) Sample.used_caller = Some r
         ∧ status r = SHELLSPAWN_OK
         ∧ c_rc (after r) = 0.
Proof.
  split; [reflexivity|]. split; [reflexivity|].
  eexists. split; [vm_compute; reflexivity|]. split; reflexivity.
Qed.

(** C8 (amended): when the child terminates because of a signal (and
    nothing around it fails: the command parses without a store outside
    the argument array and resolves, no system call or worker fails),
    [shellspawn] returns SHELLSPAWN_OK and the reported child exit code is
    WEXITSTATUS of the wait status, which for a signal-terminated child is
    0: the signal is not reported.  This holds on the direct path and
    through the proxy alike. *)
Theorem C8_signaled_child_reports_zero (w : world) (fuel : nat) (a : args)
    (c : caller) (before : list Z) (sig : Z) (core : bool) :
  quiet w →
  (∀ s, bindings a s ≤ 1) →
  resolves w fuel a →
  child_ends_with w before (Sys.signaled sig core) →
  1 ≤ sig ≤ 126 →
  Sys.WIFSIGNALED (Sys.signaled sig core) = true
  ∧ ∃ r, shellspawn w fuel a c = Some r
         ∧ status r = SHELLSPAWN_OK
         ∧ c_rc (after r) = 0.
Proof.
  intros Hq Hb Hres Hends Hsig.
  destruct (signaled_status sig core Hsig) as (Hs & _ & H0).
  split; [done|]. rewrite <- H0.
  by apply shellspawn_reports_WEXITSTATUS with before.
Qed.

Lemma C8_witness :
  Sys.WIFSIGNALED (Sys.signaled 15 true) = true
  ∧ ∃ r, shellspawn (Sample.usual [WaitStatus (Sys.signaled 15 true)]) 5
           (Sample.buffer_out (bytes "/bin/echo hello")) Sample.used_caller = Some r
         ∧ status r = SHELLSPAWN_OK
         ∧ c_rc (after r) = 0.
Proof.
  apply (C8_signaled_child_reports_zero
           (Sample.usual [WaitStatus (Sys.signaled 15 true)]) 5
           (Sample.buffer_out (bytes "/bin/echo hello")) Sample.used_caller
           [] 15 true).
  - quiet_sample.
  - well_bound_sample.
  - resolves_sample.
  - split; [by exists [] | split; [constructor | by right]].
  - lia.
Defined.

(* ===================================================================== *)
(** ** C2 and C10: binding conflicts                                      *)
(* ===================================================================== *)

Section Validation.

Lemma count_range (p : bool) : 0 ≤ count p ≤ 1.
Proof. destruct p; simpl; lia. Qed.

(** The validation returns the code of the first stream, in the order
    stdin, stdout, stderr, that has more than one binding. *)
Lemma validation_rejects (w : world) (fuel : nat) (a : args) (c : caller)
    (s : stream) :
  1 < bindings a s →
  (∀ s', earlier s' s = true → bindings a s' ≤ 1) →
  ∃ text, shellspawn w fuel a c
          = Some {| status := too_many s; after := Error text c; trace := [] |}.
Proof.
  intros Hs Hearlier. unfold shellspawn, returned.
  destruct s; simpl in Hs.
  - destruct (Z.ltb_spec 1 (count (aIn a) + count (sIn a) + count (fIn a) + count (pIn a)));
      [eauto | lia].
  - pose proof (Hearlier StdIn eq_refl) as H1. simpl in H1.
    destruct (Z.ltb_spec 1 (count (aIn a) + count (sIn a) + count (fIn a) + count (pIn a)));
      [lia|].
    destruct (Z.ltb_spec 1 (count (aOut a) + count (sOut a) + count (fOut a) + count (pOut a)));
      [eauto | lia].
  - pose proof (Hearlier StdIn eq_refl) as H1.
    pose proof (Hearlier StdOut eq_refl) as H2. simpl in H1, H2.
    destruct (Z.ltb_spec 1 (count (aIn a) + count (sIn a) + count (fIn a) + count (pIn a)));
      [lia|].
    destruct (Z.ltb_spec 1 (count (aOut a) + count (sOut a) + count (fOut a) + count (pOut a)));
      [lia|].
    destruct (Z.ltb_spec 1 (count (aErr a) + count (sErr a) + count (fErr a) + count (pErr a)));
      [eauto | lia].
Qed.

(** Among the streams with more than one binding there is a first one. *)
Lemma first_conflict (a : args) (s : stream) :
  1 < bindings a s →
  ∃ s0, 1 < bindings a s0
        ∧ (∀ s', earlier s' s0 = true → bindings a s' ≤ 1)
        ∧ (s0 = s ∨ earlier s0 s = true).
Proof.
  intros Hs.
  destruct (Z.lt_ge_cases 1 (bindings a StdIn)) as [Hin|Hin].
  { exists StdIn. split; [done|]. split; [by intros []|]. destruct s; auto. }
  destruct (Z.lt_ge_cases 1 (bindings a StdOut)) as [Hout|Hout].
  { exists StdOut. split; [done|]. split; [by intros []|]. destruct s; auto. lia. }
  exists StdErr. destruct s; try lia. split; [done|]. split; [by intros []|]. auto.
Qed.

End Validation.

(** C2, as stated, does not hold: with two bindings for stdin and two
    for stdout the validation stops at stdin and returns TooManyIn; stdout
    has more than one binding and its code TooManyOut is not returned. *)
Lemma C2_counterexample :
  1 < bindings Sample.conflict_in_out StdOut
  ∧ ∃ r, shellspawn (Sample.usual []) 0 Sample.conflict_in_out Sample.used_caller
         = Some r
         ∧ status r = SHELLSPAWN_TOOMANYIN
         ∧ status r ≠ too_many StdOut
         ∧ trace r = [].
Proof.
  split; [reflexivity|].
  eexists. split; [reflexivity|]. repeat split. discriminate.
Qed.

(** C2 (amended): if the caller supplies more than one binding for a
    stream, [shellspawn] returns a TooMany code before any pipe, thread
    or process is created: the code of stream [s0], the first stream in the
    order stdin, stdout, stderr that has more than one binding.  So a
    stream with more than one binding gets its own code exactly when no
    earlier stream has more than one binding as well. *)
Theorem C2_too_many_bindings_rejected (w : world) (fuel : nat) (a : args)
    (c : caller) (s : stream) :
  1 < bindings a s →
  ∃ s0 r,
    shellspawn w fuel a c = Some r
    ∧ 1 < bindings a s0
    ∧ (∀ s', earlier s' s0 = true → bindings a s' ≤ 1)
    ∧ status r = too_many s0
    ∧ trace r = []
    ∧ (s0 = s ∨ earlier s0 s = true)
    ∧ ((∀ s', earlier s' s = true → bindings a s' ≤ 1) ↔ s0 = s).
Proof.
  intros Hs.
  destruct (first_conflict a s Hs) as (s0 & Hs0 & Hfirst & Hrel).
  destruct (validation_rejects w fuel a c s0 Hs0 Hfirst) as (text & Hrun).
  exists s0, {| status := too_many s0; after := Error text c; trace := [] |}.
  repeat split; try done.
  - intros Honly. destruct Hrel as [|Hrel]; [done|].
    specialize (Honly s0 Hrel). lia.
  - by intros <-.
Qed.

Lemma C2_witness :
  ∃ s0 r,
    shellspawn (Sample.usual []) 0
      {| command := bytes "/bin/echo hello";
         aIn := false; sIn := false; fIn := false; pIn := false;
         aOut := true; sOut := true; fOut := false; pOut := false;
         aErr := false; sErr := true; fErr := true; pErr := false |}
      Sample.used_caller = Some r
    ∧ 1 < bindings
            {| command := bytes "/bin/echo hello";
               aIn := false; sIn := false; fIn := false; pIn := false;
               aOut := true; sOut := true; fOut := false; pOut := false;
               aErr := false; sErr := true; fErr := true; pErr := false |} s0
    ∧ (∀ s', earlier s' s0 = true →
             bindings
               {| command := bytes "/bin/echo hello";
                  aIn := false; sIn := false; fIn := false; pIn := false;
                  aOut := true; sOut := true; fOut := false; pOut := false;
                  aErr := false; sErr := true; fErr := true; pErr := false |} s' ≤ 1)
    ∧ status r = too_many s0
    ∧ trace r = []
    ∧ (s0 = StdOut ∨ earlier s0 StdOut = true)
    ∧ ((∀ s', earlier s' StdOut = true →
              bindings
                {| command := bytes "/bin/echo hello";
                   aIn := false; sIn := false; fIn := false; pIn := false;
                   aOut := true; sOut := true; fOut := false; pOut := false;
                   aErr := false; sErr := true; fErr := true; pErr := false |} s' ≤ 1)
       ↔ s0 = StdOut).
Proof.
  apply (C2_too_many_bindings_rejected (Sample.usual []) 0 _ Sample.used_caller StdOut).
  reflexivity.
Defined.

(** C10: when [shellspawn] returns TooManyIn, TooManyOut or TooManyErr,
    the four output holders are exactly as passed in; they are cleared
    only once all three validations have passed. *)
Theorem C10_conflict_leaves_holders (w : world) (fuel : nat) (a : args)
    (c : caller) (r : result) :
  shellspawn w fuel a c = Some r →
  status r = SHELLSPAWN_TOOMANYIN ∨ status r = SHELLSPAWN_TOOMANYOUT
  ∨ status r = SHELLSPAWN_TOOMANYERR →
  holders (after r) = holders c.
Proof.
  unfold shellspawn, returned.
  destruct (1 <? _); [by intros [= <-]|].
  destruct (1 <? _); [by intros [= <-]|].
  destruct (1 <? _); [by intros [= <-]|].
  intros Hr Hst. exfalso.
  apply shellspawn_status_after_validation in Hr.
  unfold SHELLSPAWN_OK, SHELLSPAWN_NOFOUND, SHELLSPAWN_FAILURE,
    SHELLSPAWN_TOOMANYIN, SHELLSPAWN_TOOMANYOUT, SHELLSPAWN_TOOMANYERR in *.
  lia.
Qed.

Lemma C10_witness :
  holders
    (after {| status := SHELLSPAWN_TOOMANYOUT;
              after := Error TooManyOutText Sample.used_caller; trace := [] |})
  = holders Sample.used_caller.
Proof.
  apply (C10_conflict_leaves_holders (Sample.usual []) 0
           {| command := bytes "/bin/echo hello";
              aIn := false; sIn := false; fIn := false; pIn := false;
              aOut := true; sOut := true; fOut := false; pOut := false;
              aErr := false; sErr := false; fErr := false; pErr := false |}
           Sample.used_caller).
  - reflexivity.
  - right. left. reflexivity.
Defined.

(* ===================================================================== *)
(** ** C9: a command that cannot be resolved                              *)
(* ===================================================================== *)

(** The specification's resolver on a PATH without a colon: the one
    candidate is the directory joined with the name. *)
Lemma split_on_absent (sep : ascii) (B : list ascii) :
  Forall (λ c, c ≠ sep) B → split_on sep B = [B].
Proof.
  induction 1 as [|c B Hc _ IH]; [done|]. simpl.
  destruct (Ascii.eqb_spec c sep); [done|]. by rewrite IH.
Qed.

(** C9, evaluated where the code departs from it: when PATH names a
    single directory and the program of a command (parsed without a store
    outside the argument array) is neither executable as named, nor in
    that directory, nor in the root directory, the command cannot be
    resolved (the specification's resolver says NotFound), and
    [shellspawn] does not return SHELLSPAWN_NOFOUND: it never returns.  The
    search loop tries the directory, finds [env] at the terminating NUL
    and tries "/name" for ever. *)
Theorem C9_unresolvable_command_never_returns (w : world) (a : args) (c : caller)
    (p : Parser.parsed) (env : mem) :
  (∀ s, bindings a s ≤ 1) →
  (∃ evs, run_steps (allocate_steps w a) [] = inr evs) →
  Parser.ParseCommand (negb (fails w M18a)) (negb (fails w M18b)) (command a)
  = Some (Parser.ParseOk p) →
  Parser.p_stray p = [] →
  Resolver.ExeFound w (Parser.file_string p) = false →
  at_ (Parser.file_string p) 0 ≠ SLASH →
  env_PATH w = Some env →
  nul_free env →
  Forall (λ c, c ≠ COLON) env →
  Resolver.ExeFound w (env ++ [SLASH] ++ Parser.file_string p) = false →
  Resolver.ExeFound w ([SLASH] ++ Parser.file_string p) = false →
  Spec.resolve_spec w (Parser.file_string p) = Resolver.NotFound
  ∧ ∀ fuel, shellspawn w fuel a c = None.
Proof.
  intros Hb (evs & Halloc) Hparse Hstray Hexe Hslash Henv Hnf Hnc Hdir Hroot. split.
  - unfold Spec.resolve_spec. rewrite Hexe, Henv.
    destruct (Ascii.eqb_spec (at_ (Parser.file_string p) 0) SLASH); [done|].
    rewrite split_on_absent by done.
    match goal with
    | |- context [list_find ?P ?l] => assert (list_find P l = None) as ->; [|done]
    end.
    apply list_find_None. constructor; [|constructor]. by rewrite Hdir.
  - intros fuel. rewrite validation_passes, Halloc by done.
    unfold resolve_and_launch. rewrite Hparse, Hstray.
    rewrite (resolve_never_returns w (Parser.file_string p) env); try done.
    replace (cstr env) with env; [done|].
    clear -Hnf. induction Hnf as [|x env Hx _ IH]; [done|]. simpl.
    unfold is_nul. destruct (Ascii.eqb_spec x NUL); [done|]. by rewrite <- IH.
Qed.

Lemma C9_witness :
  Spec.resolve_spec Sample.one_dir
    (Parser.file_string
       {| Parser.p_command := bytes "no_such_program_xyz" ++ [NUL]; Parser.p_file := 0;
          Parser.p_argv := [Parser.Ptr 0]; Parser.p_stray := [] |})
  = Resolver.NotFound
  ∧ ∀ fuel, shellspawn Sample.one_dir fuel
              (Sample.discard_all (bytes "no_such_program_xyz")) Sample.used_caller
            = None.
Proof.
  apply (C9_unresolvable_command_never_returns Sample.one_dir
           (Sample.discard_all (bytes "no_such_program_xyz")) Sample.used_caller
           {| Parser.p_command := bytes "no_such_program_xyz" ++ [NUL]; Parser.p_file := 0;
              Parser.p_argv := [Parser.Ptr 0]; Parser.p_stray := [] |}
           (bytes "/usr/bin")).
  - well_bound_sample.
  - eexists. vm_compute. reflexivity.
  - vm_compute. reflexivity.
  - reflexivity.
  - vm_compute. reflexivity.
  - discriminate.
  - reflexivity.
  - nul_free_tac.
  - nul_free_tac.
  - vm_compute. reflexivity.
  - vm_compute. reflexivity.
Defined.

(* ===================================================================== *)
(** ** C5: the PATH search                                                *)
(* ===================================================================== *)

(** C5, evaluated where the code departs from it: with PATH=/a:/b and
    [/b/ls] the only executable, the search for "ls" tries [/a/ls], finds
    [env] at the colon and stops, so [shellspawn] returns
    SHELLSPAWN_NOFOUND, although joining each PATH component in order with
    '/' and "ls" yields the executable candidate [/b/ls]. *)
Theorem C5_second_component_never_tried (fuel : nat) :
  Resolver.ExeFound Sample.two_dirs (bytes "/b/ls") = true
  ∧ Spec.resolve_spec Sample.two_dirs (bytes "ls") = Resolver.Found (bytes "/b/ls")
  ∧ Resolver.resolve (S fuel) Sample.two_dirs (bytes "ls") = Some Resolver.NotFound
  ∧ ∃ r, shellspawn Sample.two_dirs (S fuel) (Sample.discard_all (bytes "ls"))
           Sample.used_caller = Some r
         ∧ status r = SHELLSPAWN_NOFOUND.
Proof.
  split; [vm_compute; reflexivity|]. split; [vm_compute; reflexivity|].
  assert (Hres : Resolver.resolve (S fuel) Sample.two_dirs (bytes "ls")
                 = Some Resolver.NotFound).
  { unfold Resolver.resolve.
    replace (Resolver.ExeFound Sample.two_dirs (bytes "ls")) with false
      by (vm_compute; reflexivity).
    cbn [negb at_ bytes]. cbv beta iota.
    change (env_PATH Sample.two_dirs) with (Some (bytes "/a" ++ COLON :: bytes "/b")).
    replace (negb (Ascii.eqb (at_ (bytes "ls") 0) SLASH)) with true by reflexivity.
    cbv beta iota.
    rewrite path_search_first_component_only;
      [ | discriminate | nul_free_tac | nul_free_tac ].
    replace (Resolver.ExeFound Sample.two_dirs (bytes "/a" ++ [SLASH] ++ bytes "ls"))
      with false by (vm_compute; reflexivity).
    reflexivity. }
  split; [exact Hres|].
  rewrite validation_passes by well_bound_sample.
  replace (run_steps (allocate_steps Sample.two_dirs (Sample.discard_all (bytes "ls"))) [])
    with (inr (A := site * list event) [EvPipe U10; EvPipe U11; EvPipe U17])
    by reflexivity.
  unfold resolve_and_launch.
  replace (Parser.ParseCommand (negb (fails Sample.two_dirs M18a))
             (negb (fails Sample.two_dirs M18b))
             (command (Sample.discard_all (bytes "ls"))))
    with (Some (Parser.ParseOk
                  {| Parser.p_command := bytes "ls" ++ [NUL]; Parser.p_file := 0;
                     Parser.p_argv := [Parser.Ptr 0]; Parser.p_stray := [] |}))
    by (vm_compute; reflexivity).
  cbn [Parser.p_stray].
  change (Parser.file_string _) with (bytes "ls").
  rewrite Hres. eexists. split; reflexivity.
Qed.

(* ===================================================================== *)
(** ** C6: quoted arguments                                               *)
(* ===================================================================== *)

(** C6, evaluated where the code departs from it: for the command
    [/bin/echo 'a b' x] the grammar gives argv = echo, "a b", x; the
    parser sets slots 0 and 2 of the array and never writes slot 1: the
    pointer to "a b" is stored through [argv[1]], outside the array. *)
Theorem C6_quoted_token_not_stored :
  Spec.argv_spec Sample.quoted_command = [bytes "echo"; bytes "a b"; bytes "x"]
  ∧ ∃ p, Parser.ParseCommand true true Sample.quoted_command = Some (Parser.ParseOk p)
         ∧ Parser.argv_strings p = [Some (bytes "echo"); None; Some (bytes "x")]
         ∧ Parser.p_stray p = [{| Parser.stray_index := 1; Parser.stray_value := 11 |}]
         ∧ cstr (drop 11 (Parser.p_command p)) = bytes "a b".
Proof.
  split; [reflexivity|].
  eexists. split; [vm_compute; reflexivity|]. repeat split.
Qed.

(** A call with that command has no result: the store through [argv[1]]
    goes outside the array before the search begins. *)
Example quoted_command_has_no_result (fuel : nat) (c : caller) :
  shellspawn (Sample.usual [WaitStatus (Sys.exited 0)]) fuel
    (Sample.discard_all Sample.quoted_command) c = None.
Proof. vm_compute. reflexivity. Qed.

(** Without quotes the parser produces what the grammar says. *)
Example ParseCommand_plain_arguments :
  ∃ p, Parser.ParseCommand true true (bytes "  /usr/bin/printf  %s   hello world ")
       = Some (Parser.ParseOk p)
       ∧ Parser.argv_strings p
         = Some <$> Spec.argv_spec (bytes "  /usr/bin/printf  %s   hello world ")
       ∧ Parser.file_string p = bytes "/usr/bin/printf"
       ∧ Parser.p_stray p = [].
Proof. eexists. split; [vm_compute; reflexivity|]. repeat split. Qed.

(* ===================================================================== *)
(** ** C7: the empty command                                              *)
(* ===================================================================== *)

(** C7, evaluated where the code departs from it: a command of [n] spaces
    ([n] may be 0) passes [ParseCommand], which returns 0 with an empty
    program name because its test for "no command at all" looks at the
    pointer and not at the character; with PATH=/usr/bin the search then
    tries "/usr/bin/" and after that "/" for ever, and [shellspawn] never
    returns SHELLSPAWN_NOFOUND. *)
Theorem C7_blank_command_passes_the_parser (n fuel : nat) (c : caller) :
  Parser.ParseCommand true true (replicate n SPACE)
  = Some (Parser.ParseOk
            {| Parser.p_command := replicate n SPACE ++ [NUL]; Parser.p_file := n;
               Parser.p_argv := [Parser.Ptr n]; Parser.p_stray := [] |})
  ∧ shellspawn Sample.one_dir fuel (Sample.discard_all (replicate n SPACE)) c = None.
Proof.
  split; [apply ParseCommand_blank|].
  rewrite validation_passes by (intros []; vm_compute; discriminate).
  replace (run_steps (allocate_steps Sample.one_dir
                        (Sample.discard_all (replicate n SPACE))) [])
    with (inr (A := site * list event) [EvPipe U10; EvPipe U11; EvPipe U17])
    by reflexivity.
  unfold resolve_and_launch.
  change (Parser.ParseCommand _ _ (command _))
    with (Parser.ParseCommand true true (replicate n SPACE)).
  rewrite ParseCommand_blank. cbn [Parser.p_stray]. rewrite file_string_blank.
  assert (Resolver.resolve fuel Sample.one_dir [] = None) as ->; [|done].
  unfold Resolver.resolve.
  replace (Resolver.ExeFound Sample.one_dir []) with false by (vm_compute; reflexivity).
  cbn [at_ negb]. replace (negb (Ascii.eqb (at_ [] 0) SLASH)) with true by reflexivity.
  change (env_PATH Sample.one_dir) with (Some (bytes "/usr/bin")).
  cbv beta iota.
  apply path_search_single_component.
  - nul_free_tac.
  - vm_compute. reflexivity.
  - vm_compute. reflexivity.
Qed.

(** With the usual PATH of several directories the same command does end
    in SHELLSPAWN_NOFOUND, through the failed search and not through the
    parser. *)
Example blank_command_usual_path :
  ∃ r, shellspawn (Sample.usual []) 1 (Sample.discard_all (bytes "   "))
         Sample.used_caller = Some r
       ∧ status r = SHELLSPAWN_NOFOUND
       ∧ c_errorText (after r) = Some [U19].
Proof. eexists. split; [vm_compute; reflexivity|]. split; reflexivity. Qed.

(* ===================================================================== *)
(** ** The specification's literal scenarios                              *)
(* ===================================================================== *)

(** [/bin/echo hello] with stdout bound to a Buffer: OK, exit code 0, the
    Buffer holds "hello\n" and the text of an earlier call is gone. *)
Example scenario_echo_buffer :
  ∃ r, shellspawn
         {| fails := λ _, false; fs := Sample.bin_files;
            geteuid := 1000; getegid := 1000;
            env_PATH := Some (bytes "/usr/bin:/bin");
            child_waits := [WaitStatus (Sys.exited 0)];
            handoff_fails := [];
            out_reads := [RdData (bytes "hel"); RdData (bytes "lo" ++ [NL])];
            err_reads := [];
            out_stack := stack_buffer; err_stack := stack_buffer;
            in_thread_fails := false; callbacks := [] |}
         1 (Sample.buffer_out (bytes "/bin/echo hello")) Sample.used_caller = Some r
       ∧ status r = SHELLSPAWN_OK
       ∧ c_rc (after r) = 0
       ∧ c_sOut (after r) = Some (bytes "hello" ++ [NL]).
Proof. eexists. split; [vm_compute; reflexivity|]. repeat split. Qed.

(** A child that exits with code 1 is not an error. *)
Example scenario_false :
  ∃ r, shellspawn (Sample.usual [WaitStatus (Sys.exited 1)]) 1
         (Sample.discard_all (bytes "/bin/echo")) Sample.used_caller = Some r
       ∧ status r = SHELLSPAWN_OK
       ∧ c_rc (after r) = 1.
Proof. eexists. split; [vm_compute; reflexivity|]. repeat split. Qed.

(** With an input callback the exit code travels through the proxy. *)
Example scenario_proxy_exit_code :
  ∃ r, shellspawn (Sample.usual [WaitStatus 5503; WaitStatus (Sys.exited 42)]) 1
         {| command := bytes "/bin/echo";
            aIn := false; sIn := false; fIn := true; pIn := false;
            aOut := false; sOut := false; fOut := false; pOut := false;
            aErr := false; sErr := false; fErr := false; pErr := false |}
         Sample.used_caller = Some r
       ∧ status r = SHELLSPAWN_OK
       ∧ c_rc (after r) = 42
       ∧ trace r = [EvSync U5; EvSync U6; EvSync U7; EvSync U8; EvSync U9;
                    EvPipe U10; EvPipe U11; EvPty; EvPipe U15; EvPipe U16;
                    EvFork U22; EvThread U34; EvThread U35; EvThread U36;
                    EvThread U37].
Proof. eexists. split; [vm_compute; reflexivity|]. repeat split. Qed.

(* ===================================================================== *)
(** ** Further properties of [shellspawn]                                 *)
(* ===================================================================== *)

Section ReturnValues.

Lemma HandleOutputThread_errorText (w : world) (a : args) (c : caller) :
  c_errorText (HandleOutputThread w a c).1 = c_errorText c.
Proof. unfold HandleOutputThread. by destruct (aOut a), (sOut a), (fOut a). Qed.

Lemma HandleErrorThread_errorText (w : world) (a : args) (c : caller) :
  c_errorText (HandleErrorThread w a c).1 = c_errorText c.
Proof. unfold HandleErrorThread. by destruct (aErr a), (sErr a), (fErr a). Qed.

Lemma WaitForProcess_errorText (w : world) (a : args) (c c' : caller) (d : SHELLDATA) :
  WaitForProcess w a c = Some (c', d) → c_errorText c' = c_errorText c.
Proof.
  unfold WaitForProcess.
  destruct (Waiting.wait_loop _); [by intros [= <- _] | | done].
  destruct (negb (pOut a) && fails w U44); [by intros [= <- _]|].
  pose proof (HandleOutputThread_errorText w a c) as Ho.
  destruct (HandleOutputThread w a c) as [c1 o]. simpl in Ho.
  set (co := if pOut a then (c, None) else (c1, o)).
  assert (Hco : c_errorText co.1 = c_errorText c) by (subst co; by destruct (pOut a)).
  destruct co as [c2 o2]. simpl in Hco.
  destruct (negb (pErr a) && fails w U45); [intros [= <- _]; done|].
  pose proof (HandleErrorThread_errorText w a c2) as He.
  destruct (HandleErrorThread w a c2) as [c3 e]. simpl in He.
  set (ce := if pErr a then (c2, None) else (c3, e)).
  assert (Hce : c_errorText ce.1 = c_errorText c)
    by (subst ce; destruct (pErr a); simpl; congruence).
  destruct ce as [c4 e4]. simpl in Hce.
  destruct (negb (pIn a) && fails w U46); intros [= <- _]; done.
Qed.

Lemma clear_outputs_errorText (a : args) (c : caller) :
  c_errorText (clear_outputs a c) = c_errorText c.
Proof.
  unfold clear_outputs.
  repeat match goal with |- context [if ?b then _ else _] => destruct b end; done.
Qed.

Lemma finish_text (c : caller) (d : SHELLDATA) (evs : list event) (r : result) :
  finish c d evs = Some r → text_matches_status c r.
Proof.
  unfold finish, returned, text_matches_status.
  destruct (waitThread d), (inThread d), (outThread d), (errThread d);
    intros [= <-]; simpl; try (right; split; [done|discriminate]); by left.
Qed.

Lemma lifecycle_text (w : world) (a : args) (c : caller) (evs : list event)
    (r : result) :
  lifecycle w a c evs = Some r → text_matches_status c r.
Proof.
  unfold lifecycle, returned.
  assert (Hmove : ∀ c', c_errorText c' = c_errorText c →
                        text_matches_status c' r → text_matches_status c r).
  { unfold text_matches_status. intros c' Hc [[H1 H2]|H]; [left|right]; [|done].
    split; [done|congruence]. }
  destruct (any_callback a).
  - destruct (callback_loop w (callbacks w));
      [intros [= <-]; right; simpl; split; [done|discriminate]|].
    destruct (WaitForProcess w a c) as [[c' d]|] eqn:Hw; [|done].
    apply WaitForProcess_errorText in Hw.
    destruct (fails w U38);
      [intros [= <-]; right; simpl; split; [done|discriminate]|].
    intros Hf. apply finish_text in Hf. by apply Hmove with c'.
  - destruct (WaitForProcess w a c) as [[c' d]|] eqn:Hw; [|done].
    apply WaitForProcess_errorText in Hw.
    intros Hf. apply finish_text in Hf. by apply Hmove with c'.
Qed.

Lemma resolve_and_launch_text (w : world) (fuel : nat) (a : args) (c : caller)
    (evs : list event) (r : result) :
  resolve_and_launch w fuel a c evs = Some r → text_matches_status c r.
Proof.
  unfold resolve_and_launch, returned.
  destruct (Parser.ParseCommand _ _ _) as [[|p]|];
    [intros [= <-]; right; simpl; split; [done|discriminate] | | done].
  destruct (Parser.p_stray p); [|done].
  destruct (Resolver.resolve _ _ _) as [[fp|]|];
    [ | intros [= <-]; right; simpl; split; [done|discriminate] | done].
  destruct (run_steps (launch_steps w a) evs) as [[s evs']|evs'];
    [intros [= <-]; right; simpl; split; [done|discriminate]|].
  apply lifecycle_text.
Qed.

End ReturnValues.

(** X1: the value returned is one of the six codes of [shellspawn.h]; with OK
    the error text is left as it was, with every other code it has been
    set. *)
Theorem shellspawn_status_and_error_text (w : world) (fuel : nat) (a : args)
    (c : caller) (r : result) :
  shellspawn w fuel a c = Some r →
  text_matches_status c r.
Proof.
  unfold shellspawn, returned.
  destruct (1 <? _); [intros [= <-]; right; simpl; split; [done|discriminate]|].
  destruct (1 <? _); [intros [= <-]; right; simpl; split; [done|discriminate]|].
  destruct (1 <? _); [intros [= <-]; right; simpl; split; [done|discriminate]|].
  destruct (run_steps (allocate_steps w a) []) as [[s evs]|evs].
  - intros [= <-]. right. simpl. split; [done|discriminate].
  - intros Hr. apply resolve_and_launch_text in Hr.
    destruct Hr as [[H1 H2]|H]; [left|right; done].
    split; [done|]. rewrite H2. apply clear_outputs_errorText.
Qed.

Lemma shellspawn_status_and_error_text_witness :
  text_matches_status Sample.used_caller Sample2.not_found.
Proof.
  apply (shellspawn_status_and_error_text (Sample.usual []) 5
           (Sample.buffer_out (bytes "no_such_program_xyz")) Sample.used_caller).
  vm_compute. reflexivity.
Defined.


(* ===================================================================== *)
(** ** Nothing is launched before the program has been found              *)
(* ===================================================================== *)

Section Soundness.

Import Resolver.

Lemma path_search_sound (w : world) (name : list ascii) (fuel : nat) :
  ∀ env file_path,
    path_search fuel w env name = Some (Found file_path) →
    ExeFound w file_path = true ∧ ∃ dir, file_path = dir ++ [SLASH] ++ name.
Proof.
  induction fuel as [|fuel IH]; intros env file_path.
  - rewrite path_search_O. by destruct (Ascii.eqb _ _).
  - rewrite path_search_S. destruct (Ascii.eqb _ _); [done|].
    destruct (ExeFound w _) eqn:E.
    + intros [= <-]. split; [done|]. eauto.
    + apply IH.
Qed.

(** Whatever the search returns has passed [ExeFound], and is the program
    name itself or the name behind some directory and a slash. *)
Lemma resolve_sound (w : world) (name file_path : list ascii) (fuel : nat) :
  resolve fuel w name = Some (Found file_path) →
  ExeFound w file_path = true
  ∧ (file_path = name ∨ ∃ dir, file_path = dir ++ [SLASH] ++ name).
Proof.
  unfold resolve. destruct (ExeFound w name) eqn:E.
  - intros [= <-]. auto.
  - destruct (negb _); [|done]. destruct (env_PATH w); [|done].
    intros H. apply path_search_sound in H as [H1 H2]. auto.
Qed.

Lemma lifecycle_trace (w : world) (a : args) (c : caller) (evs : list event)
    (r : result) :
  lifecycle w a c evs = Some r → trace r = evs ∨ trace r = evs ++ [EvCleanUp].
Proof.
  unfold lifecycle, returned, finish.
  repeat match goal with
         | |- context [match ?x with _ => _ end] => destruct x
         | |- context [if ?b then _ else _] => destruct b
         end; intros [= <-]; auto.
Qed.

End Soundness.

(** X2: a process is forked, and a fortiori OK is returned, only after the
    command has been parsed and the search has found a file that passes
    [ExeFound]. *)
Theorem shellspawn_forks_only_what_it_found (w : world) (fuel : nat) (a : args)
    (c : caller) (r : result) :
  shellspawn w fuel a c = Some r →
  status r = SHELLSPAWN_OK ∨ Exists (λ e, is_fork e = true) (trace r) →
  ∃ file_path, resolved_to w fuel a file_path.
Proof.
  assert (Hnofork : ∀ evs, Forall (λ e, is_fork e = false) evs →
                           ¬ Exists (λ e, is_fork e = true) (evs ++ [EvCleanUp])).
  { intros evs Hevs Hex. apply Exists_app in Hex as [Hex|Hex].
    - apply Exists_exists in Hex as (e & He & Hf).
      rewrite Forall_forall in Hevs. specialize (Hevs e He). congruence.
    - by apply Exists_cons in Hex as [|Hex%Exists_nil]. }
  unfold shellspawn, returned.
  destruct (1 <? _);
    [intros [= <-] [|Hex%Exists_nil]; done|].
  destruct (1 <? _);
    [intros [= <-] [|Hex%Exists_nil]; done|].
  destruct (1 <? _);
    [intros [= <-] [|Hex%Exists_nil]; done|].
  pose proof (run_steps_events (λ e, is_fork e = false) (allocate_steps w a) []
                (Forall_nil_2 _) (allocate_never_forks w a)) as Hev.
  destruct (run_steps (allocate_steps w a) []) as [[s evs]|evs].
  - intros [= <-] [|Hex]; [done|]. simpl in Hex. by apply Hnofork in Hex.
  - unfold resolve_and_launch, returned.
    destruct (Parser.ParseCommand _ _ _) as [[|p]|] eqn:Hp;
      [intros [= <-] [|Hex]; [done|]; simpl in Hex; by apply Hnofork in Hex | | done].
    destruct (Parser.p_stray p); [|done].
    destruct (Resolver.resolve _ _ _) as [[fp|]|] eqn:Hr;
      [ | intros [= <-] [|Hex]; [done|]; simpl in Hex; by apply Hnofork in Hex | done].
    intros _ _. exists fp, p. repeat split; try done.
    by apply resolve_sound in Hr as [? _].
Qed.

Lemma shellspawn_forks_only_what_it_found_witness :
  ∃ file_path,
    resolved_to (Sample.usual [WaitStatus (Sys.exited 0)]) 5
      (Sample.buffer_out (bytes "/bin/echo hello")) file_path.
Proof.
  apply (shellspawn_forks_only_what_it_found
           (Sample.usual [WaitStatus (Sys.exited 0)]) 5
           (Sample.buffer_out (bytes "/bin/echo hello")) Sample.used_caller
           {| status := SHELLSPAWN_OK;
              after := with_rc 0 (joined (Sample.usual [WaitStatus (Sys.exited 0)])
                                    (Sample.buffer_out (bytes "/bin/echo hello"))
                                    (clear_outputs
                                       (Sample.buffer_out (bytes "/bin/echo hello"))
                                       Sample.used_caller));
              trace := [EvPipe U10; EvPipe U11; EvPipe U17; EvFork U33;
                        EvThread U34; EvThread U35; EvThread U36] |}).
  - vm_compute. reflexivity.
  - left. reflexivity.
Defined.

(* ===================================================================== *)
(** ** The output workers on arbitrary bytes and on failing reads          *)
(* ===================================================================== *)

Section WorkersInGeneral.

Import OutputWorker.

Lemma cstr_stops_at_nul (s rest : list ascii) :
  cstr (s ++ NUL :: rest) = cstr s.
Proof.
  induction s as [|c s IH]; simpl; [done|].
  destruct (is_nul c); [done|]. by rewrite IH.
Qed.

Lemma string_body_any (chunk lpBuffer : mem) (sOut : text) :
  (length chunk < length lpBuffer)%nat →
  (string_body true chunk lpBuffer sOut).2 = Some (default [] sOut ++ cstr chunk)
  ∧ length (string_body true chunk lpBuffer sOut).1 = length lpBuffer.
Proof.
  intros Hlen. unfold string_body. cbn [fst snd]. split.
  - rewrite terminate_chunk by done. unfold appendTextOutput.
    rewrite cstr_stops_at_nul. by destruct sOut.
  - by apply length_terminate_chunk.
Qed.

Lemma HandleOutputToString_any (chunks : list (list ascii)) :
  ∀ (lpBuffer : mem) (sOut : text),
    length lpBuffer = 257%nat →
    well_chunked chunks →
    s_out (HandleOutputToString (RdData <$> chunks) true lpBuffer sOut)
    = Some (default [] sOut ++ concat (cstr <$> chunks)).
Proof.
  induction chunks as [|chunk chunks IH]; intros lpBuffer sOut Hlen Hwc.
  - cbn [fmap list_fmap HandleOutputToString].
    destruct (string_body_any [] lpBuffer sOut) as [Ho _]; [simpl; lia|].
    destruct (string_body true [] lpBuffer sOut) as [b o]. simpl in *.
    by subst o.
  - inversion Hwc as [|? ? Hc Hwc']; subst.
    cbn [fmap list_fmap HandleOutputToString].
    destruct (string_body_any chunk lpBuffer sOut) as [Ho Hl]; [lia|].
    destruct (string_body true chunk lpBuffer sOut) as [b o]. simpl in Ho, Hl.
    destruct chunk as [|x chunk]; [simpl in Hc; lia|].
    fold (list_fmap _ _ RdData chunks).
    rewrite IH by (done || lia). rewrite Ho, concat_cons.
    simpl default. unfold id. by rewrite <- app_assoc.
Qed.

(** A failing read ends [HandleOutputToString] with the error set and
    with what was collected so far. *)
Lemma HandleOutputToString_until_error (chunks : list (list ascii))
    (rest : list ReadResult) :
  ∀ (lpBuffer : mem) (sOut : text),
    length lpBuffer = 257%nat →
    well_chunked chunks →
    let r := HandleOutputToString ((RdData <$> chunks) ++ RdError :: rest)
               true lpBuffer sOut in
    s_error r = true
    ∧ s_out r = match chunks with
                | [] => sOut
                | _ :: _ => Some (default [] sOut ++ concat (cstr <$> chunks))
                end.
Proof.
  induction chunks as [|chunk chunks IH]; intros lpBuffer sOut Hlen Hwc; [done|].
  inversion Hwc as [|? ? Hc Hwc']; subst.
  cbn [fmap list_fmap app HandleOutputToString].
  destruct (string_body_any chunk lpBuffer sOut) as [Ho Hl]; [lia|].
  destruct (string_body true chunk lpBuffer sOut) as [b o]. simpl in Ho, Hl.
  destruct chunk as [|x chunk]; [simpl in Hc; lia|].
  fold (list_fmap _ _ RdData chunks).
  destruct (IH b o) as [He Hs]; [lia | done |].
  split; [exact He|]. cbn zeta in Hs. rewrite Hs, Ho, concat_cons.
  destruct chunks; simpl default; unfold id.
  - by rewrite app_nil_r.
  - by rewrite <- app_assoc.
Qed.

(** *** The line array *)

Lemma vector_step_array (i : nat) (st : VState) :
  is_Some (v_aOut st) → is_Some (v_aOut (vector_step i st)).
Proof.
  unfold vector_step. destruct (Ascii.eqb _ _); [|done].
  intros _. simpl. by destruct (v_aOut st).
Qed.

Lemma vector_for_array (k : nat) :
  ∀ i st, vector_for k i st = st ∨ is_Some (v_aOut (vector_for k i st)).
Proof.
  induction k as [|k IH]; intros i st; simpl; [auto|].
  destruct (IH (S i) (vector_step i st)) as [->|H]; [|auto].
  unfold vector_step. destruct (Ascii.eqb _ _); [|auto].
  right. simpl. by destruct (v_aOut st).
Qed.

Lemma vector_for_array_kept (k : nat) :
  ∀ i st, is_Some (v_aOut st) → is_Some (v_aOut (vector_for k i st)).
Proof.
  induction k as [|k IH]; intros i st H; simpl; [done|].
  by apply IH, vector_step_array.
Qed.

(** After a chunk that is not empty something is held: a line in the
    array or a fragment in [buffer]. *)
Lemma vector_body_holds (chunk lpBuffer : mem) (buffer : text) (aOut : textarray) :
  chunk ≠ [] →
  let st := vector_body chunk lpBuffer buffer aOut in
  is_Some (v_aOut st) ∨ is_Some (v_buffer st).
Proof.
  intros Hne. unfold vector_body.
  set (st0 := {| v_lpBuffer := read_into lpBuffer chunk; v_start := 0;
                 v_buffer := buffer; v_aOut := aOut |}).
  destruct (vector_for_array (length chunk) 0 st0) as [->|H].
  - subst st0. cbn [v_start].
    destruct (Nat.ltb_spec 0 (length chunk)) as [_|Hlen].
    + right. cbn [v_buffer]. unfold appendTextOutput. by destruct buffer.
    + destruct chunk; [done | simpl in Hlen; lia].
  - left. by destruct (_ <? _)%nat.
Qed.

Lemma vector_body_array_kept (chunk lpBuffer : mem) (buffer : text) (aOut : textarray) :
  is_Some aOut → is_Some (v_aOut (vector_body chunk lpBuffer buffer aOut)).
Proof.
  intros H. unfold vector_body.
  set (st0 := {| v_lpBuffer := read_into lpBuffer chunk; v_start := 0;
                 v_buffer := buffer; v_aOut := aOut |}).
  pose proof (vector_for_array_kept (length chunk) 0 st0 H).
  by destruct (_ <? _)%nat.
Qed.

Lemma vector_finish_holds (st : VState) :
  is_Some (v_aOut st) ∨ is_Some (v_buffer st) →
  is_Some (r_aOut (vector_finish st)).
Proof.
  unfold vector_finish. intros [H|[line H]].
  - destruct (v_buffer st); simpl; [by destruct (v_aOut st) | done].
  - rewrite H. simpl. by destruct (v_aOut st).
Qed.

Lemma vector_loop_holds (chunks : list (list ascii)) :
  ∀ lpBuffer buffer aOut,
    well_chunked chunks →
    is_Some aOut ∨ is_Some buffer →
    is_Some (r_aOut (vector_loop (RdData <$> chunks) lpBuffer buffer aOut)).
Proof.
  induction chunks as [|chunk chunks IH]; intros lpBuffer buffer aOut Hwc Hheld.
  - cbn [fmap list_fmap vector_loop]. apply vector_finish_holds.
    destruct Hheld as [H|H]; [left|right]; done.
  - inversion Hwc as [|? ? Hc Hwc']; subst.
    cbn [fmap list_fmap vector_loop].
    destruct chunk as [|x chunk]; [simpl in Hc; lia|].
    fold (list_fmap _ _ RdData chunks).
    apply IH; [done|]. by apply vector_body_holds.
Qed.

End WorkersInGeneral.

(** X3: whatever the bytes, a Buffer binding collects of every chunk the
    bytes before its first zero byte: the result is the concatenation of
    the chunks cut at their first NUL, so with zero bytes in the output it
    depends on how the reads chunk it. *)
Theorem Buffer_collects_chunks_up_to_NUL (chunks : list (list ascii)) (lpBuffer : mem) :
  length lpBuffer = 257%nat →
  well_chunked chunks →
  OutputWorker.s_out
    (OutputWorker.HandleOutputToString (RdData <$> chunks) true lpBuffer None)
  = Some (concat (cstr <$> chunks)).
Proof.
  intros Hlen Hwc. by rewrite HandleOutputToString_any.
Qed.

Lemma Buffer_collects_chunks_up_to_NUL_witness :
  OutputWorker.s_out
    (OutputWorker.HandleOutputToString
       (RdData <$> [["a"%char; NUL; "b"%char]; ["c"%char]]) true stack_buffer None)
  = Some (bytes "ac").
Proof.
  apply (Buffer_collects_chunks_up_to_NUL
           [["a"%char; NUL; "b"%char]; ["c"%char]] stack_buffer).
  - reflexivity.
  - chunked_tac.
Defined.

(** X4: a read that fails ends the Buffer worker with its error set; the
    holder keeps what the earlier reads delivered, each chunk cut at its
    first NUL, and stays NULL when there was no earlier read. *)
Theorem Buffer_keeps_output_on_read_error (chunks : list (list ascii))
    (rest : list ReadResult) (lpBuffer : mem) :
  length lpBuffer = 257%nat →
  well_chunked chunks →
  OutputWorker.s_error
    (OutputWorker.HandleOutputToString ((RdData <$> chunks) ++ RdError :: rest)
       true lpBuffer None) = true
  ∧ OutputWorker.s_out
      (OutputWorker.HandleOutputToString ((RdData <$> chunks) ++ RdError :: rest)
         true lpBuffer None)
    = match chunks with
      | [] => None
      | _ :: _ => Some (concat (cstr <$> chunks))
      end.
Proof.
  intros Hlen Hwc.
  destruct (HandleOutputToString_until_error chunks rest lpBuffer None Hlen Hwc)
    as [He Hs].
  split; [exact He|]. cbn zeta in Hs. rewrite Hs.
  by destruct chunks.
Qed.

Lemma Buffer_keeps_output_on_read_error_witness :
  OutputWorker.s_error
    (OutputWorker.HandleOutputToString
       ((RdData <$> [bytes "par"; Sample.nul_inside; bytes "tial"])
          ++ RdError :: [RdData (bytes "lost")])
       true stack_buffer None) = true
  ∧ OutputWorker.s_out
      (OutputWorker.HandleOutputToString
         ((RdData <$> [bytes "par"; Sample.nul_inside; bytes "tial"])
            ++ RdError :: [RdData (bytes "lost")])
         true stack_buffer None)
    = Some (bytes "paratial").
Proof.
  apply (Buffer_keeps_output_on_read_error
           [bytes "par"; Sample.nul_inside; bytes "tial"]
           [RdData (bytes "lost")] stack_buffer).
  - reflexivity.
  - chunked_tac.
Defined.

(** X5: with a Lines binding the array stays NULL exactly when the child
    wrote nothing; any output at all, whatever its bytes, leaves an array
    with at least one line. *)
Theorem Lines_array_null_iff_no_output (chunks : list (list ascii)) (lpBuffer : mem) :
  well_chunked chunks →
  (OutputWorker.r_aOut
     (OutputWorker.HandleOutputToVector (RdData <$> chunks) lpBuffer None) = None
   ↔ chunks = []).
Proof.
  intros Hwc. unfold OutputWorker.HandleOutputToVector. split.
  - destruct chunks as [|chunk chunks]; [done|]. intros Hnone. exfalso.
    inversion Hwc as [|? ? Hc Hwc']; subst.
    cbn [fmap list_fmap OutputWorker.vector_loop] in Hnone.
    destruct chunk as [|x chunk]; [simpl in Hc; lia|].
    fold (list_fmap _ _ RdData chunks) in Hnone.
    pose proof (vector_body_holds (x :: chunk) lpBuffer None None ltac:(done)) as Hheld.
    cbn zeta in Hheld.
    pose proof (vector_loop_holds chunks
                  (OutputWorker.v_lpBuffer
                     (OutputWorker.vector_body (x :: chunk) lpBuffer None None))
                  _ _ Hwc' Hheld) as [a Ha].
    congruence.
  - intros ->. reflexivity.
Qed.

Lemma Lines_array_null_iff_no_output_witness :
  OutputWorker.r_aOut
    (OutputWorker.HandleOutputToVector (RdData <$> []) stack_buffer None) = None
  ↔ @nil (list ascii) = [].
Proof.
  apply (Lines_array_null_iff_no_output [] stack_buffer). chunked_tac.
Defined.

Section VectorOnError.

Import OutputWorker.

Lemma vector_loop_until_error (chunks : list (list ascii)) (rest : list ReadResult) :
  ∀ (lpBuffer : mem) (buffer : text) (aOut : textarray),
    length lpBuffer = 257%nat →
    well_chunked chunks →
    Forall nul_free chunks →
    pending_ok buffer →
    let r := vector_loop ((RdData <$> chunks) ++ RdError :: rest) lpBuffer buffer aOut in
    r_error r = true
    ∧ lines_of (r_aOut r)
      = (feed (lines_of aOut, default [] buffer) (concat chunks)).1.
Proof.
  induction chunks as [|chunk chunks IH]; intros lpBuffer buffer aOut Hlen Hwc Hnf Hok;
    [done|].
  inversion Hwc as [|? ? Hc Hwc']; inversion Hnf as [|? ? Hn Hnf']; subst.
  cbn [fmap list_fmap app vector_loop concat].
  destruct (vector_body_feeds chunk lpBuffer buffer aOut) as (Hf & Hok' & Hl);
    [lia | done | done |].
  cbn zeta in Hf, Hok', Hl.
  destruct chunk as [|x chunk]; [simpl in Hc; lia|].
  fold (list_fmap _ _ RdData chunks).
  rewrite feed_app, Hf.
  apply IH; [lia | done | done | done].
Qed.

Lemma complete_lines_feed (B : list ascii) :
  complete_lines B = (feed ([], []) B).1.
Proof. unfold complete_lines. rewrite split_on_feed. apply removelast_snoc. Qed.

End VectorOnError.

(** X6: for output without zero bytes, a read that fails ends the Lines
    worker with its error set; the array holds the lines that were
    complete (terminated by '\n') in what the earlier reads delivered,
    and the unterminated fragment after the last newline is not
    appended. *)
Theorem Lines_keeps_complete_lines_on_read_error (chunks : list (list ascii))
    (rest : list ReadResult) (lpBuffer : mem) :
  length lpBuffer = 257%nat →
  well_chunked chunks →
  Forall nul_free chunks →
  OutputWorker.r_error
    (OutputWorker.HandleOutputToVector ((RdData <$> chunks) ++ RdError :: rest)
       lpBuffer None) = true
  ∧ lines_of
      (OutputWorker.r_aOut
         (OutputWorker.HandleOutputToVector ((RdData <$> chunks) ++ RdError :: rest)
            lpBuffer None))
    = complete_lines (concat chunks).
Proof.
  intros Hlen Hwc Hnf. unfold OutputWorker.HandleOutputToVector.
  destruct (vector_loop_until_error chunks rest lpBuffer None None Hlen Hwc Hnf)
    as [He Hl]; [done|].
  split; [exact He|]. cbn zeta in Hl. rewrite Hl. by rewrite complete_lines_feed.
Qed.

Lemma Lines_keeps_complete_lines_on_read_error_witness :
  OutputWorker.r_error
    (OutputWorker.HandleOutputToVector
       ((RdData <$> [bytes "on"; ["e"%char; NL; "t"%char; "w"%char]]) ++ RdError :: [])
       stack_buffer None) = true
  ∧ lines_of
      (OutputWorker.r_aOut
         (OutputWorker.HandleOutputToVector
            ((RdData <$> [bytes "on"; ["e"%char; NL; "t"%char; "w"%char]])
               ++ RdError :: [])
            stack_buffer None))
    = [bytes "one"].
Proof.
  apply (Lines_keeps_complete_lines_on_read_error
           [bytes "on"; ["e"%char; NL; "t"%char; "w"%char]] [] stack_buffer).
  - reflexivity.
  - chunked_tac.
  - all_nul_free_tac.
Defined.

(* ===================================================================== *)
(** ** When waiting fails                                                 *)
(* ===================================================================== *)

Section WaitFailures.

Import Waiting.

Lemma wait_loop_fails (before : list Z) (rest : list wait_result) :
  still_running before →
  wait_loop ((WaitStatus <$> before) ++ WaitError :: rest) = WaitFailed.
Proof.
  intros Hb. induction Hb as [|s before [H1 H2] _ IH]; simpl; [done|].
  rewrite H1, H2. simpl. exact IH.
Qed.

Lemma ProxyWorker_fails (before : list Z) (rest : list wait_result) :
  ∀ handoffs,
    Forall (λ b, b = false) handoffs →
    still_running before →
    ProxyWorker ((WaitStatus <$> before) ++ WaitError :: rest) handoffs = Some (-1).
Proof.
  intros handoffs Hh Hb. revert handoffs Hh.
  induction Hb as [|s before [H1 H2] _ IH]; intros handoffs Hh; simpl; [done|].
  assert (default false (head handoffs) = false) as ->
      by (destruct Hh as [|? ? -> _]; done).
  rewrite andb_false_r, H1, H2. simpl. apply IH.
  destruct (Sys.WIFSTOPPED s && _); [|done].
  destruct Hh; [constructor | done].
Qed.

(** The caller's variables after a wait that ended with [status], in a
    quiet run. *)
Lemma WaitForProcess_after (w : world) (a : args) (c : caller) (status : Z) :
  quiet w →
  wait_loop (if fIn a then proxy_waits w else child_waits w) = WaitDone status →
  WaitForProcess w a c
  = Some (joined w a c,
          {| inThread := None; outThread := None; errThread := None;
             waitThread := None;
             ChildProcessRC := Sys.WEXITSTATUS status |}).
Proof.
  intros Hquiet Hloop.
  pose proof Hquiet as [Hq Hh _ _ Hin _].
  unfold WaitForProcess, joined. rewrite Hloop.
  rewrite !Hq, !andb_false_r, Hin.
  destruct (pOut a).
  - destruct (pErr a).
    + by destruct (pIn a).
    + destruct (HandleErrorThread_quiet w a c Hquiet) as [He _].
      destruct (HandleErrorThread w a c) as [c1 e]. simpl in He. subst e.
      by destruct (pIn a).
  - destruct (HandleOutputThread_quiet w a c Hquiet) as [Ho _].
    destruct (HandleOutputThread w a c) as [c1 o]. simpl in Ho. subst o.
    cbn [fst].
    destruct (pErr a).
    + by destruct (pIn a).
    + destruct (HandleErrorThread_quiet w a c1 Hquiet) as [He _].
      destruct (HandleErrorThread w a c1) as [c2 e]. simpl in He. subst e.
      by destruct (pIn a).
Qed.

End WaitFailures.

(** X7: without an input callback, for a command that parses without a
    store outside the argument array (no quoted argument) and resolves, a
    [waitpid] that fails makes [shellspawn] return SHELLSPAWN_FAILURE with
    the text of U43 appended to the error text, after CleanUp, and [*rc]
    is not written. *)
Theorem waitpid_failure_is_reported (w : world) (fuel : nat) (a : args)
    (c : caller) (before : list Z) (rest : list wait_result) :
  quiet w →
  (∀ s, bindings a s ≤ 1) →
  resolves w fuel a →
  fIn a = false →
  child_waits w = (WaitStatus <$> before) ++ WaitError :: rest →
  still_running before →
  ∃ r, shellspawn w fuel a c = Some r
       ∧ status r = SHELLSPAWN_FAILURE
       ∧ c_errorText (after r) = Some (default [] (c_errorText c) ++ [U43])
       ∧ c_rc (after r) = c_rc c
       ∧ last (trace r) = Some EvCleanUp.
Proof.
  intros Hquiet Hb (p & file_path & Hparse & Hstray & Hres) Hfin Hw Hrun.
  pose proof (quiet_calls w Hquiet) as Hq.
  rewrite validation_passes by done.
  destruct (allocate_quiet w a Hq) as (evs & ->).
  unfold resolve_and_launch. rewrite !Hq. simpl negb. rewrite Hparse, Hstray, Hres.
  destruct (launch_quiet w a evs Hq) as (evs' & ->).
  unfold lifecycle. rewrite callback_loop_quiet by done.
  unfold WaitForProcess. rewrite Hfin, Hw, wait_loop_fails by done.
  rewrite (Hq U38).
  destruct (any_callback a); (eexists; split; [reflexivity|]); simpl;
    rewrite clear_outputs_errorText, clear_outputs_rc, last_snoc; done.
Qed.

Lemma waitpid_failure_is_reported_witness :
  ∃ r, shellspawn (Sample.usual [WaitStatus 4991; WaitError]) 5
         (Sample.buffer_out (bytes "/bin/echo hello")) Sample.used_caller = Some r
       ∧ status r = SHELLSPAWN_FAILURE
       ∧ c_errorText (after r) = Some (default [] (c_errorText Sample.used_caller) ++ [U43])
       ∧ c_rc (after r) = c_rc Sample.used_caller
       ∧ last (trace r) = Some EvCleanUp.
Proof.
  apply (waitpid_failure_is_reported (Sample.usual [WaitStatus 4991; WaitError]) 5
           (Sample.buffer_out (bytes "/bin/echo hello")) Sample.used_caller [4991] []).
  - quiet_sample.
  - well_bound_sample.
  - resolves_sample.
  - reflexivity.
  - reflexivity.
  - repeat constructor.
Defined.

(** X8: with an input callback, for a command that parses without a
    store outside the argument array (no quoted argument) and resolves, a
    [waitpid] that fails inside the proxy cannot be told from a child that
    exits with code 255: the proxy exits with -1 and [shellspawn] returns
    SHELLSPAWN_OK with 255 in [*rc]. *)
Theorem proxy_failure_looks_like_exit_255 (w : world) (fuel : nat) (a : args)
    (c : caller) (before : list Z) (rest : list wait_result) :
  quiet w →
  (∀ s, bindings a s ≤ 1) →
  resolves w fuel a →
  fIn a = true →
  child_waits w = (WaitStatus <$> before) ++ WaitError :: rest →
  still_running before →
  ∃ r, shellspawn w fuel a c = Some r
       ∧ status r = SHELLSPAWN_OK
       ∧ c_rc (after r) = 255.
Proof.
  intros Hquiet Hb (p & file_path & Hparse & Hstray & Hres) Hfin Hw Hrun.
  pose proof (quiet_calls w Hquiet) as Hq.
  rewrite validation_passes by done.
  destruct (allocate_quiet w a Hq) as (evs & ->).
  unfold resolve_and_launch. rewrite !Hq. simpl negb. rewrite Hparse, Hstray, Hres.
  destruct (launch_quiet w a evs Hq) as (evs' & ->).
  unfold lifecycle. rewrite callback_loop_quiet by done.
  rewrite (WaitForProcess_after w a _ (Sys.exited (-1))); [|done|].
  - rewrite (Hq U38).
    destruct (any_callback a); (eexists; split; [reflexivity|]); done.
  - rewrite Hfin. unfold Waiting.proxy_waits, Waiting.proxy_exit_code,
      Waiting.proxy_setup_ok.
    rewrite !Hq. simpl. rewrite Hw, ProxyWorker_fails; [done | | done].
    apply (quiet_handoffs w Hquiet).
Qed.

Lemma proxy_failure_looks_like_exit_255_witness :
  ∃ r, shellspawn (Sample.usual [WaitStatus 5503; WaitError]) 5
         (Sample2.callback_in (bytes "/bin/echo hello")) Sample.used_caller = Some r
       ∧ status r = SHELLSPAWN_OK
       ∧ c_rc (after r) = 255.
Proof.
  apply (proxy_failure_looks_like_exit_255 (Sample.usual [WaitStatus 5503; WaitError]) 5
           (Sample2.callback_in (bytes "/bin/echo hello")) Sample.used_caller [5503] []).
  - quiet_sample.
  - well_bound_sample.
  - resolves_sample.
  - reflexivity.
  - reflexivity.
  - repeat constructor.
Defined.

(** X9: [ProxyWorker] returns the exit-status byte of the first status
    that is exited or signaled, however many stops and continues precede
    it, provided no hand-over of the terminal fails. *)
Theorem ProxyWorker_returns_child_exit_status (before : list Z) (last : Z)
    (rest : list wait_result) (handoffs : list bool) :
  Forall (λ b, b = false) handoffs →
  still_running before →
  Sys.WIFEXITED last = true ∨ Sys.WIFSIGNALED last = true →
  Waiting.ProxyWorker ((WaitStatus <$> before) ++ WaitStatus last :: rest) handoffs
  = Some (Sys.WEXITSTATUS last).
Proof. intros Hh Hb Hl. by apply ProxyWorker_ends. Qed.

Lemma ProxyWorker_returns_child_exit_status_witness :
  Waiting.ProxyWorker
    ((WaitStatus <$> [5503; 65535; 4991]) ++ WaitStatus (Sys.exited 7) :: [WaitError])
    [false; false]
  = Some 7.
Proof.
  apply (ProxyWorker_returns_child_exit_status [5503; 65535; 4991] (Sys.exited 7)
           [WaitError] [false; false]).
  - repeat constructor.
  - repeat constructor.
  - by left.
Defined.

(* ===================================================================== *)
(** ** The input worker                                                   *)
(* ===================================================================== *)

Section InputSide.

Import InputWorker.

(** What the loop has put into the pipe is always the first
    [nTotalWrote] bytes of the line. *)
Lemma write_loop_prefix (writes : list WriteResult) (line : list ascii) :
  ∀ total pipe0 rc pipe writes',
    write_loop writes line total (pipe0 ++ take total line) = Some (rc, pipe, writes') →
    (rc = 0 ∧ pipe = pipe0 ++ line)
    ∨ ((rc = 1 ∨ rc = -1) ∧ ∃ k, pipe = pipe0 ++ take k line).
Proof.
  induction writes as [|r writes IH]; intros total pipe0 rc pipe writes'; simpl.
  - destruct (Nat.ltb_spec total (length line)); [done|].
    intros [= <- <- <-]. left. split; [done|]. by rewrite take_ge.
  - destruct (Nat.ltb_spec total (length line)).
    + destruct r as [n| |].
      * rewrite <- app_assoc, take_take_drop. apply IH.
      * intros [= <- <- <-]. right. eauto.
      * intros [= <- <- <-]. right. eauto.
    + intros [= <- <- <-]. left. split; [done|]. by rewrite take_ge.
Qed.

(** What a call leaves in the pipe beyond what was there: [sent]. *)
Lemma WriteToStdin_outcomes (line : mem) (st st' : in_state) (rc : Z) :
  WriteToStdin true line st = Some (rc, st') →
  ∃ sent,
    i_pipe st' = i_pipe st ++ sent
    ∧ ((rc = 0 ∧ sent = cstr line ∧ i_error st' = i_error st)
       ∨ (rc = 1 ∧ sent `prefix_of` cstr line ∧ i_error st' = i_error st)
       ∨ (rc = -1 ∧ sent `prefix_of` cstr line ∧ i_error st' = Some UIn)).
Proof.
  unfold WriteToStdin. simpl negb. cbv iota.
  destruct (write_loop _ _ _ _) as [[[rc0 pipe] writes]|] eqn:E; [|done].
  intros [= <- <-].
  replace (i_pipe st) with (i_pipe st ++ take 0 (cstr line)) in E
    by (by rewrite take_0, app_nil_r).
  apply write_loop_prefix in E as [[-> ->]|[[-> | ->] [k ->]]]; simpl;
    eexists; (split; [reflexivity|]); auto using prefix_take.
Qed.

(** Whatever the writes do, the child receives a prefix of the lines'
    text; a closed pipe ends the worker without an error. *)
Lemma HandleStdinFromVector_prefix (aInput : list mem) :
  ∀ st st',
    HandleStdinFromVector true aInput st = Some st' →
    ∃ sent,
      i_pipe st' = i_pipe st ++ sent
      ∧ sent `prefix_of` lines_text aInput
      ∧ (i_error st' = i_error st ∨ i_error st' = Some UIn).
Proof.
  induction aInput as [|line aInput IH]; intros st st'.
  - intros [= <-]. exists []. rewrite app_nil_r.
    split; [done|]. split; [apply prefix_nil|by left].
  - cbn [HandleStdinFromVector].
    destruct (WriteToStdin true line st) as [[rc1 st1]|] eqn:E1; [|done].
    apply WriteToStdin_outcomes in E1 as (sent1 & Hp1 & E1).
    unfold lines_text. rewrite fmap_cons, concat_cons. fold (lines_text aInput).
    rewrite <- app_assoc.
    destruct E1 as [(-> & -> & He1)|[(-> & Hs1 & He1)|(-> & Hs1 & He1)]];
      simpl negb; cbv iota.
    + destruct (WriteToStdin true [NL] st1) as [[rc2 st2]|] eqn:E2; [|done].
      apply WriteToStdin_outcomes in E2 as (sent2 & Hp2 & E2).
      change (cstr [NL]) with [NL] in E2.
      destruct E2 as [(-> & -> & He2)|[(-> & Hs2 & He2)|(-> & Hs2 & He2)]];
        simpl negb; cbv iota.
      * intros H. apply IH in H as (sent & Hp & Hs & He).
        exists (cstr line ++ [NL] ++ sent). split; [|split].
        -- rewrite Hp, Hp2, Hp1, <- !app_assoc. done.
        -- by do 2 apply prefix_app.
        -- rewrite He2, He1 in He. exact He.
      * intros [= <-]. exists (cstr line ++ sent2). split; [|split].
        -- rewrite Hp2, Hp1, <- !app_assoc. done.
        -- apply prefix_app. by apply prefix_app_r.
        -- left. congruence.
      * intros [= <-]. exists (cstr line ++ sent2). split; [|split].
        -- rewrite Hp2, Hp1, <- !app_assoc. done.
        -- apply prefix_app. by apply prefix_app_r.
        -- by right.
    + intros [= <-]. exists sent1. split; [done|]. split; [|by left].
      by apply prefix_app_r.
    + intros [= <-]. exists sent1. split; [done|]. split; [|by right].
      by apply prefix_app_r.
Qed.

(** *** When every write makes progress *)

Lemma write_loop_completes (writes : list WriteResult) (line : list ascii) :
  ∀ total pipe,
    all_progress writes →
    (length line - total ≤ length writes)%nat →
    ∃ writes',
      write_loop writes line total pipe = Some (0, pipe ++ drop total line, writes')
      ∧ all_progress writes'
      ∧ (length writes - (length line - total) ≤ length writes')%nat.
Proof.
  induction writes as [|r writes IH]; intros total pipe Hall Hlen; simpl.
  - simpl in Hlen. destruct (Nat.ltb_spec total (length line)); [lia|].
    exists []. rewrite drop_ge, app_nil_r by lia. done.
  - destruct (Nat.ltb_spec total (length line)).
    + inversion Hall as [|? ? [n ->] Hall']; subst.
      destruct (IH (total + S n)%nat (pipe ++ take (S n) (drop total line)) Hall')
        as (writes' & Hrun & Hall'' & Hleft); [simpl in Hlen; lia|].
      exists writes'. split; [|split; [done|simpl; lia]].
      rewrite Hrun. rewrite <- app_assoc, <- drop_drop, take_drop. done.
    + exists (r :: writes). rewrite drop_ge, app_nil_r by lia.
      split; [done|]. split; [done|]. simpl. lia.
Qed.

Lemma WriteToStdin_completes (line : mem) (st : in_state) :
  all_progress (i_writes st) →
  (length (cstr line) ≤ length (i_writes st))%nat →
  ∃ st', WriteToStdin true line st = Some (0, st')
         ∧ i_pipe st' = i_pipe st ++ cstr line
         ∧ i_error st' = i_error st
         ∧ i_closed st' = i_closed st
         ∧ all_progress (i_writes st')
         ∧ (length (i_writes st) - length (cstr line) ≤ length (i_writes st'))%nat.
Proof.
  intros Hall Hlen. unfold WriteToStdin. simpl negb. cbv iota.
  destruct (write_loop_completes (i_writes st) (cstr line) 0 (i_pipe st) Hall)
    as (writes' & -> & Hall' & Hleft); [lia|].
  eexists. split; [reflexivity|]. simpl. rewrite Nat.sub_0_r in Hleft. done.
Qed.

Lemma HandleStdinFromVector_completes (aInput : list mem) :
  ∀ st,
    all_progress (i_writes st) →
    (length (lines_text aInput) ≤ length (i_writes st))%nat →
    ∃ st', HandleStdinFromVector true aInput st = Some st'
           ∧ i_pipe st' = i_pipe st ++ lines_text aInput
           ∧ i_error st' = i_error st
           ∧ i_closed st' = i_closed st.
Proof.
  induction aInput as [|line aInput IH]; intros st Hall Hlen.
  - exists st. by rewrite app_nil_r.
  - unfold lines_text in Hlen. rewrite fmap_cons, concat_cons in Hlen.
    fold (lines_text aInput) in Hlen. rewrite !length_app in Hlen. simpl in Hlen.
    cbn [HandleStdinFromVector].
    destruct (WriteToStdin_completes line st Hall) as
      (st1 & -> & Hp1 & He1 & Hc1 & Hall1 & Hleft1); [lia|].
    simpl negb. cbv iota.
    destruct (WriteToStdin_completes [NL] st1 Hall1) as
      (st2 & -> & Hp2 & He2 & Hc2 & Hall2 & Hleft2); [simpl; lia|].
    simpl negb. cbv iota. simpl in Hleft2.
    destruct (IH st2 Hall2) as (st' & -> & Hp & He & Hc); [lia|].
    exists st'. split; [done|]. split; [|split; congruence].
    rewrite Hp, Hp2, Hp1. unfold lines_text at 2.
    rewrite fmap_cons, concat_cons, <- !app_assoc. done.
Qed.

End InputSide.

(** X10: when no [write] fails for another reason than a closed pipe,
    what the child has received on stdin when [HandleStdinFromVector]
    returns is a prefix of the lines' text (each line followed by '\n',
    in order), however the writes split it, and no error is recorded: a
    closed pipe (EPIPE) ends the worker quietly. *)
Theorem Lines_input_arrives_in_order (aInput : list mem)
    (st st' : InputWorker.in_state) :
  InputWorker.i_error st = None →
  Forall (λ r, r ≠ InputWorker.WrFailed) (InputWorker.i_writes st) →
  InputWorker.HandleStdinFromVector true aInput st = Some st' →
  (∃ sent, InputWorker.i_pipe st' = InputWorker.i_pipe st ++ sent
           ∧ sent `prefix_of` InputWorker.lines_text aInput)
  ∧ InputWorker.i_error st' = None.
Proof.
  intros Herr Hnofail Hrun.
  destruct (HandleStdinFromVector_prefix aInput st st' Hrun) as (sent & Hp & Hs & He).
  split; [eauto|].
  destruct He as [He|He]; [congruence|]. exfalso.
  clear Hp Hs sent. revert st st' Herr Hnofail Hrun He.
  assert (Hloop : ∀ writes line total pipe rc pipe' writes',
            Forall (λ r, r ≠ InputWorker.WrFailed) writes →
            InputWorker.write_loop writes line total pipe = Some (rc, pipe', writes') →
            rc ≠ -1 ∧ Forall (λ r, r ≠ InputWorker.WrFailed) writes').
  { induction writes as [|r writes IH]; intros line total pipe rc pipe' writes' Hnf; simpl.
    - destruct (_ <? _)%nat; [done|]. by intros [= <- <- <-].
    - inversion Hnf as [|? ? Hr Hnf']; subst.
      destruct (_ <? _)%nat; [|by intros [= <- <- <-]].
      destruct r; [apply IH; done | by intros [= <- <- <-] | done]. }
  assert (Hwrite : ∀ line st rc st',
            InputWorker.i_error st = None →
            Forall (λ r, r ≠ InputWorker.WrFailed) (InputWorker.i_writes st) →
            InputWorker.WriteToStdin true line st = Some (rc, st') →
            InputWorker.i_error st' = None
            ∧ Forall (λ r, r ≠ InputWorker.WrFailed) (InputWorker.i_writes st')).
  { intros line st rc st' Herr Hnf. unfold InputWorker.WriteToStdin. simpl negb. cbv iota.
    destruct (InputWorker.write_loop _ _ _ _) as [[[rc0 pipe] writes]|] eqn:E; [|done].
    apply Hloop in E as [Hrc Hnf']; [|done].
    intros [= <- <-]. destruct (Z.eqb_spec rc0 (-1)); [done|]. done. }
  induction aInput as [|line aInput IH]; intros st st' Herr Hnf; cbn [InputWorker.HandleStdinFromVector].
  - intros [= <-]. congruence.
  - destruct (InputWorker.WriteToStdin true line st) as [[rc1 st1]|] eqn:E1; [|done].
    apply Hwrite in E1 as [He1 Hnf1]; [|done..].
    destruct (negb (rc1 =? 0)); [intros [= <-]; congruence|].
    destruct (InputWorker.WriteToStdin true [NL] st1) as [[rc2 st2]|] eqn:E2; [|done].
    apply Hwrite in E2 as [He2 Hnf2]; [|done..].
    destruct (negb (rc2 =? 0)); [intros [= <-]; congruence|].
    by apply IH.
Qed.

Lemma Lines_input_arrives_in_order_witness :
  (∃ sent,
      InputWorker.i_pipe
        {| InputWorker.i_pipe := bytes "one" ++ [NL] ++ bytes "t";
           InputWorker.i_writes := [InputWorker.Wrote 9];
           InputWorker.i_error := None; InputWorker.i_closed := false |}
      = InputWorker.i_pipe
          (InputWorker.fresh
             [InputWorker.Wrote 2; InputWorker.Wrote 1; InputWorker.Wrote 1;
              InputWorker.Wrote 1; InputWorker.WrBrokenPipe; InputWorker.Wrote 9])
        ++ sent
      ∧ sent `prefix_of` InputWorker.lines_text [bytes "one"; bytes "two"])
  ∧ InputWorker.i_error
      {| InputWorker.i_pipe := bytes "one" ++ [NL] ++ bytes "t";
         InputWorker.i_writes := [InputWorker.Wrote 9];
         InputWorker.i_error := None; InputWorker.i_closed := false |} = None.
Proof.
  apply (Lines_input_arrives_in_order [bytes "one"; bytes "two"]
           (InputWorker.fresh
              [InputWorker.Wrote 2; InputWorker.Wrote 1; InputWorker.Wrote 1;
               InputWorker.Wrote 1; InputWorker.WrBrokenPipe; InputWorker.Wrote 9])).
  - reflexivity.
  - repeat (constructor; [discriminate|]). constructor.
  - reflexivity.
Defined.

(** X11: when every [write] takes at least one byte and there are as many
    of them as the lines' text has bytes, the input worker returns, the
    child has received exactly each line followed by '\n', in order, no
    error is recorded and the write end is closed; this holds however the
    writes split the text. *)
Theorem Lines_input_is_delivered (aInput : list mem) (writes : list InputWorker.WriteResult) :
  InputWorker.all_progress writes →
  (length (InputWorker.lines_text aInput) ≤ length writes)%nat →
  ∃ st', InputWorker.HandleInputThread true (Some aInput) None (InputWorker.fresh writes)
         = Some st'
         ∧ InputWorker.i_pipe st' = InputWorker.lines_text aInput
         ∧ InputWorker.i_error st' = None
         ∧ InputWorker.i_closed st' = true.
Proof.
  intros Hall Hlen. unfold InputWorker.HandleInputThread.
  destruct (HandleStdinFromVector_completes aInput (InputWorker.fresh writes) Hall Hlen)
    as (st' & -> & Hp & He & Hc).
  eexists. split; [reflexivity|]. simpl. done.
Qed.

Lemma Lines_input_is_delivered_witness :
  ∃ st', InputWorker.HandleInputThread true (Some [bytes "one"; bytes "two"]) None
           (InputWorker.fresh
              [InputWorker.Wrote 2; InputWorker.Wrote 1; InputWorker.Wrote 1;
               InputWorker.Wrote 3; InputWorker.Wrote 1; InputWorker.Wrote 1;
               InputWorker.Wrote 1; InputWorker.Wrote 1])
         = Some st'
         ∧ InputWorker.i_pipe st' = InputWorker.lines_text [bytes "one"; bytes "two"]
         ∧ InputWorker.i_error st' = None
         ∧ InputWorker.i_closed st' = true.
Proof.
  apply (Lines_input_is_delivered [bytes "one"; bytes "two"]
           [InputWorker.Wrote 2; InputWorker.Wrote 1; InputWorker.Wrote 1;
            InputWorker.Wrote 3; InputWorker.Wrote 1; InputWorker.Wrote 1;
            InputWorker.Wrote 1; InputWorker.Wrote 1]).
  - repeat (constructor; [eexists; reflexivity|]). constructor.
  - simpl. lia.
Defined.


(* ===================================================================== *)
(** ** [ParseCommand] on commands without quotes                          *)
(* ===================================================================== *)

Section Words.
Import Parser.

Lemma advance_passes (stop : ascii → bool) (t r : mem) :
  passes stop t → stops stop r → advance stop (t ++ r) = length t.
Proof.
  intros Ht Hr. induction Ht as [|c t [H1 H2] _ IH]; simpl.
  - destruct r as [|c r]; [done|]. simpl in *. destruct (is_nul c); [done|].
    destruct Hr as [?|H]; [done|by rewrite H].
  - by rewrite H1, H2, IH.
Qed.

Lemma advance_split (stop : ascii → bool) (p : mem) :
  passes stop (take (advance stop p) p) ∧ stops stop (drop (advance stop p) p).
Proof.
  induction p as [|c p [IH1 IH2]]; simpl; [by split; [constructor|]|].
  destruct (is_nul c) eqn:E1; simpl; [split; [constructor|by left]|].
  destruct (stop c) eqn:E2; simpl; [split; [constructor|by right]|].
  split; [by constructor|done].
Qed.

Lemma scan_passes (stop : ascii → bool) (pre t r : mem) :
  passes stop t → stops stop r →
  scan stop (pre ++ t ++ r) (length pre) = length (pre ++ t).
Proof.
  intros Ht Hr. unfold scan. rewrite drop_app_length, advance_passes by done.
  by rewrite length_app.
Qed.




Lemma at_at (P : mem) (x : ascii) (r : mem) (p : nat) :
  length P = p → at_ (P ++ x :: r) p = x.
Proof. intros <-. apply at_middle. Qed.

Lemma insert_at (P : mem) (x y : ascii) (r : mem) (p : nat) :
  length P = p → <[p := y]> (P ++ x :: r) = P ++ y :: r.
Proof.
  intros <-. rewrite insert_app_r_alt by lia. by rewrite Nat.sub_diag.
Qed.

Lemma scan_at (stop : ascii → bool) (P t r : mem) (p : nat) :
  length P = p → passes stop t → stops stop r →
  scan stop (P ++ t ++ r) p = (p + length t)%nat.
Proof.
  intros <- Ht Hr. rewrite scan_passes by done. by rewrite length_app.
Qed.

Lemma token_loop_last (tm : bool) (pre : mem) (c : ascii) (w : mem) :
  passes (is_char SPACE) w →
  token_loop tm SPACE (pre ++ c :: w ++ [NUL]) (length pre)
  = (pre ++ c :: w ++ [NUL], S (length pre + length w)).
Proof.
  intros Hw. unfold token_loop.
  replace (pre ++ c :: w ++ [NUL]) with ((pre ++ [c]) ++ w ++ [NUL]) by reassoc.
  rewrite (scan_at _ (pre ++ [c]) w [NUL] (S (length pre)));
    [|rewrite length_app; simpl; lia|done|by left].
  replace ((pre ++ [c]) ++ w ++ [NUL]) with ((pre ++ c :: w) ++ [NUL]) by reassoc.
  rewrite at_at by (rewrite length_app; simpl; lia).
  reflexivity.
Qed.

Lemma token_loop_space (tm : bool) (pre : mem) (c : ascii) (w r : mem) :
  passes (is_char SPACE) w →
  token_loop tm SPACE (pre ++ c :: w ++ SPACE :: r) (length pre)
  = ((if tm then pre ++ c :: w ++ NUL :: r else pre ++ c :: w ++ SPACE :: r),
     S (S (length pre + length w))).
Proof.
  intros Hw. unfold token_loop.
  replace (pre ++ c :: w ++ SPACE :: r) with ((pre ++ [c]) ++ w ++ SPACE :: r) by reassoc.
  rewrite (scan_at _ (pre ++ [c]) w (SPACE :: r) (S (length pre)));
    [|rewrite length_app; simpl; lia|done|by right].
  replace ((pre ++ [c]) ++ w ++ SPACE :: r) with ((pre ++ c :: w) ++ SPACE :: r) by reassoc.
  rewrite at_at by (rewrite length_app; simpl; lia).
  replace (is_nul SPACE) with false by reflexivity. cbv iota.
  destruct tm; [|reflexivity].
  rewrite insert_at by (rewrite length_app; simpl; lia). f_equal. reassoc.
Qed.

(** *** The grammar on words *)

Lemma tokens_spaces (sp r : list ascii) :
  passes not_space sp →
  Spec.tokens Spec.Between [] (sp ++ r) = Spec.tokens Spec.Between [] r.
Proof.
  intros Hsp. induction Hsp as [|c sp [_ H] _ IH]; [done|]. simpl.
  unfold not_space in H. apply negb_false_iff in H. by rewrite H.
Qed.

Lemma tokens_word_end (w : list ascii) : ∀ cur,
  passes (is_char SPACE) w →
  Spec.tokens Spec.InWord cur w = [cur ++ w].
Proof.
  induction w as [|c w IH]; intros cur Hw; simpl; [by rewrite app_nil_r|].
  inversion Hw as [|? ? [_ H] Hw']; subst. unfold is_char in H. rewrite H.
  rewrite IH by done. by rewrite <- app_assoc.
Qed.

Lemma tokens_word_space (w r : list ascii) : ∀ cur,
  passes (is_char SPACE) w →
  Spec.tokens Spec.InWord cur (w ++ SPACE :: r)
  = (cur ++ w) :: Spec.tokens Spec.Between [] r.
Proof.
  induction w as [|c w IH]; intros cur Hw; simpl; [by rewrite app_nil_r|].
  inversion Hw as [|? ? [_ H] Hw']; subst. unfold is_char in H. rewrite H.
  rewrite IH by done. by rewrite <- app_assoc.
Qed.

Lemma tokens_first (c : ascii) (r : list ascii) :
  c ≠ SPACE → c ≠ DQUOTE → c ≠ SQUOTE →
  Spec.tokens Spec.Between [] (c :: r) = Spec.tokens Spec.InWord [c] r.
Proof.
  intros H1 H2 H3. simpl.
  apply Ascii.eqb_neq in H1, H2, H3. by rewrite H1, H2, H3.
Qed.

(** *** How a nul-free text splits *)

Lemma split_word (body : list ascii) :
  nul_free body →
  ∃ w r, body = w ++ r ∧ passes (is_char SPACE) w
         ∧ (r = [] ∨ ∃ r1, r = SPACE :: r1).
Proof.
  intros Hnf.
  destruct (advance_split (is_char SPACE) body) as [H1 H2].
  exists (take (advance (is_char SPACE) body) body),
         (drop (advance (is_char SPACE) body) body).
  split; [by rewrite take_drop|]. split; [done|].
  assert (Hr : nul_free (drop (advance (is_char SPACE) body) body))
    by (by apply Forall_drop).
  destruct (drop _ body) as [|c r1]; [by left|]. right. exists r1.
  inversion Hr as [|? ? Hc _]; subst. simpl in H2.
  destruct H2 as [H2|H2].
  - apply Ascii.eqb_eq in H2. done.
  - apply Ascii.eqb_eq in H2. by subst.
Qed.

Lemma split_spaces (r : list ascii) :
  nul_free r →
  ∃ sp body, r = sp ++ body ∧ passes not_space sp
             ∧ stops not_space (body ++ [NUL]).
Proof.
  intros Hnf.
  destruct (advance_split not_space r) as [H1 H2].
  exists (take (advance not_space r) r), (drop (advance not_space r) r).
  split; [by rewrite take_drop|]. split; [done|].
  destruct (drop _ r) as [|c r1]; [by left|]. exact H2.
Qed.

Lemma starts_word (c : ascii) (body : list ascii) :
  c ≠ NUL → stops not_space ((c :: body) ++ [NUL]) → c ≠ SPACE.
Proof.
  intros Hc [H|H].
  - apply Ascii.eqb_eq in H. done.
  - unfold not_space in H. apply negb_true_iff, Ascii.eqb_neq in H. done.
Qed.

(** *** The two argument loops on a text without quotes *)

Lemma fill_args_end (fuel : nat) (st : fill_state) (l a : nat) :
  is_nul (at_ (f_cmd st) l) = true → fill_args fuel st l a = Some st.
Proof. intros H. destruct fuel; simpl; by rewrite H. Qed.

Lemma fill_args_plain (fuel : nat) (st : fill_state) (l a : nat) :
  is_nul (at_ (f_cmd st) l) = false →
  Ascii.eqb (at_ (f_cmd st) l) DQUOTE = false →
  Ascii.eqb (at_ (f_cmd st) l) SQUOTE = false →
  fill_args (S fuel) st l a
  = fill_args fuel
      {| f_cmd := (token_loop true SPACE (f_cmd st) l).1;
         f_argv := <[a := Ptr l]> (f_argv st);
         f_stray := f_stray st |}
      (skip_spaces (token_loop true SPACE (f_cmd st) l).1
         (token_loop true SPACE (f_cmd st) l).2) (S a).
Proof.
  intros H1 H2 H3. simpl. rewrite H1, H2, H3.
  by destruct (token_loop true SPACE (f_cmd st) l).
Qed.

Lemma count_args_end (fuel : nat) (cmd : mem) (l : nat) (args : Z) :
  is_nul (at_ cmd l) = true → count_args fuel cmd l args = Some args.
Proof. intros H. destruct fuel; simpl; by rewrite H. Qed.

Lemma count_args_plain (fuel : nat) (cmd : mem) (l : nat) (args : Z) :
  is_nul (at_ cmd l) = false →
  Ascii.eqb (at_ cmd l) DQUOTE = false →
  Ascii.eqb (at_ cmd l) SQUOTE = false →
  count_args (S fuel) cmd l args
  = count_args fuel cmd (skip_spaces cmd (token_loop false SPACE cmd l).2) (args + 1).
Proof. intros H1 H2 H3. simpl. by rewrite H1, H2, H3. Qed.


Lemma clean_app (x y : list ascii) : clean (x ++ y) ↔ clean x ∧ clean y.
Proof. unfold clean, nul_free, no_quotes. rewrite !Forall_app. tauto. Qed.

Lemma clean_cons (c : ascii) (x : list ascii) :
  clean (c :: x) ↔ (c ≠ NUL ∧ c ≠ DQUOTE ∧ c ≠ SQUOTE) ∧ clean x.
Proof. unfold clean, nul_free, no_quotes. rewrite !Forall_cons. tauto. Qed.

(** The shape of a text that begins with a word. *)
Lemma split_body (c : ascii) (body : list ascii) :
  clean (c :: body) → stops not_space ((c :: body) ++ [NUL]) →
  ∃ w, passes (is_char SPACE) w ∧ c ≠ SPACE
       ∧ is_nul c = false ∧ Ascii.eqb c DQUOTE = false ∧ Ascii.eqb c SQUOTE = false
       ∧ ((body = w ∧ Spec.tokens Spec.Between [] (c :: body) = [c :: w])
          ∨ ∃ sp body2,
              body = w ++ SPACE :: sp ++ body2
              ∧ passes not_space sp
              ∧ stops not_space (body2 ++ [NUL])
              ∧ clean body2
              ∧ Spec.tokens Spec.Between [] (c :: body)
                = (c :: w) :: Spec.tokens Spec.Between [] body2).
Proof.
  intros Hclean Hstart.
  apply clean_cons in Hclean as [(Hc1 & Hc2 & Hc3) Hclean].
  pose proof (starts_word c body Hc1 Hstart) as Hsp.
  destruct (split_word body (proj1 Hclean)) as (w & r & -> & Hw & Hr).
  exists w. split; [done|]. split; [done|].
  split; [by apply Ascii.eqb_neq|]. split; [by apply Ascii.eqb_neq|].
  split; [by apply Ascii.eqb_neq|].
  rewrite tokens_first by done.
  destruct Hr as [->|[r1 ->]].
  - left. rewrite app_nil_r. split; [done|]. by rewrite tokens_word_end.
  - right. apply clean_app in Hclean as [_ Hclean].
    apply clean_cons in Hclean as [_ Hclean].
    destruct (split_spaces r1 (proj1 Hclean)) as (sp & body2 & -> & Hsp' & Hb2).
    exists sp, body2. split; [done|]. split; [done|]. split; [done|].
    apply clean_app in Hclean as [_ Hclean]. split; [done|].
    by rewrite tokens_word_space, tokens_spaces.
Qed.

Lemma count_args_words (fuel : nat) :
  ∀ pre body args,
    clean body → stops not_space (body ++ [NUL]) →
    (length body ≤ fuel)%nat →
    count_args fuel (pre ++ body ++ [NUL]) (length pre) args
    = Some (args + Z.of_nat (length (Spec.tokens Spec.Between [] body))).
Proof.
  induction fuel as [|fuel IH]; intros pre body args Hclean Hstart Hfuel.
  - destruct body; [|simpl in Hfuel; lia].
    rewrite count_args_end by (cbn [app]; by rewrite at_at). simpl. f_equal. lia.
  - destruct body as [|c body].
    { rewrite count_args_end by (cbn [app]; by rewrite at_at). simpl. f_equal. lia. }
    destruct (split_body c body Hclean Hstart)
      as (w & Hw & Hsp & Hn & Hd & Hs & Hcases).
    rewrite count_args_plain by (by rewrite <- app_comm_cons, at_at).
    destruct Hcases as [[-> Htok]|(sp & body2 & -> & Hsp' & Hb2 & Hclean2 & Htok)];
      rewrite Htok.
    + rewrite <- app_comm_cons, token_loop_last by done. cbn [snd].
      replace (pre ++ c :: w ++ [NUL]) with ((pre ++ c :: w) ++ [] ++ [NUL]) by reassoc.
      unfold skip_spaces.
      rewrite (scan_at _ _ [] [NUL] (S (length pre + length w)));
        [|rewrite length_app; simpl; lia|constructor|by left].
      rewrite count_args_end.
      * reflexivity.
      * simpl. rewrite Nat.add_0_r.
        rewrite at_at by (rewrite length_app; simpl; lia). done.
    + rewrite <- app_comm_cons.
      replace (pre ++ c :: (w ++ SPACE :: sp ++ body2) ++ [NUL])
        with (pre ++ c :: w ++ SPACE :: sp ++ body2 ++ [NUL]) by reassoc.
      rewrite token_loop_space by done. cbn [snd].
      replace (pre ++ c :: w ++ SPACE :: sp ++ body2 ++ [NUL])
        with ((pre ++ c :: w ++ [SPACE]) ++ sp ++ body2 ++ [NUL]) by reassoc.
      unfold skip_spaces.
      rewrite (scan_at _ _ sp (body2 ++ [NUL]) (S (S (length pre + length w))));
        [|rewrite !length_app; simpl; rewrite length_app; simpl; lia|done|done].
      replace ((pre ++ c :: w ++ [SPACE]) ++ sp ++ body2 ++ [NUL])
        with ((pre ++ c :: w ++ [SPACE] ++ sp) ++ body2 ++ [NUL]) by reassoc.
      replace (S (S (length pre + length w)) + length sp)%nat
        with (length (pre ++ c :: w ++ [SPACE] ++ sp))
        by (rewrite !length_app; simpl; rewrite !length_app; simpl; lia).
      rewrite IH; [f_equal; simpl; lia|done|done|].
      simpl in Hfuel. rewrite !length_app in Hfuel. simpl in Hfuel.
      rewrite length_app in Hfuel. lia.
Qed.


Lemma take_S_insert {A} (x : A) :
  ∀ (l : list A) (a : nat), (a < length l)%nat →
    take (S a) (<[a := x]> l) = take a l ++ [x].
Proof.
  induction l as [|y l IH]; intros [|a] H; simpl in *; try lia; [done|].
  f_equal. apply IH. lia.
Qed.

Lemma passes_nul_free (stop : ascii → bool) (t : list ascii) :
  passes stop t → nul_free t.
Proof.
  intros H. eapply Forall_impl; [exact H|].
  intros c [Hc _]. by apply Ascii.eqb_neq in Hc.
Qed.

Lemma word_string (pre : mem) (c : ascii) (w rest : mem) :
  is_nul c = false → passes (is_char SPACE) w →
  cstr (drop (length pre) (pre ++ c :: w ++ NUL :: rest)) = c :: w.
Proof.
  intros Hc Hw. rewrite drop_app_length.
  rewrite (app_comm_cons w), cstr_terminated; [done|].
  constructor; [by apply Ascii.eqb_neq|by apply passes_nul_free in Hw].
Qed.

Lemma fill_args_words (fuel : nat) :
  ∀ pre body argv stray a,
    clean body → stops not_space (body ++ [NUL]) →
    (length body ≤ fuel)%nat →
    (a + length (Spec.tokens Spec.Between [] body) ≤ length argv)%nat →
    ∃ body' offs,
      fill_args fuel {| f_cmd := pre ++ body ++ [NUL]; f_argv := argv;
                        f_stray := stray |} (length pre) a
      = Some {| f_cmd := pre ++ body' ++ [NUL];
                f_argv := take a argv ++ (Ptr <$> offs) ++ drop (a + length offs) argv;
                f_stray := stray |}
      ∧ Forall2 (λ off tok, cstr (drop off (pre ++ body' ++ [NUL])) = tok)
          offs (Spec.tokens Spec.Between [] body).
Proof.
  induction fuel as [|fuel IH]; intros pre body argv stray a Hclean Hstart Hfuel Hroom.
  - destruct body; [|simpl in Hfuel; lia]. exists [], [].
    rewrite fill_args_end by (cbn [app f_cmd]; by rewrite at_at).
    split; [|constructor]. simpl. by rewrite Nat.add_0_r, take_drop.
  - destruct body as [|c body].
    { exists [], []. rewrite fill_args_end by (cbn [app f_cmd]; by rewrite at_at).
      split; [|constructor]. simpl. by rewrite Nat.add_0_r, take_drop. }
    destruct (split_body c body Hclean Hstart)
      as (w & Hw & Hsp & Hn & Hd & Hs & Hcases).
    rewrite fill_args_plain by (cbn [f_cmd]; by rewrite <- app_comm_cons, at_at).
    cbn [f_cmd f_argv f_stray].
    destruct Hcases as [[-> Htok]|(sp & body2 & -> & Hsp' & Hb2 & Hclean2 & Htok)];
      rewrite Htok in *.
    + rewrite <- app_comm_cons, token_loop_last by done. cbn [fst snd].
      exists (c :: w), [length pre].
      rewrite fill_args_end.
      * split.
        -- do 2 f_equal. simpl in Hroom. simpl.
           rewrite (insert_take_drop argv a) by lia. do 3 f_equal. lia.
        -- constructor; [|constructor]. rewrite <- app_comm_cons.
           by apply word_string.
      * cbn [f_cmd].
        replace (pre ++ c :: w ++ [NUL]) with ((pre ++ c :: w) ++ [] ++ [NUL]) by reassoc.
        unfold skip_spaces.
        rewrite (scan_at _ _ [] [NUL] (S (length pre + length w)));
          [|rewrite length_app; simpl; lia|constructor|by left].
        simpl. rewrite Nat.add_0_r.
        rewrite at_at by (rewrite length_app; simpl; lia). done.
    + rewrite <- app_comm_cons.
      replace (pre ++ c :: (w ++ SPACE :: sp ++ body2) ++ [NUL])
        with (pre ++ c :: w ++ SPACE :: sp ++ body2 ++ [NUL]) by reassoc.
      rewrite token_loop_space by done. cbn [fst snd].
      replace (pre ++ c :: w ++ NUL :: sp ++ body2 ++ [NUL])
        with ((pre ++ c :: w ++ [NUL]) ++ sp ++ body2 ++ [NUL]) by reassoc.
      unfold skip_spaces.
      rewrite (scan_at _ _ sp (body2 ++ [NUL]) (S (S (length pre + length w))));
        [|rewrite !length_app; simpl; rewrite length_app; simpl; lia|done|done].
      replace ((pre ++ c :: w ++ [NUL]) ++ sp ++ body2 ++ [NUL])
        with ((pre ++ c :: w ++ [NUL] ++ sp) ++ body2 ++ [NUL]) by reassoc.
      replace (S (S (length pre + length w)) + length sp)%nat
        with (length (pre ++ c :: w ++ [NUL] ++ sp))
        by (rewrite !length_app; simpl; rewrite !length_app; simpl; lia).
      simpl in Hroom.
      destruct (IH (pre ++ c :: w ++ [NUL] ++ sp) body2
                  (<[a := Ptr (length pre)]> argv) stray (S a))
        as (body2' & offs2 & -> & Hoffs); [done|done| |rewrite length_insert; lia|].
      { simpl in Hfuel. rewrite !length_app in Hfuel. simpl in Hfuel.
        rewrite length_app in Hfuel. lia. }
      exists (c :: w ++ [NUL] ++ sp ++ body2'), (length pre :: offs2).
      assert (Hbuf : (pre ++ c :: w ++ [NUL] ++ sp) ++ body2' ++ [NUL]
                     = pre ++ (c :: w ++ [NUL] ++ sp ++ body2') ++ [NUL]) by reassoc.
      rewrite Hbuf in *. split.
      * do 2 f_equal. rewrite take_S_insert by lia.
        rewrite drop_insert_lt by lia. rewrite <- app_assoc. simpl.
        rewrite Nat.add_succ_r. reflexivity.
      * constructor; [|done]. rewrite <- Hbuf. reassoc.
        simpl. by apply word_string.
Qed.


Lemma stops_before_nul (stop : ascii → bool) (x : mem) :
  stops stop (x ++ [NUL]) → stops stop x.
Proof. by destruct x. Qed.

Lemma tokens_none (body : list ascii) :
  clean body → stops not_space (body ++ [NUL]) →
  Spec.tokens Spec.Between [] body = [] → body = [].
Proof.
  intros Hclean Hstart. destruct body as [|c body]; [done|].
  destruct (split_body c body Hclean Hstart)
    as (w & _ & _ & _ & _ & _ & [[_ ->]|(sp & body2 & _ & _ & _ & _ & ->)]); done.
Qed.

Lemma strrchr_terminated (t rest : mem) (ch : ascii) :
  nul_free t → strrchr (t ++ NUL :: rest) ch = strrchr t ch.
Proof.
  induction 1 as [|c t Hc _ IH]; simpl; [done|]. by rewrite IH.
Qed.

Lemma strrchr_lt (t : mem) (ch : ascii) (k : nat) :
  strrchr t ch = Some k → (k < length t)%nat.
Proof.
  revert k. induction t as [|c t IH]; intros k; simpl; [done|].
  destruct (is_nul c); [done|].
  destruct (strrchr t ch) as [k'|].
  - intros [= <-]. specialize (IH k' eq_refl). lia.
  - destruct (Ascii.eqb c ch); [intros [= <-]; lia|done].
Qed.

(** [argv[0]] points at the base name of the program token. *)
Lemma argv0_string (sp0 prog rest rest' : mem) :
  nul_free prog →
  slot_string (sp0 ++ prog ++ NUL :: rest')
    match strrchr (drop (length sp0) (sp0 ++ prog ++ NUL :: rest)) SLASH with
    | Some k => Ptr (S (length sp0 + k))
    | None => Ptr (length sp0)
    end
  = Some (Spec.basename prog).
Proof.
  intros Hnf. rewrite drop_app_length, strrchr_terminated by done.
  unfold Spec.basename. destruct (strrchr prog SLASH) as [k|] eqn:E; simpl.
  - apply strrchr_lt in E.
    replace (S (length sp0 + k)) with (length sp0 + S k)%nat by lia.
    rewrite <- drop_drop, drop_app_length, drop_app_le by lia.
    rewrite cstr_terminated; [done|]. by apply Forall_drop.
  - by rewrite drop_app_length, cstr_terminated.
Qed.

Lemma slot_strings (cmd : mem) (offs : list nat) (toks : list (list ascii)) :
  Forall2 (λ off tok, cstr (drop off cmd) = tok) offs toks →
  slot_string cmd <$> (Ptr <$> offs) = Some <$> toks.
Proof.
  induction 1 as [|off tok offs toks H _ IH]; [done|].
  rewrite !fmap_cons, IH. simpl. by rewrite H.
Qed.

(** The shape of a command: leading spaces, the program token, and, when
    a space follows it, more spaces and the argument text. *)
Lemma split_command (c : list ascii) :
  clean c →
  ∃ sp0 prog,
    passes not_space sp0 ∧ passes (is_char SPACE) prog
    ∧ program_token c = prog
    ∧ ((c = sp0 ++ prog ∧ stops not_space (prog ++ [NUL])
        ∧ Spec.argv_spec c = [Spec.basename prog])
       ∨ ∃ sp1 body,
           c = sp0 ++ prog ++ SPACE :: sp1 ++ body
           ∧ stops not_space (prog ++ SPACE :: sp1 ++ body ++ [NUL])
           ∧ passes not_space sp1
           ∧ stops not_space (body ++ [NUL])
           ∧ clean body
           ∧ Spec.argv_spec c
             = Spec.basename prog :: Spec.tokens Spec.Between [] body).
Proof.
  intros Hclean.
  destruct (split_spaces c (proj1 Hclean)) as (sp0 & w0 & -> & Hsp0 & Hw0).
  apply clean_app in Hclean as [_ Hclean].
  destruct (split_word w0 (proj1 Hclean)) as (prog & r & -> & Hprog & Hr).
  exists sp0, prog. split; [done|]. split; [done|].
  assert (Hstop : stops (is_char SPACE) r)
    by (destruct Hr as [->|[r1 ->]]; [done|by right]).
  assert (Hrest : drop (advance not_space (sp0 ++ prog ++ r)) (sp0 ++ prog ++ r)
                  = prog ++ r).
  { rewrite advance_passes, drop_app_length; [done..|].
    by apply stops_before_nul. }
  unfold program_token, Spec.argv_spec. cbv zeta. rewrite Hrest.
  rewrite advance_passes, take_app_length, drop_app_length by done.
  split; [done|].
  destruct Hr as [->|[r1 ->]].
  - left. rewrite app_nil_r in *. done.
  - right. apply clean_app in Hclean as [_ Hclean].
    apply clean_cons in Hclean as [_ Hclean].
    destruct (split_spaces r1 (proj1 Hclean)) as (sp1 & body & -> & Hsp1 & Hbody).
    apply clean_app in Hclean as [_ Hclean].
    exists sp1, body. split; [done|].
    split; [revert Hw0; by reassoc|].
    split; [done|]. split; [done|].
    split; [done|]. f_equal.
    change (SPACE :: sp1 ++ body) with ((SPACE :: sp1) ++ body).
    apply tokens_spaces. by constructor.
Qed.


Lemma ParseCommand_words (command_string : mem) :
  no_quotes (cstr command_string) →
  ∃ p, ParseCommand true true command_string = Some (ParseOk p)
       ∧ file_string p = program_token (cstr command_string)
       ∧ argv_strings p = Some <$> Spec.argv_spec (cstr command_string)
       ∧ p_stray p = [].
Proof.
  intros Hq.
  assert (Hclean : clean (cstr command_string)) by (split; [apply cstr_nul_free|done]).
  destruct (split_command _ Hclean)
    as (sp0 & prog & Hsp0 & Hprog & Hpt & Hcases).
  rewrite Hpt. clear Hpt.
  pose proof (passes_nul_free _ _ Hprog) as Hnf.
  unfold ParseCommand. cbn [negb is_null]. cbv zeta.
  destruct Hcases as [(-> & Hstart & ->)|(sp1 & body & -> & Hstart & Hsp1 & Hbody & Hcb & ->)].
  - assert (E1 : skip_spaces ((sp0 ++ prog) ++ [NUL]) 0 = length sp0).
    { replace ((sp0 ++ prog) ++ [NUL]) with ([] ++ sp0 ++ prog ++ [NUL]) by reassoc.
      unfold skip_spaces. by rewrite (scan_at _ [] sp0 _ 0). }
    assert (E2 : scan (is_char SPACE) ((sp0 ++ prog) ++ [NUL]) (length sp0)
                 = length (sp0 ++ prog)).
    { replace ((sp0 ++ prog) ++ [NUL]) with (sp0 ++ prog ++ [NUL]) by reassoc.
      rewrite (scan_at _ sp0 prog _ (length sp0)); [|done|done|by left].
      by rewrite length_app. }
    assert (E3 : at_ ((sp0 ++ prog) ++ [NUL]) (length (sp0 ++ prog)) = NUL)
      by (by rewrite at_at).
    rewrite !E1, !E2, !E3.
    change (negb (is_nul NUL)) with false. cbv beta iota.
    assert (E4 : skip_spaces ((sp0 ++ prog) ++ [NUL]) (length (sp0 ++ prog))
                 = length (sp0 ++ prog)).
    { replace ((sp0 ++ prog) ++ [NUL]) with ((sp0 ++ prog) ++ [] ++ [NUL]) by reassoc.
      unfold skip_spaces.
      rewrite (scan_at _ _ [] [NUL] (length (sp0 ++ prog))); [|done|constructor|by left].
      simpl. lia. }
    rewrite !E4, !E3.
    change (negb (is_nul NUL)) with false. cbv beta iota.
    change (1 <? 1) with false. cbv beta iota.
    eexists. split; [reflexivity|].
    unfold file_string, argv_strings.
    cbn [p_command p_file p_argv p_stray f_cmd f_argv f_stray].
    replace ((sp0 ++ prog) ++ [NUL]) with (sp0 ++ prog ++ NUL :: []) by reassoc.
    split; [|split; [|done]].
    + by rewrite drop_app_length, cstr_terminated.
    + change (Z.to_nat 1) with 1%nat. cbn [replicate].
      cbn [insert list_insert fmap list_fmap].
      by rewrite argv0_string.
  - replace ((sp0 ++ prog ++ SPACE :: sp1 ++ body) ++ [NUL])
      with (sp0 ++ prog ++ SPACE :: sp1 ++ body ++ [NUL]) by reassoc.
    set (cmd0 := sp0 ++ prog ++ SPACE :: sp1 ++ body ++ [NUL]).
    set (cmd1 := sp0 ++ prog ++ NUL :: sp1 ++ body ++ [NUL]).
    set (pre := sp0 ++ prog ++ [NUL] ++ sp1).
    assert (E1 : skip_spaces cmd0 0 = length sp0).
    { subst cmd0. unfold skip_spaces.
      change (sp0 ++ prog ++ SPACE :: sp1 ++ body ++ [NUL])
        with ([] ++ sp0 ++ prog ++ SPACE :: sp1 ++ body ++ [NUL]).
      by rewrite (scan_at _ [] sp0 _ 0). }
    assert (E2 : scan (is_char SPACE) cmd0 (length sp0) = length (sp0 ++ prog)).
    { subst cmd0.
      rewrite (scan_at _ sp0 prog _ (length sp0)); [|done|done|by right].
      by rewrite length_app. }
    assert (E3 : at_ cmd0 (length (sp0 ++ prog)) = SPACE).
    { subst cmd0. rewrite app_assoc. by rewrite at_at. }
    assert (E4 : <[length (sp0 ++ prog) := NUL]> cmd0 = cmd1).
    { subst cmd0 cmd1. rewrite !(app_assoc sp0 prog). by rewrite insert_at. }
    rewrite !E1, !E2, !E3, !E4.
    change (negb (is_nul SPACE)) with true. cbv beta iota.
    assert (Hcmd1 : cmd1 = pre ++ body ++ [NUL]) by (subst cmd1 pre; reassoc).
    assert (E5 : skip_spaces cmd1 (S (length (sp0 ++ prog))) = length pre).
    { subst cmd1 pre. unfold skip_spaces.
      replace (sp0 ++ prog ++ NUL :: sp1 ++ body ++ [NUL])
        with ((sp0 ++ prog ++ [NUL]) ++ sp1 ++ body ++ [NUL]) by reassoc.
      rewrite (scan_at _ _ sp1 _ (S (length (sp0 ++ prog)))); [|len|done|done].
      len. }
    rewrite !E5.
    assert (Hfuel : (length body ≤ length cmd0)%nat) by (subst cmd0; len).
    assert (Ecount : (if negb (is_nul (at_ cmd1 (length pre)))
                      then count_args (length cmd0) cmd1 (length pre) 1
                      else Some 1)
                     = Some (1 + Z.of_nat (length (Spec.tokens Spec.Between [] body)))).
    { rewrite Hcmd1. destruct body as [|c body].
      - cbn [app]. by rewrite at_at.
      - assert (Hc : is_nul c = false).
        { apply clean_cons in Hcb as [(Hc & _) _]. by apply Ascii.eqb_neq. }
        rewrite <- app_comm_cons, at_at, Hc by done. cbn [negb].
        rewrite app_comm_cons. by apply count_args_words. }
    rewrite Ecount.
    set (n := length (Spec.tokens Spec.Between [] body)) in *.
    replace (Z.to_nat (1 + Z.of_nat n)) with (S n) by lia.
    cbn [replicate]. cbn [insert list_insert].

    set (argv0 := match strrchr (drop (length sp0) cmd1) SLASH with
                  | Some k => Ptr (S (length sp0 + k))
                  | None => Ptr (length sp0)
                  end).
    set (st0 := {| f_cmd := cmd1; f_argv := argv0 :: replicate n Uninit;
                   f_stray := [] |}).
    assert (Efill : (if 1 <? 1 + Z.of_nat n
                     then fill_args (length cmd0) st0 (length pre) 1
                     else Some st0)
                    = fill_args (length cmd0) st0 (length pre) 1).
    { destruct (Z.ltb_spec 1 (1 + Z.of_nat n)); [done|].
      assert (Hn : n = 0%nat) by lia. subst n.
      apply nil_length_inv, tokens_none in Hn; [|done..].
      symmetry. apply fill_args_end. subst st0. cbn [f_cmd].
      rewrite Hcmd1, Hn. cbn [app]. by rewrite at_at. }
    rewrite Efill. subst st0. rewrite Hcmd1.
    destruct (fill_args_words (length cmd0) pre body (argv0 :: replicate n Uninit) [] 1)
      as (body' & offs & -> & Hoffs); [done|done|done|simpl; rewrite length_replicate; lia|].
    eexists. split; [reflexivity|].
    unfold file_string, argv_strings.
    cbn [p_command p_file p_argv p_stray f_cmd f_argv f_stray].
    pose proof (Forall2_length _ _ _ Hoffs) as Hlen. fold n in Hlen.
    assert (Hfinal : pre ++ body' ++ [NUL]
                     = sp0 ++ prog ++ NUL :: sp1 ++ body' ++ [NUL])
      by (subst pre; reassoc).
    split; [|split; [|done]].
    + rewrite Hfinal. by rewrite drop_app_length, cstr_terminated.
    + cbn [take]. rewrite Hlen. cbn [Nat.add drop].
      rewrite drop_ge by (rewrite length_replicate; lia).
      rewrite app_nil_r. cbn [app]. rewrite !fmap_cons. f_equal.
      * subst argv0 cmd1. rewrite Hfinal. by apply argv0_string.
      * by apply slot_strings.
Qed.

End Words.

(** X13: for a command without quote characters [ParseCommand] returns 0,
    the program name is the first space-delimited token, [argv[0]] is its
    base name and the following entries are the space-separated words of
    the rest, in order; nothing is stored outside the array. *)
Theorem ParseCommand_without_quotes (command_string : mem) :
  no_quotes (cstr command_string) →
  ∃ p, Parser.ParseCommand true true command_string = Some (Parser.ParseOk p)
       ∧ Parser.file_string p = program_token (cstr command_string)
       ∧ Parser.argv_strings p = Some <$> Spec.argv_spec (cstr command_string)
       ∧ Parser.p_stray p = [].
Proof. apply ParseCommand_words. Qed.

Lemma ParseCommand_without_quotes_witness :
  ∃ p, Parser.ParseCommand true true (bytes "  /bin/ls -l  /tmp ")
       = Some (Parser.ParseOk p)
       ∧ Parser.file_string p = program_token (cstr (bytes "  /bin/ls -l  /tmp "))
       ∧ Parser.argv_strings p
         = Some <$> Spec.argv_spec (cstr (bytes "  /bin/ls -l  /tmp "))
       ∧ Parser.p_stray p = [].
Proof.
  apply (ParseCommand_without_quotes (bytes "  /bin/ls -l  /tmp ")).
  unfold no_quotes. simpl.
  repeat (constructor; [split; discriminate|]). constructor.
Defined.

(** X14: [ParseCommand] returns -1 exactly when one of its two [malloc]
    calls fails: no command string is turned down, the test for an empty
    program name never fires. *)
Theorem ParseCommand_fails_only_without_memory (malloc1 malloc2 : bool)
    (command_string : mem) :
  Parser.ParseCommand malloc1 malloc2 command_string = Some Parser.ParseFail
  ↔ malloc1 = false ∨ malloc2 = false.
Proof.
  split.
  - unfold Parser.ParseCommand.
    destruct malloc1; [|by left]. destruct malloc2; [|by right].
    cbn [negb Parser.is_null]. cbv zeta.
    destruct (if negb _ then _ else _) as [cmd l].
    destruct (if negb _ then _ else _) as [args|]; [|done].
    destruct (if 1 <? args then _ else _); done.
  - intros Hm.
    destruct (ParseCommand_returns malloc1 malloc2 command_string) as [r Hr].
    rewrite Hr. f_equal. revert Hr. unfold Parser.ParseCommand.
    destruct malloc1; [|by intros [= <-]].
    destruct malloc2; [by destruct Hm|].
    cbn [negb Parser.is_null]. cbv zeta.
    destruct (if negb _ then _ else _) as [cmd l].
    destruct (if negb _ then _ else _) as [args|]; [|done].
    by intros [= <-].
Qed.

(* ===================================================================== *)
(** ** Callbacks: what the handlers are called with                       *)
(* ===================================================================== *)

Section Marshalling.
Import InputWorker Marshal.

Lemma serve_output_calls (err : bool) (chunk : list ascii) (st : m_state) :
  roomy st → (length chunk ≤ 256)%nat →
  calls (serve_output err chunk st)
  = calls st ++ [(err, Some (default [] (callbackBuffer st) ++ cstr chunk))]
  ∧ callbackBuffer (serve_output err chunk st) = None
  ∧ in_returned (serve_output err chunk st) = in_returned st
  ∧ roomy (serve_output err chunk st).
Proof.
  intros [Ho He] Hc. unfold serve_output.
  set (lp := if err then err_lp st else out_lp st).
  assert (Hlp : (length chunk < length lp)%nat) by (subst lp; destruct err; lia).
  destruct (string_body_any chunk lp (callbackBuffer st) Hlp) as [Hb Hl].
  destruct (OutputWorker.string_body true chunk lp (callbackBuffer st)) as [lp' b].
  simpl in Hb, Hl. subst b. simpl. split; [done|]. split; [done|]. split; [done|].
  unfold roomy. simpl. subst lp. destruct err; split; lia.
Qed.

Lemma serve_input_keeps (answer : text) (rc : Z) (sm ok : bool) (st st' : m_state) :
  serve_input answer rc sm ok st = Some st' →
  calls st' = calls st ∧ out_lp st' = out_lp st ∧ err_lp st' = err_lp st
  ∧ (callbackBuffer st' = callbackBuffer st
     ∨ callbackBuffer st' = None
     ∨ (callbackBuffer st' = answer ∧ rc ≠ 0 ∧ in_returned st = false)).
Proof.
  unfold serve_input. destruct (in_returned st) eqn:Hr.
  { intros [= <-]. auto. }
  destruct (Z.eqb_spec rc 0) as [->|Hrc]; simpl.
  - destruct answer as [line|]; [|done].
    destruct (WriteToStdin sm line (m_in st)) as [[wrc i]|]; [|done].
    destruct (negb (wrc =? 0)); [intros [= <-]; simpl; auto 10|].
    destruct ok; intros [= <-]; simpl; auto 10.
  - intros [= <-]. simpl. auto 10.
Qed.

Lemma serve_all_clean (requests : list request) :
  ∀ st st',
    roomy st → callbackBuffer st = None →
    Forall sized requests →
    Forall (λ r, ¬ closes_with_text r) requests →
    serve_all requests st = Some st' →
    calls st' = calls st ++ output_chunks requests ∧ callbackBuffer st' = None.
Proof.
  induction requests as [|r requests IH]; intros st st' Hroom Hbuf Hsz Hcl; simpl.
  - intros [= <-]. by rewrite app_nil_r.
  - inversion Hsz as [|? ? Hs Hsz']; subst. inversion Hcl as [|? ? Hc Hcl']; subst.
    destruct r as [err chunk|answer rc sm ok]; simpl.
    + simpl in Hs.
      destruct (serve_output_calls err chunk st Hroom) as (Hcalls & Hb & _ & Hroom');
        [lia|].
      intros H. apply IH in H as [H1 H2]; [|done..].
      split; [|done]. rewrite H1, Hcalls, Hbuf. unfold output_chunks. simpl.
      by rewrite <- app_assoc.
    + destruct (serve_input answer rc sm ok st) as [st1|] eqn:E; [|done].
      apply serve_input_keeps in E as (Hcalls & Ho & He & Hb).
      intros H. apply IH in H as [H1 H2]; [| | |done..].
      * split; [|done]. by rewrite H1, Hcalls.
      * unfold roomy. by rewrite Ho, He.
      * destruct Hb as [->|[->|(-> & Hrc & _)]]; [done|done|].
        destruct answer; [|done]. by destruct Hc.
Qed.


End Marshalling.

Section ReadLine.
Import Harness.

Lemma wrap_small (z : Z) : 0 ≤ z < 2 ^ 64 → wrap z = z.
Proof. intros H. unfold wrap. by apply Z.mod_small. Qed.

Lemma readline_loop_line (realloc_ok : Z → bool) :
  (∀ n, realloc_ok n = true) →
  ∀ stdin stored len lenmax,
    rl_inv stored len lenmax →
    Z.of_nat (length stdin) + Z.of_nat (length stored) < 2 ^ 60 →
    ∃ line lenmax' rest,
      readline_loop realloc_ok stdin stored len lenmax
      = RlLine (stored ++ line) lenmax' rest
      ∧ (NL ∉ line)
      ∧ (stdin = line ++ NL :: rest ∨ (stdin = line ∧ rest = []))
      ∧ Z.of_nat (length (stored ++ line)) + 2 ≤ lenmax'.
Proof.
  intros Hok stdin.
  induction stdin as [|c stdin IH]; intros stored len lenmax (H1 & H2 & H3 & H4) Hsz.
  - exists [], lenmax, []. simpl. unfold terminate.
    destruct (Z.ltb_spec (Z.of_nat (length stored)) lenmax); [|lia].
    rewrite app_nil_r. split; [done|]. split; [apply not_elem_of_nil|].
    split; [by right|lia].
  - simpl in Hsz. cbn [readline_loop].
    rewrite (wrap_small (len - 1)) by lia.
    destruct (Z.eqb_spec (len - 1) 0) as [Hz|Hz].
    + rewrite (wrap_small (lenmax - 2)), (wrap_small (lenmax * 2)), Hok by lia.
      cbn [negb].
      destruct (Ascii.eqb_spec c NL) as [->|Hc].
      * exists [], (lenmax * 2), stdin. unfold terminate.
        destruct (Z.ltb_spec (Z.of_nat (length stored)) (lenmax * 2)); [|lia].
        rewrite app_nil_r. split; [done|]. split; [apply not_elem_of_nil|].
        split; [by left|lia].
      * destruct (Z.ltb_spec (Z.of_nat (length stored)) (lenmax * 2)); [|lia].
        destruct (IH (stored ++ [c]) (lenmax - 2) (lenmax * 2))
          as (line & lenmax' & rest & -> & Hnl & Hsplit & Hroom).
        { unfold rl_inv. rewrite length_app. simpl. lia. }
        { rewrite length_app. simpl. lia. }
        exists (c :: line), lenmax', rest. rewrite <- app_assoc in *.
        split; [done|]. split; [|split; [|done]].
        -- apply not_elem_of_cons. done.
        -- destruct Hsplit as [->|[-> ->]]; [by left|by right].
    + cbn [negb].
      destruct (Ascii.eqb_spec c NL) as [->|Hc].
      * exists [], lenmax, stdin. unfold terminate.
        destruct (Z.ltb_spec (Z.of_nat (length stored)) lenmax); [|lia].
        rewrite app_nil_r. split; [done|]. split; [apply not_elem_of_nil|].
        split; [by left|lia].
      * destruct (Z.ltb_spec (Z.of_nat (length stored)) lenmax); [|lia].
        destruct (IH (stored ++ [c]) (len - 1) lenmax)
          as (line & lenmax' & rest & -> & Hnl & Hsplit & Hroom).
        { unfold rl_inv. rewrite length_app. simpl. lia. }
        { rewrite length_app. simpl. lia. }
        exists (c :: line), lenmax', rest. rewrite <- app_assoc in *.
        split; [done|]. split; [|split; [|done]].
        -- apply not_elem_of_cons. done.
        -- destruct Hsplit as [->|[-> ->]]; [by left|by right].
Qed.

Lemma readline_line (realloc_ok : Z → bool) (stdin : list ascii) :
  (∀ n, realloc_ok n = true) →
  Z.of_nat (length stdin) < 2 ^ 60 →
  ∃ line lenmax rest,
    readline true realloc_ok stdin = RlLine line lenmax rest
    ∧ (NL ∉ line)
    ∧ (stdin = line ++ NL :: rest ∨ (stdin = line ∧ rest = []))
    ∧ Z.of_nat (length line) + 2 ≤ lenmax.
Proof.
  intros Hok Hsz. unfold readline. cbn [negb].
  destruct (readline_loop_line realloc_ok Hok stdin [] (wrap (100 - 2)) 100)
    as (line & lenmax & rest & H); [|simpl; lia|].
  { unfold rl_inv. simpl. change (wrap (100 - 2)) with 98. lia. }
  exists line, lenmax, rest. exact H.
Qed.

End ReadLine.

(* ===================================================================== *)
(** ** [buffer_size]                                                      *)
(* ===================================================================== *)

Section BufferSize.
Import Scratch Harness.

(** The three rounds of the loop, for 1, 2 and 4. *)
Lemma smear_rounds (x : Z) :
  smear 8 1 x
  = Z.lor (Z.lor (Z.lor x (Z.shiftr x 1)) (Z.shiftr (Z.lor x (Z.shiftr x 1)) 2))
      (Z.shiftr (Z.lor (Z.lor x (Z.shiftr x 1))
                   (Z.shiftr (Z.lor x (Z.shiftr x 1)) 2)) 4).
Proof. reflexivity. Qed.

Lemma lor_lower (x y : Z) : 0 ≤ y → x ≤ Z.lor x y.
Proof.
  intros Hy.
  assert (Hdisj : Z.land x (Z.ldiff y x) = 0).
  { apply Z.bits_inj'. intros n Hn.
    rewrite Z.land_spec, Z.ldiff_spec, Z.bits_0.
    by destruct (Z.testbit x n), (Z.testbit y n). }
  assert (E : Z.lor x y = x + Z.ldiff y x).
  { rewrite Z.add_nocarry_lxor, Z.lxor_lor by done.
    apply Z.bits_inj'. intros n Hn.
    rewrite !Z.lor_spec, Z.ldiff_spec.
    by destruct (Z.testbit x n), (Z.testbit y n). }
  assert (0 ≤ Z.ldiff y x) by (apply Z.ldiff_nonneg; by left).
  lia.
Qed.

Lemma lor_below (n x y : Z) :
  0 ≤ n → 0 ≤ x < 2 ^ n → 0 ≤ y < 2 ^ n → 0 ≤ Z.lor x y < 2 ^ n.
Proof.
  intros Hn Hx Hy. split; [apply Z.lor_nonneg; lia|].
  destruct (Z.eq_dec (Z.lor x y) 0) as [->|Hne]; [lia|].
  assert (0 ≤ Z.lor x y) by (apply Z.lor_nonneg; lia).
  assert (0 < n).
  { destruct (Z.eq_dec n 0) as [->|]; [|lia].
    assert (x = 0) as -> by lia. assert (y = 0) as -> by lia. done. }
  apply Z.log2_lt_pow2; [lia|]. rewrite Z.log2_lor by lia.
  assert (Z.log2 x < n).
  { destruct (Z.eq_dec x 0) as [->|]; [simpl; lia|]. apply Z.log2_lt_pow2; lia. }
  assert (Z.log2 y < n).
  { destruct (Z.eq_dec y 0) as [->|]; [simpl; lia|]. apply Z.log2_lt_pow2; lia. }
  lia.
Qed.

Lemma shiftr_below (n x i : Z) :
  0 ≤ i → 0 ≤ x < 2 ^ n → 0 ≤ Z.shiftr x i < 2 ^ n.
Proof.
  intros Hi Hx. rewrite Z.shiftr_div_pow2 by done.
  assert (0 < 2 ^ i) by (apply Z.pow_pos_nonneg; lia).
  split; [apply Z.div_pos; lia|].
  apply Z.div_lt_upper_bound; [done|]. nia.
Qed.

Lemma smear_bounds (n x : Z) :
  0 ≤ n → 0 ≤ x < 2 ^ n → x ≤ smear 8 1 x < 2 ^ n.
Proof.
  intros Hn Hx. rewrite smear_rounds.
  set (a := Z.lor x (Z.shiftr x 1)).
  set (b := Z.lor a (Z.shiftr a 2)).
  assert (Ha : 0 ≤ a < 2 ^ n)
    by (apply lor_below; [done|done|apply shiftr_below; lia]).
  assert (Hb : 0 ≤ b < 2 ^ n)
    by (apply lor_below; [done|done|apply shiftr_below; lia]).
  assert (Hc : 0 ≤ Z.lor b (Z.shiftr b 4) < 2 ^ n)
    by (apply lor_below; [done|done|apply shiftr_below; lia]).
  assert (x ≤ a) by (apply lor_lower, shiftr_below with n; lia).
  assert (a ≤ b) by (apply lor_lower, shiftr_below with n; lia).
  assert (b ≤ Z.lor b (Z.shiftr b 4)) by (apply lor_lower, shiftr_below with n; lia).
  lia.
Qed.

Lemma buffer_size_covers (value : Z) :
  0 ≤ value ≤ 2 ^ 63 →
  value ≤ buffer_size value < 2 ^ 64 ∧ 32 ≤ buffer_size value.
Proof.
  intros Hv. unfold buffer_size.
  destruct (Z.leb_spec value 32); [lia|].
  rewrite (wrap_small (value - 1)) by lia.
  pose proof (smear_bounds 63 (value - 1)) as Hs.
  rewrite wrap_small by lia. lia.
Qed.

Lemma small_range_check (P : Z → bool) :
  forallb P (Z.of_nat <$> seq 0 257) = true →
  ∀ y, 0 ≤ y ≤ 256 → P y = true.
Proof.
  intros Hall y Hy. rewrite forallb_forall in Hall. apply Hall.
  apply list_elem_of_In, list_elem_of_fmap. exists (Z.to_nat y). split; [lia|].
  apply elem_of_seq. lia.
Qed.

Lemma buffer_size_small (value : Z) :
  0 ≤ value ≤ 256 →
  buffer_size value = Z.max 32 (2 ^ Z.log2_up value).
Proof.
  intros Hv.
  pose proof (small_range_check
                (λ y, buffer_size y =? Z.max 32 (2 ^ Z.log2_up y))
                ltac:(vm_compute; reflexivity) value Hv) as H.
  simpl in H. lia.
Qed.

Lemma smear_step (a j n : Z) :
  0 ≤ j → 0 ≤ n →
  Z.lor (Z.shiftl (Z.shiftl a j) n) (Z.shiftr (Z.shiftl (Z.shiftl a j) n) j)
  = Z.shiftl (Z.lor (Z.shiftl a j) a) n.
Proof.
  intros Hj Hn. rewrite Z.shiftl_lor. f_equal.
  rewrite Z.shiftl_shiftl by done. rewrite Z.shiftr_shiftl_l by lia.
  f_equal. lia.
Qed.

Lemma smear_power (n : Z) :
  0 ≤ n → smear 8 1 (2 ^ (n + 7)) = 255 * 2 ^ n.
Proof.
  intros Hn. rewrite smear_rounds.
  replace (2 ^ (n + 7)) with (Z.shiftl (Z.shiftl 64 1) n).
  2:{ rewrite (Z.shiftl_mul_pow2 _ n) by lia. rewrite Z.pow_add_r by lia.
      change (Z.shiftl 64 1) with 128. change (2 ^ 7) with 128. lia. }
  rewrite smear_step by lia.
  change (Z.lor (Z.shiftl 64 1) 64) with (Z.shiftl 48 2).
  rewrite smear_step by lia.
  change (Z.lor (Z.shiftl 48 2) 48) with (Z.shiftl 15 4).
  rewrite smear_step by lia.
  change (Z.lor (Z.shiftl 15 4) 15) with 255.
  by rewrite Z.shiftl_mul_pow2.
Qed.

Lemma buffer_size_after_power (n : Z) :
  1 ≤ n ≤ 55 →
  buffer_size (2 ^ (n + 7) + 1) = 255 * 2 ^ n + 1
  ∧ ∀ j, buffer_size (2 ^ (n + 7) + 1) ≠ 2 ^ j.
Proof.
  intros Hn.
  assert (Hp : 2 ≤ 2 ^ n < 2 ^ 56).
  { split.
    - change 2 with (2 ^ 1) at 1. apply Z.pow_le_mono_r; lia.
    - apply Z.pow_lt_mono_r; lia. }
  assert (Hq : 2 ^ (n + 7) = 128 * 2 ^ n) by (rewrite Z.pow_add_r by lia; lia).
  assert (E : buffer_size (2 ^ (n + 7) + 1) = 255 * 2 ^ n + 1).
  { unfold buffer_size. destruct (Z.leb_spec (2 ^ (n + 7) + 1) 32); [lia|].
    replace (2 ^ (n + 7) + 1 - 1) with (2 ^ (n + 7)) by lia.
    rewrite (wrap_small (2 ^ (n + 7))) by lia.
    rewrite smear_power by lia. apply wrap_small. lia. }
  split; [done|]. rewrite E. intros j Hj.
  destruct (Z.le_gt_cases j 0) as [Hle|Hgt].
  - assert (2 ^ j ≤ 1); [|lia].
    destruct (Z.eq_dec j 0) as [->|]; [simpl; lia|].
    rewrite Z.pow_neg_r by lia. lia.
  - replace j with (Z.succ (j - 1)) in Hj by lia.
    rewrite Z.pow_succ_r in Hj by lia.
    replace n with (Z.succ (n - 1)) in Hj by lia.
    rewrite Z.pow_succ_r in Hj by lia. lia.
Qed.

End BufferSize.

Section MoreInput.
Import Harness.

Lemma cstr_length_le (p : mem) : (length (cstr p) ≤ length p)%nat.
Proof.
  induction p as [|c p IH]; simpl; [done|]. destruct (is_nul c); simpl; lia.
Qed.

Lemma InHandle2_line (realloc_ok : Z → bool) (stdin : list ascii) :
  (∀ n, realloc_ok n = true) →
  Z.of_nat (length stdin) < 2 ^ 60 →
  ∃ line rest,
    (NL ∉ line)
    ∧ (stdin = line ++ NL :: rest ∨ (stdin = line ∧ rest = []))
    ∧ InHandle2 true realloc_ok stdin
      = Some (if bool_decide (cstr line = bytes "quit")
              then (Some (bytes "quit"), 1, rest)
              else (Some (cstr line ++ [NL]), 0, rest)).
Proof.
  intros Hok Hsz.
  destruct (readline_line realloc_ok stdin Hok Hsz)
    as (line & lenmax & rest & Hrun & Hnl & Hsplit & Hroom).
  exists line, rest. split; [done|]. split; [done|].
  unfold InHandle2. rewrite Hrun.
  destruct (bool_decide_reflect (cstr line = bytes "quit")) as [->|_]; [done|].
  pose proof (cstr_length_le line).
  destruct (Z.leb_spec (Z.of_nat (length (cstr line)) + 2) lenmax); [done|lia].
Qed.


End MoreInput.

Section MoreSearch.
Import Resolver.

Lemma resolve_falls_back_to_root (w : world) (name env : mem) (fuel : nat) :
  ExeFound w name = false →
  at_ name 0 ≠ SLASH →
  env_PATH w = Some env →
  Forall (λ c, c ≠ COLON) env →
  ExeFound w (cstr env ++ [SLASH] ++ name) = false →
  ExeFound w ([SLASH] ++ name) = true →
  resolve (S (S fuel)) w name = Some (Found ([SLASH] ++ name)).
Proof.
  intros Hexe Hslash Henv Hnc Hfirst Hroot. unfold resolve. rewrite Hexe, Henv.
  destruct (Ascii.eqb_spec (at_ name 0) SLASH); [done|]. cbn [negb].
  assert (Hhead : Ascii.eqb (at_ env 0) COLON = false).
  { destruct Hnc as [|c env Hc _]; [done|]. unfold at_. simpl.
    by apply Ascii.eqb_neq. }
  rewrite path_search_S, Hhead.
  destruct (copy_component_no_colon env Hnc) as [H1 H2].
  rewrite H1, Hfirst. rewrite path_search_S, H2.
  change (Ascii.eqb NUL COLON) with false. cbv iota.
  assert (copy_component (copy_component env).2 = ([], (copy_component env).2)) as ->.
  { destruct (copy_component env).2 as [|c e]; [done|]. unfold at_ in H2.
    simpl in H2. subst c. done. }
  cbn [fst snd]. by rewrite app_nil_l, Hroot.
Qed.

End MoreSearch.

(* ===================================================================== *)
(** ** Further properties: input, search, callbacks, test programs        *)
(* ===================================================================== *)

(** X12: with a String input binding, when every [write] takes at least
    one byte and there are enough of them, the child receives exactly the
    C string, nothing is appended, no error is recorded and the write end
    is closed. *)
Theorem String_input_is_delivered (sInput : mem)
    (writes : list InputWorker.WriteResult) :
  InputWorker.all_progress writes →
  (length (cstr sInput) ≤ length writes)%nat →
  ∃ st', InputWorker.HandleInputThread true None (Some sInput) (InputWorker.fresh writes)
         = Some st'
         ∧ InputWorker.i_pipe st' = cstr sInput
         ∧ InputWorker.i_error st' = None
         ∧ InputWorker.i_closed st' = true.
Proof.
  intros Hall Hlen. unfold InputWorker.HandleInputThread.
  destruct (WriteToStdin_completes sInput (InputWorker.fresh writes) Hall Hlen)
    as (st' & -> & Hp & He & _).
  eexists. split; [reflexivity|]. simpl. done.
Qed.

Lemma String_input_is_delivered_witness :
  ∃ st', InputWorker.HandleInputThread true None (Some (bytes "Jones Simon" ++ [NL]))
           (InputWorker.fresh (replicate 12 (InputWorker.Wrote 5)))
         = Some st'
         ∧ InputWorker.i_pipe st' = cstr (bytes "Jones Simon" ++ [NL])
         ∧ InputWorker.i_error st' = None
         ∧ InputWorker.i_closed st' = true.
Proof.
  apply (String_input_is_delivered (bytes "Jones Simon" ++ [NL])
           (replicate 12 (InputWorker.Wrote 5))).
  - repeat (constructor; [eexists; reflexivity|]). constructor.
  - simpl. lia.
Defined.

(** X15: when PATH names a single directory (it holds no colon) and the
    program is neither executable as named, nor in that directory, nor
    in the root directory, the search never ends: no number of rounds
    makes [resolve] return. *)
Theorem PATH_of_one_directory_never_gives_up (w : world) (name env : mem) :
  Resolver.ExeFound w name = false →
  at_ name 0 ≠ SLASH →
  env_PATH w = Some env →
  Forall (λ c, c ≠ COLON) env →
  Resolver.ExeFound w (cstr env ++ [SLASH] ++ name) = false →
  Resolver.ExeFound w ([SLASH] ++ name) = false →
  ∀ fuel, Resolver.resolve fuel w name = None.
Proof. apply resolve_never_returns. Qed.

Lemma PATH_of_one_directory_never_gives_up_witness :
  Resolver.resolve 1000 Sample.one_dir (bytes "no_such_program") = None.
Proof.
  apply (PATH_of_one_directory_never_gives_up Sample.one_dir
           (bytes "no_such_program") (bytes "/usr/bin")).
  - vm_compute. reflexivity.
  - discriminate.
  - reflexivity.
  - nul_free_tac.
  - vm_compute. reflexivity.
  - vm_compute. reflexivity.
Defined.

(** X16: when PATH names a single directory that does not hold the
    program, the second round of the search tries the root directory:
    an executable "/name" is what [resolve] finds. *)
Theorem PATH_of_one_directory_falls_back_to_root (w : world) (name env : mem)
    (fuel : nat) :
  Resolver.ExeFound w name = false →
  at_ name 0 ≠ SLASH →
  env_PATH w = Some env →
  Forall (λ c, c ≠ COLON) env →
  Resolver.ExeFound w (cstr env ++ [SLASH] ++ name) = false →
  Resolver.ExeFound w ([SLASH] ++ name) = true →
  Resolver.resolve (S (S fuel)) w name = Some (Resolver.Found ([SLASH] ++ name)).
Proof. apply resolve_falls_back_to_root. Qed.

Lemma PATH_of_one_directory_falls_back_to_root_witness :
  Resolver.resolve 2 Sample3.ls_in_root (bytes "ls")
  = Some (Resolver.Found ([SLASH] ++ bytes "ls")).
Proof.
  apply (PATH_of_one_directory_falls_back_to_root Sample3.ls_in_root
           (bytes "ls") (bytes "/usr/bin") 0).
  - vm_compute. reflexivity.
  - discriminate.
  - reflexivity.
  - nul_free_tac.
  - vm_compute. reflexivity.
  - vm_compute. reflexivity.
Defined.

(** X17: as long as the input callback never closes the input while
    leaving a string in [*data], every output callback is called with
    exactly what one [read] returned, up to its first NUL, in the order in
    which the requests are served, and the shared buffer is NULL again
    afterwards. *)
Theorem Output_callbacks_get_each_chunk (writes : list InputWorker.WriteResult)
    (requests : list Marshal.request) (st' : Marshal.m_state) :
  Forall Marshal.sized requests →
  Forall (λ r, ¬ Marshal.closes_with_text r) requests →
  Marshal.serve_all requests (Marshal.start writes) = Some st' →
  Marshal.calls st' = Marshal.output_chunks requests
  ∧ Marshal.callbackBuffer st' = None.
Proof.
  intros Hsz Hcl Hrun.
  apply (serve_all_clean requests (Marshal.start writes) st'); try done.
  split; vm_compute; lia.
Qed.

Lemma Output_callbacks_get_each_chunk_witness :
  ∃ st', Marshal.serve_all Sample3.session (Marshal.start [InputWorker.Wrote 4])
         = Some st'
         ∧ Marshal.calls st' = Marshal.output_chunks Sample3.session
         ∧ Marshal.callbackBuffer st' = None.
Proof.
  eexists. split; [vm_compute; reflexivity|].
  apply (Output_callbacks_get_each_chunk [InputWorker.Wrote 4] Sample3.session).
  - repeat (constructor; [simpl; try lia; done|]). constructor.
  - repeat (constructor; [simpl; tauto|]). constructor.
  - vm_compute. reflexivity.
Defined.



(** X19: when [malloc] and [realloc] succeed, [readline] returns the
    bytes of stdin before the first newline (or all of them, when there is
    none), leaves what follows the newline unread, and never stores
    outside its allocation, which keeps room for the NUL and one more
    byte. *)
Theorem readline_returns_the_first_line (realloc_ok : Z → bool)
    (stdin : list ascii) :
  (∀ n, realloc_ok n = true) →
  Z.of_nat (length stdin) < 2 ^ 60 →
  ∃ line lenmax rest,
    Harness.readline true realloc_ok stdin = Harness.RlLine line lenmax rest
    ∧ (NL ∉ line)
    ∧ (stdin = line ++ NL :: rest ∨ (stdin = line ∧ rest = []))
    ∧ Z.of_nat (length line) + 2 ≤ lenmax.
Proof. apply readline_line. Qed.

Lemma readline_returns_the_first_line_witness :
  ∃ line lenmax rest,
    Harness.readline true (λ _, true) Sample3.long_line
    = Harness.RlLine line lenmax rest
    ∧ (NL ∉ line)
    ∧ (Sample3.long_line = line ++ NL :: rest
       ∨ (Sample3.long_line = line ∧ rest = []))
    ∧ Z.of_nat (length line) + 2 ≤ lenmax.
Proof.
  apply (readline_returns_the_first_line (λ _, true) Sample3.long_line).
  - reflexivity.
  - vm_compute. reflexivity.
Defined.

(** X20: when [malloc] and [realloc] succeed, [InHandle2] neither passes
    NULL to [strcmp] nor lets [strcat] write outside the allocation: it
    returns 1 with "quit" in [*data] when the line read is "quit", and
    otherwise 0 with the line (up to its first NUL) and a newline. *)
Theorem InHandle2_answers (realloc_ok : Z → bool) (stdin : list ascii) :
  (∀ n, realloc_ok n = true) →
  Z.of_nat (length stdin) < 2 ^ 60 →
  ∃ line rest,
    (NL ∉ line)
    ∧ (stdin = line ++ NL :: rest ∨ (stdin = line ∧ rest = []))
    ∧ Harness.InHandle2 true realloc_ok stdin
      = Some (if bool_decide (cstr line = bytes "quit")
              then (Some (bytes "quit"), 1, rest)
              else (Some (cstr line ++ [NL]), 0, rest)).
Proof. apply InHandle2_line. Qed.

Lemma InHandle2_answers_witness :
  ∃ line rest,
    (NL ∉ line)
    ∧ (Sample3.long_line = line ++ NL :: rest
       ∨ (Sample3.long_line = line ∧ rest = []))
    ∧ Harness.InHandle2 true (λ _, true) Sample3.long_line
      = Some (if bool_decide (cstr line = bytes "quit")
              then (Some (bytes "quit"), 1, rest)
              else (Some (cstr line ++ [NL]), 0, rest)).
Proof.
  apply (InHandle2_answers (λ _, true) Sample3.long_line).
  - reflexivity.
  - vm_compute. reflexivity.
Defined.



(** X22: for a request of at most 2^63 bytes [buffer_size] returns at
    least the request and at least 32; up to 256 it returns the least
    power of two that is at least the request (and 32). *)
Theorem buffer_size_covers_the_request (value : Z) :
  0 ≤ value ≤ 2 ^ 63 →
  value ≤ Scratch.buffer_size value
  ∧ 32 ≤ Scratch.buffer_size value
  ∧ (value ≤ 256 → Scratch.buffer_size value = Z.max 32 (2 ^ Z.log2_up value)).
Proof.
  intros Hv. destruct (buffer_size_covers value Hv) as [[H1 _] H2].
  split; [done|]. split; [done|]. intros Hs. apply buffer_size_small. lia.
Qed.

Lemma buffer_size_covers_the_request_witness :
  200 ≤ Scratch.buffer_size 200
  ∧ 32 ≤ Scratch.buffer_size 200
  ∧ (200 ≤ 256 → Scratch.buffer_size 200 = Z.max 32 (2 ^ Z.log2_up 200)).
Proof. apply (buffer_size_covers_the_request 200). lia. Defined.

(** X23: the loop of [buffer_size] runs for the shifts 1, 2 and 4 only,
    so above 256 the result need not be a power of two: one byte more
    than 2^(n+7) gives 255 * 2^n + 1. *)
Theorem buffer_size_after_a_power_of_two (n : Z) :
  1 ≤ n ≤ 55 →
  Scratch.buffer_size (2 ^ (n + 7) + 1) = 255 * 2 ^ n + 1
  ∧ ∀ j, Scratch.buffer_size (2 ^ (n + 7) + 1) ≠ 2 ^ j.
Proof. apply buffer_size_after_power. Qed.

Lemma buffer_size_after_a_power_of_two_witness :
  Scratch.buffer_size (2 ^ (1 + 7) + 1) = 255 * 2 ^ 1 + 1
  ∧ ∀ j, Scratch.buffer_size (2 ^ (1 + 7) + 1) ≠ 2 ^ j.
Proof. apply (buffer_size_after_a_power_of_two 1). lia. Defined.

(** X24: [*rc] is written on the OK return only: with every other return
    value the caller's variable holds what it held before the call. *)
Theorem rc_is_written_on_OK_only (w : world) (fuel : nat) (a : args) (c : caller)
    (r : result) :
  shellspawn w fuel a c = Some r →
  status r ≠ SHELLSPAWN_OK →
  c_rc (after r) = c_rc c.
Proof. apply shellspawn_rc_frame. Qed.

Lemma rc_is_written_on_OK_only_witness :
  c_rc (after Sample2.not_found) = c_rc Sample.used_caller.
Proof.
  apply (rc_is_written_on_OK_only (Sample.usual []) 5
           (Sample.buffer_out (bytes "no_such_program_xyz")) Sample.used_caller).
  - vm_compute. reflexivity.
  - discriminate.
Defined.

Lemma clear_outputs_fields (a : args) (c : caller) :
  clear_outputs a c
  = {| c_aOut := if aOut a then None else c_aOut c;
       c_sOut := if sOut a then None else c_sOut c;
       c_aErr := if aErr a then None else c_aErr c;
       c_sErr := if sErr a then None else c_sErr c;
       c_rc := c_rc c; c_errorText := c_errorText c |}.
Proof.
  destruct c as [o1 o2 o3 o4 rc0 t0]. unfold clear_outputs.
  destruct (aOut a), (sOut a), (aErr a), (sErr a), o1, o2, o3, o4; reflexivity.
Qed.

Lemma clear_outputs_agree (a : args) (c c' : caller) :
  agree_outside a c c' → clear_outputs a c = clear_outputs a c'.
Proof.
  intros (Hrc & Htext & H1 & H2 & H3 & H4).
  rewrite !clear_outputs_fields, Hrc, Htext.
  destruct (aOut a), (sOut a), (aErr a), (sErr a);
    rewrite ?H1, ?H2, ?H3, ?H4 by done; reflexivity.
Qed.

(** X25: what the holders bound for a call held before it has no
    influence on the call: once the bindings have passed the validation,
    two calls that differ only in the old contents of bound holders behave
    alike. *)
Theorem old_contents_of_bound_holders_are_discarded (w : world) (fuel : nat)
    (a : args) (c c' : caller) :
  (∀ s, bindings a s ≤ 1) →
  agree_outside a c c' →
  shellspawn w fuel a c = shellspawn w fuel a c'.
Proof.
  intros Hb Hagree. unfold shellspawn.
  pose proof (Hb StdIn) as Hi. pose proof (Hb StdOut) as Ho.
  pose proof (Hb StdErr) as He. simpl in Hi, Ho, He.
  destruct (Z.ltb_spec 1 (count (aIn a) + count (sIn a) + count (fIn a) + count (pIn a)));
    [lia|].
  destruct (Z.ltb_spec 1 (count (aOut a) + count (sOut a) + count (fOut a) + count (pOut a)));
    [lia|].
  destruct (Z.ltb_spec 1 (count (aErr a) + count (sErr a) + count (fErr a) + count (pErr a)));
    [lia|].
  by rewrite (clear_outputs_agree a c c').
Qed.

Lemma old_contents_of_bound_holders_are_discarded_witness :
  shellspawn (Sample.usual [WaitStatus (Sys.exited 3)]) 5
    (Sample.buffer_out (bytes "/bin/echo hello")) Sample.used_caller
  = shellspawn (Sample.usual [WaitStatus (Sys.exited 3)]) 5
      (Sample.buffer_out (bytes "/bin/echo hello"))
      (with_sOut None Sample.used_caller).
Proof.
  apply (old_contents_of_bound_holders_are_discarded
           (Sample.usual [WaitStatus (Sys.exited 3)]) 5
           (Sample.buffer_out (bytes "/bin/echo hello"))
           Sample.used_caller (with_sOut None Sample.used_caller)).
  - well_bound_sample.
  - repeat split; try reflexivity; discriminate.
Defined.

(** X26: a Buffer binding on stdout through the whole call: when nothing
    fails around the child, the command parses without a store outside
    the argument array (no quoted argument), the program is found and the
    child ends, the call returns OK and [*sOut] holds the chunks the reads
    returned, put together (the chunks holding no NUL). *)
Theorem Buffer_binding_through_the_whole_call (w : world) (fuel : nat) (a : args)
    (c : caller) (before : list Z) (last : Z) (chunks : list (list ascii)) :
  quiet w →
  (∀ s, bindings a s ≤ 1) →
  resolves w fuel a →
  child_ends_with w before last →
  sOut a = true →
  out_reads w = RdData <$> chunks →
  length (out_stack w) = 257%nat →
  well_chunked chunks →
  Forall nul_free chunks →
  ∃ r, shellspawn w fuel a c = Some r
       ∧ status r = SHELLSPAWN_OK
       ∧ c_sOut (after r) = Some (concat chunks).
Proof. apply shellspawn_buffer_binding. Qed.

Lemma Buffer_binding_through_the_whole_call_witness :
  ∃ r, shellspawn (Sample2.writing [bytes "hel"; bytes "lo" ++ [NL]]
                     [WaitStatus (Sys.exited 0)]) 5
         (Sample.buffer_out (bytes "/bin/echo hello")) Sample.used_caller = Some r
       ∧ status r = SHELLSPAWN_OK
       ∧ c_sOut (after r) = Some (concat [bytes "hel"; bytes "lo" ++ [NL]]).
Proof.
  apply (Buffer_binding_through_the_whole_call
           (Sample2.writing [bytes "hel"; bytes "lo" ++ [NL]] [WaitStatus (Sys.exited 0)])
           5 (Sample.buffer_out (bytes "/bin/echo hello")) Sample.used_caller
           [] (Sys.exited 0) [bytes "hel"; bytes "lo" ++ [NL]]).
  - quiet_sample.
  - well_bound_sample.
  - resolves_sample.
  - split; [by exists [] | split; [repeat constructor | by left]].
  - reflexivity.
  - reflexivity.
  - reflexivity.
  - chunked_tac.
  - all_nul_free_tac.
Defined.

(** X27: a Lines binding on stdout through the whole call: when nothing
    fails around the child, the command parses without a store outside
    the argument array (no quoted argument), the program is found and the
    child ends, the call returns OK and the array holds the lines of what
    the reads returned (chunks holding no NUL), split at the newlines. *)
Theorem Lines_binding_through_the_whole_call (w : world) (fuel : nat) (a : args)
    (c : caller) (before : list Z) (last : Z) (chunks : list (list ascii)) :
  quiet w →
  (∀ s, bindings a s ≤ 1) →
  resolves w fuel a →
  child_ends_with w before last →
  aOut a = true →
  out_reads w = RdData <$> chunks →
  length (out_stack w) = 257%nat →
  well_chunked chunks →
  Forall nul_free chunks →
  ∃ r, shellspawn w fuel a c = Some r
       ∧ status r = SHELLSPAWN_OK
       ∧ lines_of (c_aOut (after r)) = lines_spec (concat chunks).
Proof. apply shellspawn_lines_binding. Qed.

Lemma Lines_binding_through_the_whole_call_witness :
  ∃ r, shellspawn (Sample2.writing [bytes "one" ++ [NL] ++ bytes "tw"; bytes "o" ++ [NL]]
                     [WaitStatus (Sys.exited 0)]) 5
         (Sample2.lines_out (bytes "/bin/echo hello")) Sample.used_caller = Some r
       ∧ status r = SHELLSPAWN_OK
       ∧ lines_of (c_aOut (after r))
         = lines_spec (concat [bytes "one" ++ [NL] ++ bytes "tw"; bytes "o" ++ [NL]]).
Proof.
  apply (Lines_binding_through_the_whole_call
           (Sample2.writing [bytes "one" ++ [NL] ++ bytes "tw"; bytes "o" ++ [NL]]
              [WaitStatus (Sys.exited 0)])
           5 (Sample2.lines_out (bytes "/bin/echo hello")) Sample.used_caller
           [] (Sys.exited 0) [bytes "one" ++ [NL] ++ bytes "tw"; bytes "o" ++ [NL]]).
  - quiet_sample.
  - well_bound_sample.
  - resolves_sample.
  - split; [by exists [] | split; [repeat constructor | by left]].
  - reflexivity.
  - reflexivity.
  - reflexivity.
  - chunked_tac.
  - all_nul_free_tac.
Defined.
